(** * ts-turnbased: the turn engine of [game.ts], its errors, the dice game
      of [test/simple_game.ts], the abstract strategy games and the
      tic-tac-toe of [test/tictactoe.ts], embedded in Rocq.

    Layout: definitions first (JavaScript containers, [errors.ts], the abstract
    class [Game] of [game.ts], the concrete [SimpleGame], JavaScript numbers
    and values of type [any], a small scripted game, [AbstractStrategyGame]
    and [Tictactoe]), then the theorems about them. *)

From Stdlib Require Import String Ascii.
From Stdlib Require Import ZArith QArith Qround List Bool Lia Permutation Sorted.
Local Open Scope string_scope.
Import ListNotations.
Local Open Scope list_scope.
Local Open Scope Z_scope.

(** [export type Player = number]. Player identifiers are integers; the
    sentinel [-1] is an ordinary value of the type. *)
Definition Player : Type := Z.

(** ** JavaScript [Set<Player>] and [Map<Player, V>]

    Both containers iterate in insertion order, so they are kept as lists in
    that order: a set never holds an element twice, a map never holds a key
    twice. *)
Module JsSet.

Definition t : Type := list Player.

Definition empty : t := [].

Definition has (s : t) (p : Player) : bool := existsb (Z.eqb p) s.

(** [Set.prototype.add]: a value already present keeps its place. *)
Definition add (s : t) (p : Player) : t :=
  if has s p then s else s ++ [p].

(** [new Set(array)] adds the elements of the array from left to right. *)
Definition of_array (a : list Player) : t := fold_left add a empty.

Definition size (s : t) : Z := Z.of_nat (length s).

End JsSet.

Module JsMap.
Section WithValue.
Context {V : Type}.

Definition t : Type := list (Player * V).

Definition empty : t := [].

Definition keys (m : t) : list Player := map fst m.

Definition has (m : t) (p : Player) : bool := existsb (Z.eqb p) (keys m).

Fixpoint get (m : t) (p : Player) : option V :=
  match m with
  | [] => None
  | (k, v) :: rest => if Z.eqb p k then Some v else get rest p
  end.

(** [Map.prototype.set]: an existing key keeps its position and takes the
    new value, a new key goes to the end. *)
Definition set (m : t) (p : Player) (v : V) : t :=
  if has m p
  then map (fun kv => if Z.eqb p (fst kv) then (fst kv, v) else kv) m
  else m ++ [(p, v)].

Definition size (m : t) : Z := Z.of_nat (length m).

End WithValue.
Arguments t : clear implicits.
End JsMap.

(** ** errors.ts *)
Module Errors.

(** The class of a thrown object. [Error] is JavaScript's base class,
    [TypeError] the one the runtime throws on a property access through
    [null]; the other four are the classes [errors.ts] declares. *)
Inductive ErrorClass : Type :=
| Error
| TypeError
| InvalidOptionsError
| InvalidMoveError
| IllegalMoveError
| OutOfTurnError.

Section WithPayload.
(** The values that reach an error constructor at run time: options, raw
    moves, sanitized moves, numbers, strings, or nothing at all. *)
Context {O Raw M : Type}.

Inductive any : Type :=
| AnyOptions (o : O)
| AnyRaw (r : Raw)
| AnyMove (m : M)
| AnyNumber (n : Z)
| AnyString (s : string)
| AnyUndefined.

(** A template literal is kept as its pieces: literal text, an
    interpolated value [${v}] and a [${JSON.stringify(v)}]. *)
Inductive piece : Type :=
| Lit (s : string)
| Interp (v : any)
| Json (v : any).

Record exn : Type := mkExn { cls : ErrorClass; message : list piece }.

Definition newline : string := String (ascii_of_nat 10) EmptyString.

(** [throw new Error(text)] *)
Definition new_Error (text : string) : exn :=
  mkExn Error [Lit text].

(** The error of the runtime for [null[i]]. *)
Definition new_TypeError (text : string) : exn :=
  mkExn TypeError [Lit text].

(** [constructor(options: any, reason: string)] *)
Definition new_InvalidOptionsError (options reason : any) : exn :=
  mkExn InvalidOptionsError
    [Lit "Invalid options: "; Interp reason; Lit newline; Json options].

(** [constructor(move: any, reason: string)] *)
Definition new_InvalidMoveError (move reason : any) : exn :=
  mkExn InvalidMoveError
    [Lit "Invalid move: "; Interp reason; Lit newline; Json move].

(** [constructor(move: any, player: number, reason: string)] *)
Definition new_IllegalMoveError (move player reason : any) : exn :=
  mkExn IllegalMoveError
    [Lit "Illegal move by player "; Interp player; Lit ": "; Interp reason;
     Lit newline; Json move].

(** [constructor(move: any, player: number, reason: string)] *)
Definition new_OutOfTurnError (move player reason : any) : exn :=
  mkExn OutOfTurnError
    [Lit "Out of turn play by player "; Interp player; Lit ": "; Interp reason;
     Lit newline; Json move].

(** The values a message shows. *)
Definition shown (p : piece) : option any :=
  match p with
  | Lit _ => None
  | Interp v => Some v
  | Json v => Some v
  end.

Definition reports (e : exn) (v : any) : Prop :=
  In (Some v) (map shown (message e)).

End WithPayload.
Arguments any : clear implicits.
Arguments piece : clear implicits.
Arguments exn : clear implicits.
End Errors.
Import Errors.

(** ** game.ts *)
Module Engine.

Section Types.
Context {O Raw M PU PR S : Type}.

(** [interface Update<PU, PR>]; the two optional fields are options. *)
Record Update : Type := mkUpdate {
  publicInfo : PU;
  toPlay : list Player;
  winners : option (list Player);
  privateInfo : option (list PR)
}.

(** [update.winners = w] *)
Definition set_winners (u : Update) (w : list Player) : Update :=
  mkUpdate (publicInfo u) (toPlay u) (Some w) (privateInfo u).

Definition err : Type := exn O Raw M.

(** The abstract methods of [Game<O, M, PU, PR>]. A subclass keeps its own
    fields in [S]; a method reads [this.options] (first argument) and may
    read and write the subclass fields. [Raw] is what a caller hands to
    [playMove]: typed [M] in the signature, [any] for [sanitizeMove].
    [sanitizeMove] and [assertMoveIsLegal] return or throw; [initialize],
    [processTurn] and [getWinners] return (the engine has no handler for a
    throw of theirs). The two methods the base constructor calls run before
    the subclass has any field. [fields] is the body of the subclass
    constructor after [super(options)]. An update is the value the method
    returns: the engine reads its [toPlay] and writes its [winners]. *)
Record Rules : Type := mkRules {
  numberOfPlayersForOptions : O -> Q;
  sanitizeOptions : O -> err + O;
  sanitizeMove : O -> Raw -> S -> S * (err + M);
  assertMoveIsLegal : O -> M -> Player -> S -> S * (err + unit);
  initialize : O -> string -> S -> S * Update;
  processTurn : O -> JsMap.t M -> S -> S * Update;
  getWinners : O -> S -> S * list Player;
  fields : O -> S
}.

(** One entry per invocation of an abstract method, with what it returned
    or threw. The log is ghost state: nothing reads it. *)
Inductive Call : Type :=
| CallInitialize (seed : string) (result : Update)
| CallSanitizeMove (move : Raw) (result : err + M)
| CallAssertMoveIsLegal (move : M) (player : Player) (result : err + unit)
| CallProcessTurn (moves : JsMap.t M) (result : Update)
| CallGetWinners (result : list Player).

(** The fields of a [Game] object, the subclass fields and the call log. *)
Record Game : Type := mkGame {
  pendingMoves : JsMap.t M;
  updates : list Update;
  options : O;
  numberOfPlayers : Q;
  self : S;
  calls : list Call
}.

(** State and exceptions: a method runs on the object and either returns
    a value or throws; the object keeps what was written before a throw. *)
Definition Eff (A : Type) : Type := Game -> Game * (err + A).

Definition ret {A} (a : A) : Eff A := fun g => (g, inr a).

Definition throw {A} (e : err) : Eff A := fun g => (g, inl e).

Definition bind {A B} (c : Eff A) (k : A -> Eff B) : Eff B :=
  fun g =>
    match c g with
    | (g', inr a) => k a g'
    | (g', inl e) => (g', inl e)
    end.

Definition this : Eff Game := fun g => (g, inr g).

Definition write (f : Game -> Game) : Eff unit := fun g => (f g, inr tt).

End Types.
Arguments Update : clear implicits.
Arguments Rules : clear implicits.
Arguments Call : clear implicits.
Arguments Game : clear implicits.

Declare Scope eff_scope.
Delimit Scope eff_scope with eff.
Notation "x <- c ;; k" := (bind c (fun x => k))
  (at level 61, c at next level, right associativity) : eff_scope.
Notation "c ;;; k" := (bind c (fun _ => k))
  (at level 61, right associativity) : eff_scope.

Section Class.
Context {O Raw M PU PR S : Type}.
Context (R : Rules O Raw M PU PR S).

Local Abbreviation Update := (Update PU PR).
Local Abbreviation Game := (Game O Raw M PU PR S).
Local Abbreviation Call := (Call O Raw M PU PR).
Local Abbreviation Eff := (@Eff O Raw M PU PR S).
Local Abbreviation err := (exn O Raw M).

Local Open Scope eff_scope.

Definition log (c : Call) (s : S) (g : Game) : Game :=
  mkGame (pendingMoves g) (updates g) (options g) (numberOfPlayers g) s
         (calls g ++ [c]).

Definition call_sanitizeMove (move : Raw) : Eff M :=
  fun g =>
    let (s, r) := sanitizeMove R (options g) move (self g) in
    (log (CallSanitizeMove move r) s g, r).

Definition call_assertMoveIsLegal (move : M) (player : Player) : Eff unit :=
  fun g =>
    let (s, r) := assertMoveIsLegal R (options g) move player (self g) in
    (log (CallAssertMoveIsLegal move player r) s g, r).

Definition call_initialize (seed : string) : Eff Update :=
  fun g =>
    let (s, u) := initialize R (options g) seed (self g) in
    (log (CallInitialize seed u) s g, inr u).

Definition call_processTurn (moves : JsMap.t M) : Eff Update :=
  fun g =>
    let (s, u) := processTurn R (options g) moves (self g) in
    (log (CallProcessTurn moves u) s g, inr u).

Definition call_getWinners : Eff (list Player) :=
  fun g =>
    let (s, w) := getWinners R (options g) (self g) in
    (log (CallGetWinners w) s g, inr w).

(** [this.updates.push(update)] *)
Definition push_update (u : Update) : Eff unit :=
  write (fun g => mkGame (pendingMoves g) (updates g ++ [u]) (options g)
                         (numberOfPlayers g) (self g) (calls g)).

(** [this.pendingMoves = pm] *)
Definition assign_pendingMoves (pm : JsMap.t M) : Eff unit :=
  write (fun g => mkGame pm (updates g) (options g)
                         (numberOfPlayers g) (self g) (calls g)).

(** [constructor(options: O)], followed by the subclass constructor. Note
    the argument of [numberOfPlayersForOptions]: the constructor's
    parameter, not [this.options]. *)
Definition construct (options : O) : err + Game :=
  match sanitizeOptions R options with
  | inl e => inl e
  | inr sanitized =>
      inr (mkGame JsMap.empty [] sanitized
                  (numberOfPlayersForOptions R options)
                  (fields R sanitized) [])
  end.

(** [if (update.toPlay.length == 0) { update.winners = this.getWinners(); }] *)
Definition attach_winners (update : Update) : Eff Update :=
  if (length (toPlay update) =? 0)%nat
  then w <- call_getWinners ;; ret (set_winners update w)
  else ret update.

(** [public start(seed: string = ""): void] *)
Definition start (seed : string) : Eff unit :=
  g <- this ;;
  if (0 <? length (updates g))%nat
  then throw (new_Error "A game can only be started once")
  else
    update <- call_initialize seed ;;
    update <- attach_winners update ;;
    push_update update.

(** [start()] with the default seed. *)
Definition start_default : Eff unit := start "".

(** [public getAllUpdates()] *)
Definition getAllUpdates : Eff (list Update) :=
  g <- this ;; ret (updates g).

(** [public getLatestUpdate()]: the guard is the empty history, and
    [this.updates[this.updates.length - 1]] is the last element. *)
Definition getLatestUpdate : Eff Update :=
  g <- this ;;
  match updates g with
  | [] => throw (new_Error "Game hasn't started yet")
  | first :: rest => ret (last rest first)
  end.

(** [public getPlayersToPlay()] *)
Definition getPlayersToPlay : Eff JsSet.t :=
  g <- this ;;
  if negb (length (updates g) =? 0)%nat
  then u <- getLatestUpdate ;; ret (JsSet.of_array (toPlay u))
  else ret JsSet.empty.

Definition out_of_turn (player : Player) (reason : string) : err :=
  new_OutOfTurnError (AnyNumber player) (AnyString reason) AnyUndefined.

(** [public playMove(move: M, player: Player): boolean] *)
Definition playMove (move : Raw) (player : Player) : Eff bool :=
  g <- this ;;
  if (length (updates g) =? 0)%nat
  then throw (out_of_turn player "The game hasn't started yet")
  else
    playersToPlayThisTurn <- getPlayersToPlay ;;
    g <- this ;;
    if JsSet.size playersToPlayThisTurn =? 0
    then throw (out_of_turn player "The game is already over")
    else if negb (JsSet.has playersToPlayThisTurn player)
    then throw (out_of_turn player "No legal moves this turn for this player")
    else if JsMap.has (pendingMoves g) player
    then throw (out_of_turn player "Player has already played this turn")
    else
      sanitizedMove <- call_sanitizeMove move ;;
      call_assertMoveIsLegal sanitizedMove player ;;;
      g <- this ;;
      assign_pendingMoves (JsMap.set (pendingMoves g) player sanitizedMove) ;;;
      players <- getPlayersToPlay ;;
      g <- this ;;
      if JsSet.size players =? JsMap.size (pendingMoves g)
      then
        update <- call_processTurn (pendingMoves g) ;;
        update <- attach_winners update ;;
        push_update update ;;;
        assign_pendingMoves JsMap.empty ;;;
        ret true
      else ret false.

(** A sequence of [playMove] calls, each with what it returned or threw. *)
Fixpoint playMoves (ms : list (Raw * Player)) (g : Game)
  : Game * list (err + bool) :=
  match ms with
  | [] => (g, [])
  | (move, player) :: rest =>
      let (g1, r) := playMove move player g in
      let (g2, rs) := playMoves rest g1 in
      (g2, r :: rs)
  end.

(** *** Vocabulary of the statements *)

(** The last element of the history, [None] when the history is empty. *)
Definition latest (g : Game) : option Update :=
  match updates g with
  | [] => None
  | first :: rest => Some (last rest first)
  end.

(** The [toPlay] array of the latest update. *)
Definition players (g : Game) : list Player :=
  match latest g with
  | Some u => toPlay u
  | None => []
  end.

(** The players with a move in the buffer, in submission order. *)
Definition submitted (g : Game) : list Player := JsMap.keys (pendingMoves g).

(** Two sequences of players that hold the same players. *)
Definition same_players (l1 l2 : list Player) : Prop :=
  forall q, In q l1 <-> In q l2.

(** The objects a caller can get: a constructed game, and what [start] and
    [playMove] leave behind, whether they return or throw. *)
Inductive reachable : Game -> Prop :=
| reachable_new (o : O) (g : Game) :
    construct o = inr g -> reachable g
| reachable_start (seed : string) (g : Game) :
    reachable g -> reachable (fst (start seed g))
| reachable_playMove (move : Raw) (player : Player) (g : Game) :
    reachable g -> reachable (fst (playMove move player g)).

(** The invariant of the pending buffer: one entry per player, only players
    of the current [toPlay], and never all of them between two calls. *)
Record wf (g : Game) : Prop := mkWf {
  wf_nodup : NoDup (submitted g);
  wf_subset : incl (submitted g) (players g);
  wf_waiting :
    pendingMoves g = [] \/
    (List.length (pendingMoves g) < List.length (JsSet.of_array (players g)))%nat
}.

(** [update.winners = this.getWinners()] under its guard, as a function of
    the subclass fields. *)
Definition with_winners (o : O) (s : S) (u : Update) : S * Update :=
  if (List.length (toPlay u) =? 0)%nat
  then let (s', w) := getWinners R o s in (s', set_winners u w)
  else (s, u).

(** The calls of [getWinners] the engine makes for an update [u] when the
    subclass fields are [s]. *)
Definition winner_call (o : O) (s : S) (u : Update) : list Call :=
  if (List.length (toPlay u) =? 0)%nat
  then [CallGetWinners (snd (getWinners R o s))]
  else [].

(** The calls of [processTurn] in a log: argument and result. *)
Definition turns (cs : list Call) : list (JsMap.t M * Update) :=
  flat_map (fun c => match c with
                     | CallProcessTurn moves u => [(moves, u)]
                     | _ => []
                     end) cs.

(** The calls of [getWinners] in a log. *)
Definition winner_queries (cs : list Call) : list (list Player) :=
  flat_map (fun c => match c with
                     | CallGetWinners w => [w]
                     | _ => []
                     end) cs.

(** Where an update came from. *)
Inductive Source : Type :=
| FromInitialize (seed : string)
| FromProcessTurn (moves : JsMap.t M).

(** The updates the subclass produced, in call order. *)
Definition produced (cs : list Call) : list (Source * Update) :=
  flat_map (fun c => match c with
                     | CallInitialize seed u => [(FromInitialize seed, u)]
                     | CallProcessTurn moves u => [(FromProcessTurn moves, u)]
                     | _ => []
                     end) cs.

Definition is_turn (su : Source * Update) : Prop :=
  match fst su with
  | FromProcessTurn _ => True
  | FromInitialize _ => False
  end.

(** A history entry [e] is the produced update [u] itself; the engine has
    written its [winners] field, and nothing else, if [toPlay] was empty. *)
Definition entry_of (e : Update) (u : Update) : Prop :=
  (toPlay u <> [] -> e = u) /\
  (toPlay u = [] -> exists w, e = set_winners u w).

(** The history mirrors the updates produced so far: the first by
    [initialize], the others by [processTurn]. *)
Definition mirrors (g : Game) : Prop :=
  Forall2 (fun e su => entry_of e (snd su)) (updates g) (produced (calls g)) /\
  match produced (calls g) with
  | [] => True
  | first :: rest => ~ is_turn first /\ Forall is_turn rest
  end.

End Class.
Arguments latest {O Raw M PU PR S} g.
Arguments players {O Raw M PU PR S} g.
Arguments submitted {O Raw M PU PR S} g.
Arguments turns {O Raw M PU PR} cs.
Arguments winner_queries {O Raw M PU PR} cs.
Arguments produced {O Raw M PU PR} cs.
Arguments is_turn {M PU PR} su.
Arguments entry_of {PU PR} e u.
Arguments wf {O Raw M PU PR S} g.
Arguments mirrors {O Raw M PU PR S} g.
End Engine.
Import Engine.

(** ** test/simple_game.ts *)
Module SimpleGame.

(** [interface SimpleOptions]. The fields are finite JavaScript numbers,
    possibly fractional; [numPoints] is optional. The [typeof] guard of
    [sanitizeOptions] cannot fire on a value of this type, and [NaN] and the
    infinities, which are numbers too, are not values of it: the method on
    an argument of type [any] is [SimpleGameAny.sanitizeOptions] below. *)
Record SimpleOptions : Type := mkOptions {
  numPlayers : Q;
  numPoints : option Q
}.

Inductive Parity : Type := even | odd.

Definition Parity_eqb (a b : Parity) : bool :=
  match a, b with
  | even, even => true
  | odd, odd => true
  | _, _ => false
  end.

(** [interface SimpleMove]; [gamble] absent is [false]. *)
Record SimpleMove : Type := mkMove {
  guess : Parity;
  gamble : bool
}.

(** What [sanitizeMove] looks at in its untyped argument: the [guess] field
    as text and whether the [gamble] field is truthy. *)
Record RawMove : Type := mkRaw {
  raw_guess : string;
  raw_gamble : bool
}.

(** [interface SimplePublicUpdate]; each array may be [null]. *)
Record SimplePublicUpdate : Type := mkPublic {
  pu_calls : option (list (option SimpleMove));
  pu_publicRolls : option (list Z);
  pu_lastPrivateRolls : option (list Z)
}.

(** [interface SimplePrivateUpdate] *)
Record SimplePrivateUpdate : Type := mkPrivate {
  privateRoll : Z
}.

(** The private fields of the class. [rollGenerator] and [highRollsParity] are
    undefined until [initialize] runs; the generator is assigned before its
    first read, the parity is compared while still undefined at most by a
    [processTurn] that the engine never calls before [start]. *)
Record Fields : Type := mkFields {
  rollGenerator : Z;
  highRollers : list Player;
  highRollsParity : option Parity;
  points : list Z;
  publicRolls : option (list Z);
  privateRolls : option (list Z);
  lastPrivateRolls : option (list Z)
}.

Local Abbreviation err := (exn SimpleOptions RawMove SimpleMove).
Local Abbreviation Update := (Update SimplePublicUpdate SimplePrivateUpdate).

(** The number of rounds of [for (let i = 0; i < n; ++i)]. *)
Definition rounds (n : Q) : nat := Z.to_nat (Qceiling n).

(** [a[i]] for a player index: [undefined] (here [None]) outside the array. *)
Definition array_get {A} (a : list A) (i : Player) : option A :=
  if i <? 0 then None else nth_error a (Z.to_nat i).

(** [a[i] = v] for [i] at most the length of the array, as in the loop of
    [rollAllDice], which writes index [i] after the indices below it. *)
Fixpoint array_set (a : list Z) (i : nat) (v : Z) : list Z :=
  match a, i with
  | [], _ => [v]
  | _ :: rest, O => v :: rest
  | x :: rest, Datatypes.S j => x :: array_set rest j v
  end.

(** [a[i] += d] on the array of points, for an index inside the array: the
    players of a turn are players of [toPlay], who all have an entry. For an
    index outside the array JavaScript stores a [NaN] there, lengthening the
    array (or under a property name); the entries inside stay as they are,
    and they are all that is kept here. *)
Fixpoint array_add_nat (a : list Z) (i : nat) (d : Z) : list Z :=
  match a, i with
  | [], _ => []
  | x :: rest, O => (x + d) :: rest
  | x :: rest, Datatypes.S j => x :: array_add_nat rest j d
  end.

Definition array_add (a : list Z) (i : Player) (d : Z) : list Z :=
  if i <? 0 then a else array_add_nat a (Z.to_nat i) d.

(** [private getNextDiceRoll()]: the new generator and the roll, on whole
    numbers. [initialize] leaves the generator from 0 to 126 and so does
    every call; there the product by 8191 is far below 2^53, and the
    arithmetic of JavaScript numbers is the arithmetic of whole numbers. *)
Definition getNextDiceRoll (gen : Z) : Z * Z :=
  let gen' := Z.rem (gen * 8191) 127 in
  (gen', 1 + Z.rem gen' 6).

(** The local state of the loop of [rollAllDice]. *)
Record Rolling : Type := mkRolling {
  r_gen : Z;
  r_private : list Z;
  r_public : list Z;
  r_highest : Z;
  r_high : list Player
}.

Definition roll_one (r : Rolling) (i : nat) : Rolling :=
  let (g1, priv) := getNextDiceRoll (r_gen r) in
  let (g2, pub) := getNextDiceRoll g1 in
  let privs := array_set (r_private r) i priv in
  let pubs := array_set (r_public r) i pub in
  let (highest, high) :=
    if r_highest r <? pub then (pub, []) else (r_highest r, r_high r) in
  let high := if pub =? highest then high ++ [Z.of_nat i] else high in
  mkRolling g2 privs pubs highest high.

Definition or_empty (a : option (list Z)) : list Z :=
  match a with Some l => l | None => [] end.

(** [private rollAllDice()], for the two roll arrays in place. They are
    [null] only once the game is over, when the engine calls neither
    [initialize] nor [processTurn] any more; JavaScript would throw a
    TypeError on the first write there, and what this function returns on
    [None] says nothing of the code. *)
Definition rollAllDice (o : SimpleOptions) (s : Fields) : Fields :=
  let r := fold_left roll_one (seq 0 (rounds (numPlayers o)))
             (mkRolling (rollGenerator s) (or_empty (privateRolls s))
                        (or_empty (publicRolls s)) 0 []) in
  let highRollersPrivateSum :=
    fold_left (fun sum player =>
                 match array_get (r_private r) player with
                 | Some v => sum + v
                 | None => sum
                 end) (r_high r) 0 in
  mkFields (r_gen r) (r_high r)
           (Some (if Z.rem highRollersPrivateSum 2 =? 0 then even else odd))
           (points s) (Some (r_public r)) (Some (r_private r))
           (lastPrivateRolls s).

(** [private currentUpdate(calls)]. The [publicRolls] of the update is the
    array [this.publicRolls] itself, which the next [rollAllDice] overwrites
    in place; the update holds its contents at the time of the call. *)
Definition currentUpdate (s : Fields) (calls : option (list (option SimpleMove)))
  : Update :=
  mkUpdate (mkPublic calls (publicRolls s) (lastPrivateRolls s))
           (highRollers s)
           None
           (option_map (map mkPrivate) (privateRolls s)).

(** [value >= this.options.numPoints]; the comparison with an absent
    [numPoints] is false. *)
Definition reached (o : SimpleOptions) (value : Z) : bool :=
  match numPoints o with
  | Some q => Qle_bool q (inject_Z value)
  | None => false
  end.

(** [protected getWinners()] *)
Definition getWinners (o : SimpleOptions) (s : Fields) : list Player :=
  map (fun iv => Z.of_nat (fst iv))
      (filter (fun iv => reached o (snd iv))
              (combine (seq 0 (List.length (points s))) (points s))).

(** The sum of the character codes of the seed. *)
Fixpoint charCodeSum (seed : string) : Z :=
  match seed with
  | EmptyString => 0
  | String c rest => Z.of_nat (nat_of_ascii c) + charCodeSum rest
  end.

(** [protected initialize(seed)] *)
Definition initialize (o : SimpleOptions) (seed : string) (s : Fields)
  : Fields * Update :=
  let s := mkFields (Z.rem (charCodeSum seed) 127) (highRollers s)
                    (highRollsParity s) (points s) (publicRolls s)
                    (privateRolls s) (lastPrivateRolls s) in
  let s := rollAllDice o s in
  (s, currentUpdate s None).

(** [protected sanitizeOptions(options)] *)
Definition sanitizeOptions (options : SimpleOptions) : err + SimpleOptions :=
  if negb (Qle_bool (1 # 1) (numPlayers options))
  then inl (new_InvalidOptionsError (AnyOptions options)
              (AnyString "number of players must be at least 1"))
  else inr (mkOptions
              (inject_Z (Qfloor (numPlayers options)))
              (Some match numPoints options with
                    | Some q => if Qle_bool (1 # 1) q then q else 10 # 1
                    | None => 10 # 1
                    end)).

(** [protected numberOfPlayersForOptions(options)] *)
Definition numberOfPlayersForOptions (options : SimpleOptions) : Q :=
  numPlayers options.

(** [protected sanitizeMove(move)] *)
Definition sanitizeMove (move : RawMove) : err + SimpleMove :=
  if String.eqb (raw_guess move) "even"
  then inr (mkMove even (raw_gamble move))
  else if String.eqb (raw_guess move) "odd"
  then inr (mkMove odd (raw_gamble move))
  else inl (new_InvalidMoveError (AnyRaw move)
              (AnyString "move does not contain an even/odd guess")).

Definition same_roll (a b : option Z) : bool :=
  match a, b with
  | Some x, Some y => x =? y
  | None, None => true
  | _, _ => false
  end.

(** [protected assertMoveIsLegal(move, player)]. Indexing a [null] array
    throws JavaScript's own TypeError. *)
Definition assertMoveIsLegal (s : Fields) (move : SimpleMove) (player : Player)
  : err + unit :=
  match publicRolls s, privateRolls s with
  | Some pub, Some priv =>
      if negb (same_roll (array_get pub player) (array_get priv player))
         && gamble move
      then inl (new_IllegalMoveError (AnyMove move) (AnyNumber player)
                  (AnyString "Can only call a gamble if the public roll matches the private roll"))
      else inr tt
  | _, _ => inl (new_TypeError "Cannot read properties of null")
  end.

(** The callback of [moves.forEach] in [processTurn]. *)
Definition score (parity : option Parity) (pts : list Z)
           (entry : Player * SimpleMove) : list Z :=
  let (player, move) := entry in
  let pts := if gamble move then array_add pts player (-1) else pts in
  match parity with
  | Some p =>
      if Parity_eqb (guess move) p
      then array_add pts player (if gamble move then 4 else 1)
      else pts
  | None => pts
  end.

(** [protected processTurn(moves)], for the two roll arrays in place (as
    for [rollAllDice]: [this.privateRolls.slice()] throws on [null]). *)
Definition processTurn (o : SimpleOptions) (moves : JsMap.t SimpleMove)
           (s : Fields) : Fields * Update :=
  let pts := fold_left (score (highRollsParity s)) moves (points s) in
  let s := mkFields (rollGenerator s) (highRollers s) (highRollsParity s) pts
                    (publicRolls s) (privateRolls s)
                    (Some (or_empty (privateRolls s))) in
  let s :=
    if (List.length (getWinners o s) =? 0)%nat
    then rollAllDice o s
    else mkFields (rollGenerator s) [] (highRollsParity s) (points s)
                  None None (lastPrivateRolls s) in
  let calls :=
    map (fun i => JsMap.get moves (Z.of_nat i))
        (seq 0 (rounds (numPlayers o))) in
  (s, currentUpdate s (Some calls)).

(** [constructor(options)] after [super(options)]. *)
Definition fields (o : SimpleOptions) : Fields :=
  mkFields 0 [] None (repeat 0 (rounds (numPlayers o))) (Some []) (Some []) None.

(** The class as an implementation of the abstract methods. Only
    [initialize] and [processTurn] write fields. *)
Definition rules
  : Rules SimpleOptions RawMove SimpleMove SimplePublicUpdate
          SimplePrivateUpdate Fields :=
  mkRules
    numberOfPlayersForOptions
    sanitizeOptions
    (fun _ move s => (s, sanitizeMove move))
    (fun _ move player s => (s, assertMoveIsLegal s move player))
    initialize
    processTurn
    (fun o s => (s, getWinners o s))
    fields.

End SimpleGame.

(** ** Arguments of type [any], and the numbers among them

    The sanitizers of the games take an argument of type [any]. They ask
    whether a value is a number ([typeof v == "number"]), compare it with a
    bound and floor it; [NaN] and the two infinities are numbers too, and
    compare and floor in their own way. The finite numbers are kept as
    rationals (every finite JavaScript number is one); the two zeros are
    not told apart, as nothing in these programs does. *)
Module Js.

Inductive number : Type :=
| Finite (q : Q)
| NaN
| Infinity (negative : bool).

(** A value of type [any], as far as [typeof] tells. *)
Inductive value : Type :=
| NotNumber
| Number (n : number).

(** What [Math.floor] returns: a whole number, [NaN] or an infinity. *)
Inductive whole : Type :=
| Whole (z : Z)
| NaNWhole
| InfinityWhole (negative : bool).

(** [a < bound]; a comparison with [NaN] is false. *)
Definition ltb (a : number) (bound : Q) : bool :=
  match a with
  | Finite q => negb (Qle_bool bound q)
  | NaN => false
  | Infinity negative => negative
  end.

(** [a >= bound]; a comparison with [NaN] is false. *)
Definition geb (a : number) (bound : Q) : bool :=
  match a with
  | Finite q => Qle_bool bound q
  | NaN => false
  | Infinity negative => negb negative
  end.

(** [Math.floor(a)] *)
Definition floor (a : number) : whole :=
  match a with
  | Finite q => Whole (Qfloor q)
  | NaN => NaNWhole
  | Infinity negative => InfinityWhole negative
  end.

(** [Math.pow(2, a)] for a whole [a], as an operand of [&] and [|], which
    read their operands as 32-bit integers: a power of two up to 2^30, the
    sign bit for 2^31, and 0 for a power below 1, for a multiple of 2^32,
    for an infinity and for [NaN]. *)
Definition pow2_int32 (a : whole) : Z :=
  match a with
  | Whole z =>
      if z <? 0 then 0
      else if z <=? 30 then 2 ^ z
      else if z =? 31 then - 2 ^ 31
      else 0
  | NaNWhole => 0
  | InfinityWhole _ => 0
  end.

End Js.

(** ** test/simple_game.ts: [sanitizeOptions] on an argument of type [any]

    [SimpleGame.sanitizeOptions] above is the method on the options the
    engine is given in the examples, whose [numPlayers] is a finite number.
    This is the method on any object: a [numPlayers] that is not a number
    is refused with a message of its own, and [NaN], which is a number and
    is not below 1, is let through. *)
Module SimpleGameAny.

(** The two fields the method reads in its argument. *)
Record RawOptions : Type := mkRawOptions {
  numPlayers : Js.value;
  numPoints : Js.value
}.

(** The object the method returns. *)
Record Sanitized : Type := mkSanitized {
  s_numPlayers : Js.whole;
  s_numPoints : Js.number
}.

Local Abbreviation err :=
  (exn RawOptions SimpleGame.RawMove SimpleGame.SimpleMove).

(** [protected sanitizeOptions(options)] *)
Definition sanitizeOptions (options : RawOptions) : err + Sanitized :=
  match numPlayers options with
  | Js.NotNumber =>
      inl (new_InvalidOptionsError
             (AnyOptions options)
             (AnyString "options must specify the number of players"))
  | Js.Number n =>
      if Js.ltb n (1 # 1)
      then inl (new_InvalidOptionsError
                  (AnyOptions options)
                  (AnyString "number of players must be at least 1"))
      else inr (mkSanitized
                  (Js.floor n)
                  match numPoints options with
                  | Js.Number p => if Js.geb p (1 # 1) then p
                                   else Js.Finite (10 # 1)
                  | Js.NotNumber => Js.Finite (10 # 1)
                  end)
  end.

(** The options of [SimpleGame.SimpleOptions] as an argument of type
    [any], and as a returned object. *)
Definition of_options (o : SimpleGame.SimpleOptions) : RawOptions :=
  mkRawOptions (Js.Number (Js.Finite (SimpleGame.numPlayers o)))
               match SimpleGame.numPoints o with
               | Some q => Js.Number (Js.Finite q)
               | None => Js.NotNumber
               end.

Definition same_options (o : SimpleGame.SimpleOptions) (r : Sanitized)
  : Prop :=
  (exists z, SimpleGame.numPlayers o = inject_Z z /\ s_numPlayers r = Js.Whole z)
  /\ (exists q, SimpleGame.numPoints o = Some q /\ s_numPoints r = Js.Finite q).

End SimpleGameAny.

(** ** A second subclass, written for the examples

    The [toPlay] of each update is read off a script given as the options;
    the public information of a turn lists the players in the order in which
    [moves.forEach] yields them. A move is a number, well formed when it is
    not negative, and always legal. *)
Module ScriptedGame.

Definition Script : Type := list (list Player).

Definition step (script : Script) (n : nat) : list Player := nth n script [].

Definition sanitizeMove (move : Z) : exn Script Z Z + Z :=
  if move <? 0
  then inl (new_InvalidMoveError (AnyRaw move) (AnyString "a move is not negative"))
  else inr move.

Definition rules : Rules Script Z Z (list Player) unit nat :=
  mkRules
    (fun _ => 2 # 1)
    (fun script => inr script)
    (fun _ move s => (s, sanitizeMove move))
    (fun _ _ _ s => (s, inr tt))
    (fun script _ _ => (1%nat, mkUpdate [] (step script 0) None None))
    (fun script moves s =>
       (Datatypes.S s, mkUpdate (JsMap.keys moves) (step script s) None None))
    (fun _ s => (s, [0]))
    (fun _ => 0%nat).

End ScriptedGame.

(** ** Concrete games used in the examples *)
Module Examples.

Definition run {O Raw M PU PR S A} (c : @Eff O Raw M PU PR S A)
           (g : Game O Raw M PU PR S) : Game O Raw M PU PR S :=
  fst (c g).

Definition SimpleGameObject : Type :=
  Game SimpleGame.SimpleOptions SimpleGame.RawMove SimpleGame.SimpleMove
       SimpleGame.SimplePublicUpdate SimpleGame.SimplePrivateUpdate
       SimpleGame.Fields.

(** [new SimpleGame({numPlayers: 3, numPoints: 5})], as in the tests. *)
Definition three_players : SimpleGame.SimpleOptions :=
  SimpleGame.mkOptions (3 # 1) (Some (5 # 1)).

Definition simple_new : SimpleGameObject :=
  mkGame [] [] three_players (3 # 1) (SimpleGame.fields three_players) [].

(** [game.start("test_seed")] *)
Definition simple_started : SimpleGameObject :=
  run (start SimpleGame.rules "test_seed") simple_new.

Definition call (g : string) : SimpleGame.RawMove := SimpleGame.mkRaw g false.

(** The third turn of the test: players 0 and 1 are both to play. *)
Definition simple_tied : SimpleGameObject :=
  run (playMove SimpleGame.rules (call "odd") 0)
      (run (playMove SimpleGame.rules (call "even") 0) simple_started).

(** A one-player game to one point: with the empty seed every roll is 1,
    so a single guess of "odd" ends the game. *)
Definition solo : SimpleGame.SimpleOptions :=
  SimpleGame.mkOptions (1 # 1) (Some (1 # 1)).

Definition solo_new : SimpleGameObject :=
  mkGame [] [] solo (1 # 1) (SimpleGame.fields solo) [].

Definition solo_started : SimpleGameObject :=
  run (start SimpleGame.rules "") solo_new.

Definition solo_over : SimpleGameObject :=
  run (playMove SimpleGame.rules (call "odd") 0) solo_started.

Definition ScriptedGameObject : Type :=
  Game ScriptedGame.Script Z Z (list Player) unit nat.

Definition scripted_new (script : ScriptedGame.Script) : ScriptedGameObject :=
  mkGame [] [] script (2 # 1) 0%nat [].

Definition scripted_started (script : ScriptedGame.Script) : ScriptedGameObject :=
  run (start ScriptedGame.rules "") (scripted_new script).

(** Player 0, alone to play after [start], guesses "even". *)
Definition simple_after_even : SimpleGameObject :=
  run (playMove SimpleGame.rules (call "even") 0) simple_started.

(** Player 0 submits [{guess: "neither"}] instead. *)
Definition simple_after_invalid : SimpleGameObject :=
  run (playMove SimpleGame.rules (call "neither") 0) simple_started.

(** In the tied turn, player 0 has submitted and player 1 has not. *)
Definition simple_tied_waiting : SimpleGameObject :=
  run (playMove SimpleGame.rules (call "even") 0) simple_tied.

(** The tied turn resolved, player 0 first and player 1 first. *)
Definition simple_tied_01 : SimpleGameObject :=
  run (playMove SimpleGame.rules (call "odd") 1) simple_tied_waiting.

Definition simple_tied_10 : SimpleGameObject :=
  run (playMove SimpleGame.rules (call "even") 0)
      (run (playMove SimpleGame.rules (call "odd") 1) simple_tied).

(** [new SimpleGame({numPlayers: 2.5})] *)
Definition fractional : SimpleGame.SimpleOptions :=
  SimpleGame.mkOptions (5 # 2) None.

(** A scripted game whose first turn lists player 0 twice. *)
Definition twice_started : ScriptedGameObject :=
  scripted_started [[0; 0]; []].

Definition twice_resolved : ScriptedGameObject :=
  run (playMove ScriptedGame.rules 7 0) twice_started.

(** A scripted game that is over as soon as it starts. *)
Definition over_at_start : ScriptedGameObject := scripted_new [[]].

(** A scripted game whose first turn players 0 and 1 are to play; the
    turn resolved with player 0 first and with player 1 first. *)
Definition duo_started : ScriptedGameObject :=
  scripted_started [[0; 1]; []].

Definition duo_01 : ScriptedGameObject :=
  run (playMove ScriptedGame.rules 8 1)
      (run (playMove ScriptedGame.rules 7 0) duo_started).

Definition duo_10 : ScriptedGameObject :=
  run (playMove ScriptedGame.rules 7 0)
      (run (playMove ScriptedGame.rules 8 1) duo_started).

End Examples.

(** ** abstract_strategy_game.ts *)
Module AbstractStrategyGame.

(** [enum Status] *)
Inductive Status : Type := IN_PROGRESS | DRAW | P1_WIN | P2_WIN.

Section WithSubclass.
Context {O Raw M T : Type}.

(** The fields of an [AbstractStrategyGame<O, M>]: [moves], and the fields
    [T] of the subclass. An entry of [moves] is what [moves.get] returned,
    [undefined] (here [None]) when the map had no such key. *)
Record Fields : Type := mkFields {
  moves : list (option M);
  own : T
}.

(** The methods left abstract. Each reads [this.options] and the fields and
    may write the fields of the subclass; [moves] is written by
    [processTurn] alone. *)
Record Subclass : Type := mkSubclass {
  sanitizeOptions : O -> exn O Raw M + O;
  sanitizeMove : O -> Raw -> Fields -> T * (exn O Raw M + M);
  assertMoveIsLegal : O -> M -> Player -> Fields -> T * (exn O Raw M + unit);
  processMove : O -> option M -> Fields -> T;
  getStatus : O -> Fields -> T * Status;
  fields : O -> T
}.

Context (C : Subclass).

(** [this.moves.length % 2] *)
Definition turn (s : Fields) : Player := Z.of_nat (List.length (moves s) mod 2).

(** [protected initialize(seed)]: [{publicInfo: null, toPlay: [0]}]. *)
Definition initialize (o : O) (seed : string) (s : Fields)
  : Fields * Update (option M) unit :=
  (s, mkUpdate None [0] None None).

(** [protected numberOfPlayersForOptions(options)] *)
Definition numberOfPlayersForOptions (o : O) : Q := 2 # 1.

(** [protected processTurn(moves)] *)
Definition processTurn (o : O) (pending : JsMap.t M) (s : Fields)
  : Fields * Update (option M) unit :=
  let move := JsMap.get pending (turn s) in
  let s := mkFields (moves s) (processMove C o move s) in
  let s := mkFields (moves s ++ [move]) (own s) in
  let (t, status) := getStatus C o s in
  let s := mkFields (moves s) t in
  (s, mkUpdate move
               match status with
               | IN_PROGRESS => [turn s]
               | _ => []
               end
               None None).

(** [protected getWinners()] *)
Definition getWinners (o : O) (s : Fields) : Fields * list Player :=
  let (t, status) := getStatus C o s in
  (mkFields (moves s) t,
   match status with
   | P1_WIN => [0]
   | P2_WIN => [1]
   | _ => []
   end).

(** The class as an implementation of the abstract methods of [Game]:
    [Game<O, M, M, null>], the public information being a move or [null]. *)
Definition rules : Rules O Raw M (option M) unit Fields :=
  mkRules
    numberOfPlayersForOptions
    (sanitizeOptions C)
    (fun o move s =>
       let (t, r) := sanitizeMove C o move s in (mkFields (moves s) t, r))
    (fun o move player s =>
       let (t, r) := assertMoveIsLegal C o move player s in
       (mkFields (moves s) t, r))
    initialize
    processTurn
    getWinners
    (fun o => mkFields [] (fields C o)).

End WithSubclass.
Arguments Fields : clear implicits.
Arguments Subclass : clear implicits.
End AbstractStrategyGame.

(** ** test/tictactoe.ts *)
Module Tictactoe.
Import AbstractStrategyGame.

(** The two private fields: 9-bit patterns of the cells taken. *)
Record Boards : Type := mkBoards {
  xBoard : Z;
  yBoard : Z
}.

(** A move handed to [playMove] is any value; a move [sanitizeMove] returned
    is what [Math.floor] returned. *)
Local Abbreviation err := (exn unit Js.value Js.whole).
Local Abbreviation Fields := (Fields Js.whole Boards).

(** [private static readonly wins] *)
Definition wins : list Z :=
  [1 + 2 + 4; 8 + 16 + 32; 64 + 128 + 256; 1 + 8 + 64; 2 + 16 + 128;
   4 + 32 + 256; 1 + 16 + 256; 4 + 16 + 64].

(** [protected sanitizeOptions(options)]: always [null]. *)
Definition sanitizeOptions (options : unit) : err + unit := inr tt.

(** [protected sanitizeMove(move)]. [NaN] is a number, is not below 0 and
    is not 9 or more: it passes the three tests and comes back as [NaN]. *)
Definition sanitizeMove (move : Js.value) : err + Js.whole :=
  match move with
  | Js.NotNumber =>
      inl (new_InvalidMoveError (AnyRaw move)
             (AnyString "Move must be a number from 0 to 8"))
  | Js.Number n =>
      if Js.ltb n 0 || Js.geb n (9 # 1)
      then inl (new_InvalidMoveError (AnyRaw move)
                  (AnyString "Move must be a number from 0 to 8"))
      else inr (Js.floor n)
  end.

(** [Math.pow(2, move)] as an operand of [&] and [|]; for [undefined] it is
    [NaN], which the bit operators read as 0. *)
Definition boardWith (move : option Js.whole) : Z :=
  match move with
  | Some m => Js.pow2_int32 m
  | None => 0
  end.

(** [protected assertMoveIsLegal(move, player)] *)
Definition assertMoveIsLegal (move : Js.whole) (player : Player) (b : Boards)
  : err + unit :=
  let boardWithMove := boardWith (Some move) in
  if negb (Z.land (xBoard b) boardWithMove =? 0)
     || negb (Z.land (yBoard b) boardWithMove =? 0)
  then inl (new_IllegalMoveError (AnyMove move) (AnyNumber player)
              (AnyString "Position is already occupied"))
  else inr tt.

(** [protected processMove(move)] *)
Definition processMove (move : option Js.whole) (s : Fields) : Boards :=
  let boardWithMove := boardWith move in
  if (List.length (moves s) mod 2 =? 0)%nat
  then mkBoards (Z.lor (xBoard (own s)) boardWithMove) (yBoard (own s))
  else mkBoards (xBoard (own s)) (Z.lor (yBoard (own s)) boardWithMove).

(** The loop of [getStatus] over the patterns, with its two returns. *)
Fixpoint scan (patterns : list Z) (b : Boards) : option Status :=
  match patterns with
  | [] => None
  | win :: rest =>
      if Z.land win (xBoard b) =? win then Some P1_WIN
      else if Z.land win (yBoard b) =? win then Some P2_WIN
      else scan rest b
  end.

(** [protected getStatus()] *)
Definition getStatus (s : Fields) : Status :=
  match scan wins (own s) with
  | Some status => status
  | None => if (List.length (moves s) =? 9)%nat then DRAW else IN_PROGRESS
  end.

(** The class as a subclass of [AbstractStrategyGame<null, number>]. *)
Definition subclass : Subclass unit Js.value Js.whole Boards :=
  mkSubclass
    sanitizeOptions
    (fun _ move s => (own s, sanitizeMove move))
    (fun _ move player s => (own s, assertMoveIsLegal move player (own s)))
    (fun _ move s => processMove move s)
    (fun _ s => (own s, getStatus s))
    (fun _ => mkBoards 0 0).

Definition rules
  : Rules unit Js.value Js.whole (option Js.whole) unit Fields :=
  AbstractStrategyGame.rules subclass.

End Tictactoe.

(** ** More vocabulary *)
Module More.

Section ForEngine.
Context {O Raw M : Type}.

(** The number of calls, among the results of a sequence of [playMove]
    calls, that returned [true]. *)
Definition resolutions (rs : list (exn O Raw M + bool)) : nat :=
  List.length (filter (fun r => match r with
                                | inr true => true
                                | _ => false
                                end) rs).

End ForEngine.

(** A tic-tac-toe game, new and started, as in the tests. *)
Definition TictactoeObject : Type :=
  Game unit Js.value Js.whole (option Js.whole) unit
       (AbstractStrategyGame.Fields Js.whole Tictactoe.Boards).

Definition tictactoe_new : TictactoeObject :=
  mkGame [] [] tt (2 # 1)
         (AbstractStrategyGame.mkFields [] (Tictactoe.mkBoards 0 0)) [].

Definition tictactoe_started : TictactoeObject :=
  Examples.run (start Tictactoe.rules "") tictactoe_new.

(** A whole number as the argument of [playMove]. *)
Definition cell (c : Z) : Js.value := Js.Number (Js.Finite (inject_Z c)).

(** The full game of the test: cells 0 to 6, players 0 and 1 in turn. *)
Definition tictactoe_game : list (Js.value * Player) :=
  [(cell 0, 0); (cell 1, 1); (cell 2, 0); (cell 3, 1); (cell 4, 0);
   (cell 5, 1); (cell 6, 0)].

Definition tictactoe_played : TictactoeObject :=
  fst (playMoves Tictactoe.rules tictactoe_game tictactoe_started).

(** A game where both players pass [NaN] before cell 4 is taken: [NaN]
    is recorded each time and takes no cell. *)
Definition tictactoe_with_NaN : TictactoeObject :=
  fst (playMoves Tictactoe.rules
         [(Js.Number Js.NaN, 0); (Js.Number Js.NaN, 1); (cell 4, 0)]
         tictactoe_started).

(** *** For the strategy games *)

Section ForStrategyGames.
Context {O Raw M T : Type}.

(** What holds of an abstract strategy game between two calls: no move is
    pending; before [start] no move has been recorded; afterwards the public
    information of the history is [null] followed by the recorded moves,
    none of them [undefined], and either the player whose turn it is by the
    number of moves is the one to play, or nobody is and the update names at
    most one winner, player 0 or player 1. *)
Definition strategy_consistent
           (g : Game O Raw M (option M) unit (AbstractStrategyGame.Fields M T))
  : Prop :=
  let ms := AbstractStrategyGame.moves (self g) in
  pendingMoves g = [] /\
  match latest g with
  | None => ms = []
  | Some u =>
      map publicInfo (updates g) = None :: ms /\
      Forall (fun m => m <> None) ms /\
      privateInfo u = None /\
      ((toPlay u = [AbstractStrategyGame.turn (self g)] /\ winners u = None)
       \/
       (toPlay u = [] /\
        (winners u = Some [] \/ winners u = Some [0] \/ winners u = Some [1])))
  end.

End ForStrategyGames.

(** Whether a board pattern contains one of the winning patterns. *)
Definition has_line (board : Z) : bool :=
  existsb (fun win => Z.land win board =? win) Tictactoe.wins.

(** The winners a finished game of tic-tac-toe names, by the two boards. *)
Definition line_winners (b : Tictactoe.Boards) : list Player :=
  if has_line (Tictactoe.xBoard b) then [0]
  else if has_line (Tictactoe.yBoard b) then [1]
  else [].

(** The cells among the recorded moves. *)
Definition taken (ms : list Js.whole) : list Z :=
  flat_map (fun m => match m with
                     | Js.Whole c => [c]
                     | _ => []
                     end) ms.

(** What [sanitizeMove] lets through: a cell from 0 to 8, or [NaN]. *)
Definition cell_or_NaN (m : Js.whole) : Prop :=
  m = Js.NaNWhole \/ exists c, m = Js.Whole c /\ 0 <= c <= 8.

(** What holds of a game of tic-tac-toe between two calls: the recorded
    moves are at most nine, each a cell from 0 to 8 or [NaN], none before
    [start], when the boards are empty, and no cell is recorded twice; bit
    [k] of [xBoard] is set exactly when cell [k] was played at an even
    position, bit [k] of [yBoard] when it was played at an odd position;
    while somebody is to play no board holds a winning pattern and fewer
    than nine moves are recorded; once nobody is to play, a board holds a
    winning pattern or nine moves are recorded, the two boards do not both
    hold a winning pattern, and the update names the winner. *)
Definition tictactoe_consistent (g : TictactoeObject) : Prop :=
  let b := AbstractStrategyGame.own (self g) in
  exists ms : list Js.whole,
    AbstractStrategyGame.moves (self g) = map Some ms /\
    Forall cell_or_NaN ms /\
    NoDup (taken ms) /\
    (List.length ms <= 9)%nat /\
    (forall k, 0 <= k ->
       Z.testbit (Tictactoe.xBoard b) k = true <->
       exists i, Nat.even i = true /\ nth_error ms i = Some (Js.Whole k)) /\
    (forall k, 0 <= k ->
       Z.testbit (Tictactoe.yBoard b) k = true <->
       exists i, Nat.odd i = true /\ nth_error ms i = Some (Js.Whole k)) /\
    match latest g with
    | None => ms = [] /\ b = Tictactoe.mkBoards 0 0
    | Some u =>
        (toPlay u <> [] ->
         has_line (Tictactoe.xBoard b) = false /\
         has_line (Tictactoe.yBoard b) = false /\
         (List.length ms < 9)%nat) /\
        (toPlay u = [] ->
         (has_line (Tictactoe.xBoard b) = true \/
          has_line (Tictactoe.yBoard b) = true \/
          List.length ms = 9%nat) /\
         (has_line (Tictactoe.xBoard b) = false \/
          has_line (Tictactoe.yBoard b) = false) /\
         winners u = Some (line_winners b))
    end.

(** *** For the dice game *)

(** The generator after [k] calls of [getNextDiceRoll]. *)
Definition spin (k : nat) (gen : Z) : Z :=
  Nat.iter k (fun g => fst (SimpleGame.getNextDiceRoll g)) gen.

(** The sum of the private rolls of the given players. *)
Definition private_sum (priv : list Z) (high : list Player) : Z :=
  fold_right Z.add 0 (map (fun p => nth (Z.to_nat p) priv 0) high).

(** Whether a move guessed the parity of the turn. *)
Definition right_guess (parity : option SimpleGame.Parity)
           (m : SimpleGame.SimpleMove) : bool :=
  match parity with
  | Some p => SimpleGame.Parity_eqb (SimpleGame.guess m) p
  | None => false
  end.

(** What the callback of [forEach] adds, in all, to the points of the
    player of a move: one point less for a gamble, and 4 or 1 more for a
    right guess. *)
Definition gain (parity : option SimpleGame.Parity)
           (m : SimpleGame.SimpleMove) : Z :=
  (if SimpleGame.gamble m then -1 else 0)
  + (if right_guess parity m
     then (if SimpleGame.gamble m then 4 else 1)
     else 0).

(** The state of the loop of [rollAllDice] once the players below [k] have
    rolled, the arrays having had [len_private] and [len_public] entries
    before the loop. *)
Definition rolled (k len_private len_public : nat) (r : SimpleGame.Rolling)
  : Prop :=
  0 <= SimpleGame.r_gen r < 127 /\
  List.length (SimpleGame.r_private r) = Nat.max len_private k /\
  List.length (SimpleGame.r_public r) = Nat.max len_public k /\
  (forall i, (i < k)%nat -> 1 <= nth i (SimpleGame.r_private r) 0 <= 6) /\
  (forall i, (i < k)%nat -> 1 <= nth i (SimpleGame.r_public r) 0 <= 6) /\
  0 <= SimpleGame.r_highest r /\
  (forall i, (i < k)%nat ->
             nth i (SimpleGame.r_public r) 0 <= SimpleGame.r_highest r) /\
  SimpleGame.r_high r
  = map Z.of_nat
        (filter (fun i => nth i (SimpleGame.r_public r) 0
                          =? SimpleGame.r_highest r) (seq 0 k)) /\
  ((0 < k)%nat -> SimpleGame.r_high r <> []) /\
  (k = 0%nat -> SimpleGame.r_highest r = 0).

(** What holds of a dice game between two calls: the options are
    sanitized, every player has an entry of points, and either the game has
    not started and the fields are those of the constructor, or the latest
    update lists the high rollers and shows the rolls while nobody has
    reached [numPoints], or nobody is to play, the rolls are [null] and the
    update names the winners. *)
Definition dice_consistent (g : Examples.SimpleGameObject) : Prop :=
  let o := options g in
  let s := self g in
  exists n : nat,
    (1 <= n)%nat /\
    SimpleGame.numPlayers o = inject_Z (Z.of_nat n) /\
    (exists q, SimpleGame.numPoints o = Some q /\ (1 <= q)%Q) /\
    List.length (SimpleGame.points s) = n /\
    0 <= SimpleGame.rollGenerator s < 127 /\
    match latest g with
    | None => s = SimpleGame.fields o
    | Some u =>
        toPlay u = SimpleGame.highRollers s /\
        ((SimpleGame.highRollers s <> [] /\
          SimpleGame.getWinners o s = [] /\
          winners u = None /\
          exists pub priv,
            SimpleGame.publicRolls s = Some pub /\
            SimpleGame.privateRolls s = Some priv /\
            List.length pub = n /\ List.length priv = n /\
            Forall (fun p => 0 <= p < Z.of_nat n) (SimpleGame.highRollers s) /\
            SimpleGame.pu_publicRolls (publicInfo u) = Some pub /\
            privateInfo u = Some (map SimpleGame.mkPrivate priv))
         \/
         (SimpleGame.highRollers s = [] /\
          SimpleGame.getWinners o s <> [] /\
          winners u = Some (SimpleGame.getWinners o s) /\
          SimpleGame.pu_publicRolls (publicInfo u) = None /\
          privateInfo u = None))
    end.

(** A sanitized move handed back as an argument of [playMove]. *)
Definition as_raw (m : SimpleGame.SimpleMove) : SimpleGame.RawMove :=
  SimpleGame.mkRaw
    match SimpleGame.guess m with
    | SimpleGame.even => "even"
    | SimpleGame.odd => "odd"
    end
    (SimpleGame.gamble m).

End More.

(** * Theorems *)

(** ** The containers *)
Module JsFacts.

Lemma set_has_iff (s : JsSet.t) (p : Player) :
  JsSet.has s p = true <-> In p s.
Proof.
  unfold JsSet.has. rewrite existsb_exists. split.
  - intros [x [Hin Heq]]. apply Z.eqb_eq in Heq. now subst.
  - intros Hin. exists p. split; [assumption | apply Z.eqb_refl].
Qed.

Lemma set_has_false_iff (s : JsSet.t) (p : Player) :
  JsSet.has s p = false <-> ~ In p s.
Proof.
  rewrite <- set_has_iff. destruct (JsSet.has s p); split; congruence.
Qed.

Lemma set_add_in (s : JsSet.t) (p q : Player) :
  In q (JsSet.add s p) <-> In q s \/ q = p.
Proof.
  unfold JsSet.add. destruct (JsSet.has s p) eqn:Hhas.
  - apply set_has_iff in Hhas. split; [now left | intros [H | ->]; assumption].
  - rewrite in_app_iff. simpl. intuition.
Qed.

Lemma set_add_nodup (s : JsSet.t) (p : Player) :
  NoDup s -> NoDup (JsSet.add s p).
Proof.
  intros Hs. unfold JsSet.add. destruct (JsSet.has s p) eqn:Hhas; [assumption |].
  apply set_has_false_iff in Hhas.
  apply NoDup_app; [assumption | repeat constructor; intros [] | ].
  intros x Hx [<- | []]. contradiction.
Qed.

Lemma fold_add_in (a : list Player) (acc : JsSet.t) (q : Player) :
  In q (fold_left JsSet.add a acc) <-> In q acc \/ In q a.
Proof.
  revert acc. induction a as [| p a IH]; intros acc; simpl.
  - intuition.
  - rewrite IH, set_add_in. intuition.
Qed.

Lemma fold_add_nodup (a : list Player) (acc : JsSet.t) :
  NoDup acc -> NoDup (fold_left JsSet.add a acc).
Proof.
  revert acc. induction a as [| p a IH]; intros acc Hacc; simpl.
  - assumption.
  - apply IH, set_add_nodup, Hacc.
Qed.

Lemma of_array_in (a : list Player) (q : Player) :
  In q (JsSet.of_array a) <-> In q a.
Proof.
  unfold JsSet.of_array. rewrite fold_add_in. simpl. intuition.
Qed.

Lemma of_array_nodup (a : list Player) : NoDup (JsSet.of_array a).
Proof. apply fold_add_nodup. constructor. Qed.

Lemma of_array_empty_iff (a : list Player) :
  JsSet.size (JsSet.of_array a) = 0 <-> a = [].
Proof.
  unfold JsSet.size. split.
  - intros Hsize. destruct a as [| p a]; [reflexivity | exfalso].
    assert (Hin : In p (JsSet.of_array (p :: a))) by (apply of_array_in; now left).
    destruct (JsSet.of_array (p :: a)); [contradiction | simpl in Hsize; lia].
  - intros ->. reflexivity.
Qed.

Section MapFacts.
Context {V : Type}.

Lemma map_has_iff (m : JsMap.t V) (p : Player) :
  JsMap.has m p = true <-> In p (JsMap.keys m).
Proof. apply set_has_iff. Qed.

Lemma map_has_false_iff (m : JsMap.t V) (p : Player) :
  JsMap.has m p = false <-> ~ In p (JsMap.keys m).
Proof. apply set_has_false_iff. Qed.

Lemma map_set_fresh (m : JsMap.t V) (p : Player) (v : V) :
  ~ In p (JsMap.keys m) -> JsMap.set m p v = m ++ [(p, v)].
Proof.
  intros Hfresh. apply map_has_false_iff in Hfresh.
  unfold JsMap.set. now rewrite Hfresh.
Qed.

Lemma keys_snoc (m : JsMap.t V) (p : Player) (v : V) :
  JsMap.keys (m ++ [(p, v)]) = JsMap.keys m ++ [p].
Proof. unfold JsMap.keys. now rewrite map_app. Qed.


End MapFacts.

(** Two duplicate-free lists, one inside the other: they have the same
    length exactly when they hold the same players. *)
Lemma same_length_same_players (k s : list Player) :
  NoDup k -> NoDup s -> incl k s ->
  (List.length s = List.length k <-> forall q, In q k <-> In q s).
Proof.
  intros Hk Hs Hincl. split.
  - intros Hlen q. split; [apply Hincl |].
    apply (NoDup_length_incl Hk); [lia | assumption].
  - intros Hsame. apply Nat.le_antisymm.
    + apply NoDup_incl_length; [assumption | intros q Hq; now apply Hsame].
    + apply NoDup_incl_length; assumption.
Qed.

End JsFacts.

(** ** The engine, method by method *)
Section EngineFacts.
Context {O Raw M PU PR S : Type}.
Context (R : Rules O Raw M PU PR S).

Local Abbreviation Update := (Update PU PR).
Local Abbreviation Game := (Game O Raw M PU PR S).
Local Abbreviation Call := (Call O Raw M PU PR).
Local Abbreviation err := (exn O Raw M).

Implicit Types (g : Game) (u : Update) (player : Player) (move : Raw).

Lemma latest_snoc g (us : list Update) u :
  updates g = us ++ [u] -> latest g = Some u.
Proof.
  intros Hus. unfold latest. rewrite Hus.
  destruct us as [| first rest]; simpl; [reflexivity |].
  now rewrite last_last.
Qed.

Lemma latest_empty g : updates g = [] -> latest g = None.
Proof. intros Hus. unfold latest. now rewrite Hus. Qed.

Lemma latest_started g : updates g <> [] -> exists u, latest g = Some u.
Proof.
  intros Hne. destruct (exists_last Hne) as [us [u Hus]].
  exists u. eapply latest_snoc, Hus.
Qed.

Lemma started_dec g : {updates g = []} + {updates g <> []}.
Proof. destruct (updates g); [now left | now right]. Qed.

Lemma players_empty g : updates g = [] -> players g = [].
Proof. intros Hus. unfold players. now rewrite latest_empty. Qed.

Lemma getLatestUpdate_started g u :
  latest g = Some u -> getLatestUpdate g = (g, inr u).
Proof.
  unfold latest, getLatestUpdate, bind, this, ret, throw.
  destruct (updates g); [discriminate |].
  now intros [= ->].
Qed.

Lemma getLatestUpdate_unstarted g :
  updates g = [] ->
  getLatestUpdate g = (g, inl (new_Error "Game hasn't started yet")).
Proof.
  intros Hus. unfold getLatestUpdate, bind, this, ret, throw.
  now rewrite Hus.
Qed.

Lemma length_eqb_started g :
  updates g <> [] -> (List.length (updates g) =? 0)%nat = false.
Proof.
  intros Hne. apply Nat.eqb_neq. intros Hlen.
  now apply length_zero_iff_nil in Hlen.
Qed.

Lemma getPlayersToPlay_eq g :
  getPlayersToPlay g = (g, inr (JsSet.of_array (players g))).
Proof.
  unfold getPlayersToPlay, bind at 1, this.
  destruct (updates g) as [| u0 us] eqn:Hus.
  - simpl. rewrite players_empty by assumption. reflexivity.
  - assert (Hne : updates g <> []) by (rewrite Hus; discriminate).
    rewrite <- Hus, (length_eqb_started g Hne).
    change (negb false) with true. cbv beta iota.
    destruct (latest_started g Hne) as [u Hu].
    unfold bind. rewrite (getLatestUpdate_started g u Hu).
    unfold players, ret. now rewrite Hu.
Qed.

Lemma bind_getPlayersToPlay {A} (k : JsSet.t -> Eff A) g :
  bind getPlayersToPlay k g = k (JsSet.of_array (players g)) g.
Proof. unfold bind. now rewrite getPlayersToPlay_eq. Qed.

Lemma attach_winners_eq u g :
  attach_winners R u g =
  (mkGame (pendingMoves g) (updates g) (options g) (numberOfPlayers g)
          (fst (with_winners R (options g) (self g) u))
          (calls g ++ winner_call R (options g) (self g) u),
   inr (snd (with_winners R (options g) (self g) u))).
Proof.
  unfold attach_winners, with_winners, winner_call.
  destruct (List.length (toPlay u) =? 0)%nat.
  - unfold bind, call_getWinners, ret, log.
    destruct (getWinners R (options g) (self g)) as [s w]. reflexivity.
  - unfold ret. rewrite app_nil_r. now destruct g.
Qed.

(** *** [start] *)

Lemma start_started seed g :
  updates g <> [] ->
  start R seed g = (g, inl (new_Error "A game can only be started once")).
Proof.
  intros Hne. unfold start, bind, this, throw.
  destruct (updates g); [contradiction | reflexivity].
Qed.

Lemma start_unstarted seed g :
  updates g = [] ->
  start R seed g =
  (let (s1, u) := initialize R (options g) seed (self g) in
   mkGame (pendingMoves g) [snd (with_winners R (options g) s1 u)]
          (options g) (numberOfPlayers g)
          (fst (with_winners R (options g) s1 u))
          (calls g ++ CallInitialize seed u :: winner_call R (options g) s1 u),
   inr tt).
Proof.
  intros Hus. unfold start, bind at 1, this. rewrite Hus.
  change (0 <? List.length (@nil Update))%nat with false. cbv iota.
  unfold bind at 1, call_initialize.
  destruct (initialize R (options g) seed (self g)) as [s1 u].
  unfold bind. rewrite attach_winners_eq. simpl.
  unfold push_update, write. simpl. rewrite Hus, <- app_assoc. reflexivity.
Qed.

(** *** [playMove]: the four eligibility checks *)

Lemma playMove_unstarted move player g :
  updates g = [] ->
  playMove R move player g =
  (g, inl (out_of_turn player "The game hasn't started yet")).
Proof.
  intros Hus. unfold playMove, bind, this, throw. now rewrite Hus.
Qed.

Lemma playMove_started move player g :
  updates g <> [] ->
  playMove R move player g =
  if JsSet.size (JsSet.of_array (players g)) =? 0
  then (g, inl (out_of_turn player "The game is already over"))
  else if negb (JsSet.has (JsSet.of_array (players g)) player)
  then (g, inl (out_of_turn player "No legal moves this turn for this player"))
  else if JsMap.has (pendingMoves g) player
  then (g, inl (out_of_turn player "Player has already played this turn"))
  else
    let (s1, r1) := sanitizeMove R (options g) move (self g) in
    match r1 with
    | inl e => (log (CallSanitizeMove move r1) s1 g, inl e)
    | inr sm =>
        let (s2, r2) := assertMoveIsLegal R (options g) sm player s1 in
        let cs := [CallSanitizeMove move r1; CallAssertMoveIsLegal sm player r2] in
        match r2 with
        | inl e =>
            (mkGame (pendingMoves g) (updates g) (options g) (numberOfPlayers g)
                    s2 (calls g ++ cs), inl e)
        | inr _ =>
            let pending := JsMap.set (pendingMoves g) player sm in
            if JsSet.size (JsSet.of_array (players g)) =? JsMap.size pending
            then
              let (s3, u) := processTurn R (options g) pending s2 in
              (mkGame [] (updates g ++ [snd (with_winners R (options g) s3 u)])
                      (options g) (numberOfPlayers g)
                      (fst (with_winners R (options g) s3 u))
                      (calls g ++ cs ++ CallProcessTurn pending u
                                       :: winner_call R (options g) s3 u),
               inr true)
            else
              (mkGame pending (updates g) (options g) (numberOfPlayers g)
                      s2 (calls g ++ cs), inr false)
        end
    end.
Proof.
  intros Hne. unfold playMove. unfold bind at 1, this at 1.
  rewrite (length_eqb_started g Hne). rewrite bind_getPlayersToPlay.
  unfold bind at 1, this at 1.
  destruct (JsSet.size (JsSet.of_array (players g)) =? 0); [reflexivity |].
  destruct (negb (JsSet.has (JsSet.of_array (players g)) player)); [reflexivity |].
  destruct (JsMap.has (pendingMoves g) player); [reflexivity |].
  unfold bind at 1, call_sanitizeMove.
  destruct (sanitizeMove R (options g) move (self g)) as [s1 [e1 | sm]];
    [reflexivity |].
  unfold bind at 1, call_assertMoveIsLegal. simpl.
  destruct (assertMoveIsLegal R (options g) sm player s1) as [s2 [e2 | []]].
  - unfold log. simpl. rewrite <- app_assoc. reflexivity.
  - unfold bind at 1, this at 1. unfold bind at 1, assign_pendingMoves, write.
    rewrite bind_getPlayersToPlay. unfold bind at 1, this at 1. simpl.
    unfold players at 1, latest. simpl. fold (latest g). fold (players g).
    destruct (JsSet.size (JsSet.of_array (players g))
              =? JsMap.size (JsMap.set (pendingMoves g) player sm)).
    + unfold bind at 1, call_processTurn. simpl.
      destruct (processTurn R (options g) _ s2) as [s3 u].
      unfold bind at 1. rewrite attach_winners_eq. simpl.
      unfold bind, push_update, assign_pendingMoves, write, ret. simpl.
      rewrite <- !app_assoc. reflexivity.
    + unfold ret. rewrite <- app_assoc. reflexivity.
Qed.

(** *** The invariant of the pending buffer *)

Lemma wf_same_buffer g g' :
  pendingMoves g' = pendingMoves g -> updates g' = updates g -> wf g -> wf g'.
Proof.
  intros Hp Hu [Hnodup Hsub Hwait].
  assert (Hplayers : players g' = players g)
    by (unfold players, latest; now rewrite Hu).
  constructor; unfold submitted in *; rewrite ?Hp, ?Hplayers; assumption.
Qed.

Lemma wf_empty_buffer g : pendingMoves g = [] -> wf g.
Proof.
  intros Hp. constructor; unfold submitted; rewrite ?Hp; simpl.
  - constructor.
  - intros q [].
  - now left.
Qed.

Lemma wf_unstarted g : wf g -> updates g = [] -> pendingMoves g = [].
Proof.
  intros [_ Hsub _] Hus. unfold submitted in Hsub.
  rewrite (players_empty g Hus) in Hsub.
  destruct (pendingMoves g) as [| [k v] m]; [reflexivity |].
  destruct (Hsub k). now left.
Qed.

Lemma buffer_fits g player (sm : M) :
  wf g -> In player (players g) -> ~ In player (submitted g) ->
  NoDup (JsMap.keys (pendingMoves g ++ [(player, sm)])) /\
  incl (JsMap.keys (pendingMoves g ++ [(player, sm)])) (JsSet.of_array (players g)).
Proof.
  intros [Hnodup Hsub _] Hin Hfresh. rewrite JsFacts.keys_snoc. split.
  - apply NoDup_app; [assumption | repeat constructor; intros [] |].
    intros x Hx [<- | []]. contradiction.
  - intros q Hq. apply JsFacts.of_array_in. apply in_app_iff in Hq.
    destruct Hq as [Hq | [<- | []]]; [now apply Hsub | assumption].
Qed.

(** The test [getPlayersToPlay().size == pendingMoves.size] succeeds exactly
    when the submitters are the players to play. *)
Lemma resolution_test g player (sm : M) :
  wf g -> In player (players g) -> ~ In player (submitted g) ->
  (JsSet.size (JsSet.of_array (players g))
   =? JsMap.size (pendingMoves g ++ [(player, sm)])) = true <->
  same_players (JsMap.keys (pendingMoves g ++ [(player, sm)])) (players g).
Proof.
  intros Hwf Hin Hfresh.
  destruct (buffer_fits g player sm Hwf Hin Hfresh) as [Hnodup Hincl].
  rewrite Z.eqb_eq. unfold JsSet.size, JsMap.size. rewrite Nat2Z.inj_iff.
  replace (List.length (pendingMoves g ++ [(player, sm)]))
    with (List.length (JsMap.keys (pendingMoves g ++ [(player, sm)])))
    by apply length_map.
  rewrite (JsFacts.same_length_same_players _ _ Hnodup
             (JsFacts.of_array_nodup (players g)) Hincl).
  unfold same_players. split; intros Hsame q.
  - rewrite Hsame. apply JsFacts.of_array_in.
  - rewrite Hsame. symmetry. apply JsFacts.of_array_in.
Qed.

Lemma wf_start seed g : wf g -> wf (fst (start R seed g)).
Proof.
  intros Hwf. destruct (updates g) as [| u0 us] eqn:Hus.
  - rewrite (start_unstarted seed g Hus).
    destruct (initialize R (options g) seed (self g)) as [s1 u]. simpl.
    apply wf_empty_buffer. simpl. now apply wf_unstarted.
  - rewrite start_started by (rewrite Hus; discriminate). assumption.
Qed.

Lemma wf_playMove move player g : wf g -> wf (fst (playMove R move player g)).
Proof.
  intros Hwf. destruct (updates g) as [| u0 us] eqn:Hus.
  { rewrite (playMove_unstarted move player g Hus). assumption. }
  rewrite playMove_started by (rewrite Hus; discriminate).
  destruct (JsSet.size (JsSet.of_array (players g)) =? 0); [assumption |].
  destruct (JsSet.has (JsSet.of_array (players g)) player) eqn:Hin;
    [simpl negb; cbv iota | assumption].
  destruct (JsMap.has (pendingMoves g) player) eqn:Hfresh; [assumption |].
  apply JsFacts.set_has_iff in Hin. apply -> JsFacts.of_array_in in Hin.
  apply JsFacts.map_has_false_iff in Hfresh.
  destruct (sanitizeMove R (options g) move (self g)) as [s1 [e1 | sm]].
  { simpl. now apply (wf_same_buffer g). }
  destruct (assertMoveIsLegal R (options g) sm player s1) as [s2 [e2 | []]].
  { simpl. now apply (wf_same_buffer g). }
  cbv zeta. rewrite (JsFacts.map_set_fresh _ _ sm Hfresh).
  destruct (JsSet.size (JsSet.of_array (players g))
            =? JsMap.size (pendingMoves g ++ [(player, sm)])) eqn:Htest.
  - destruct (processTurn R (options g) _ s2) as [s3 u]. simpl.
    now apply wf_empty_buffer.
  - simpl. destruct (buffer_fits g player sm Hwf Hin Hfresh) as [Hnodup Hincl].
    constructor; unfold submitted, players, latest; simpl;
      fold (latest g); fold (players g).
    + assumption.
    + intros q Hq. apply JsFacts.of_array_in. now apply Hincl.
    + right. apply Z.eqb_neq in Htest. unfold JsSet.size, JsMap.size in Htest.
      pose proof (NoDup_incl_length Hnodup Hincl) as Hle.
      unfold JsMap.keys in Hle. rewrite length_map in Hle. lia.
Qed.

Lemma reachable_wf g : reachable R g -> wf g.
Proof.
  induction 1 as [o g Hnew | seed g _ IH | move player g _ IH].
  - unfold construct in Hnew. destruct (sanitizeOptions R o); [discriminate |].
    injection Hnew as <-. now apply wf_empty_buffer.
  - now apply wf_start.
  - now apply wf_playMove.
Qed.

(** *** Reading the call log *)

Lemma turns_app (cs cs' : list Call) : turns (cs ++ cs') = turns cs ++ turns cs'.
Proof. apply flat_map_app. Qed.

Lemma turns_winner_call (o : O) (s : S) u : turns (winner_call R o s u) = [].
Proof. unfold winner_call. now destruct (List.length (toPlay u) =? 0)%nat. Qed.

Lemma turns_resolution (cs : list Call) (c1 c2 : Call) (pending : JsMap.t M)
      u (o : O) (s : S) :
  turns [c1; c2] = [] ->
  turns (cs ++ c1 :: c2 :: CallProcessTurn pending u :: winner_call R o s u)
  = turns cs ++ [(pending, u)].
Proof.
  intros Hskip.
  change (c1 :: c2 :: CallProcessTurn pending u :: winner_call R o s u)
    with ([c1; c2] ++ [CallProcessTurn pending u] ++ winner_call R o s u).
  rewrite !turns_app, Hskip, turns_winner_call. reflexivity.
Qed.

Lemma produced_app (cs cs' : list Call) :
  produced (cs ++ cs') = produced cs ++ produced cs'.
Proof. apply flat_map_app. Qed.

Lemma produced_winner_call (o : O) (s : S) u :
  produced (winner_call R o s u) = [].
Proof. unfold winner_call. now destruct (List.length (toPlay u) =? 0)%nat. Qed.

Lemma winner_queries_app (cs cs' : list Call) :
  winner_queries (cs ++ cs') = winner_queries cs ++ winner_queries cs'.
Proof. apply flat_map_app. Qed.

(** *** The claims about [playMove] *)

(** What a [playMove] call that returns has done. *)
Lemma playMove_accepted g move player g' (b : bool) :
  wf g ->
  playMove R move player g = (g', inr b) ->
  updates g <> [] /\ In player (players g) /\ ~ In player (submitted g) /\
  exists (sm : M) (s1 s2 : S),
    sanitizeMove R (options g) move (self g) = (s1, inr sm) /\
    assertMoveIsLegal R (options g) sm player s1 = (s2, inr tt) /\
    let pending := pendingMoves g ++ [(player, sm)] in
    let cs := [CallSanitizeMove move (inr sm);
               CallAssertMoveIsLegal sm player (inr tt)] in
    (b = true /\ same_players (JsMap.keys pending) (players g) /\
     exists (s3 : S) u,
       processTurn R (options g) pending s2 = (s3, u) /\
       g' = mkGame [] (updates g ++ [snd (with_winners R (options g) s3 u)])
                   (options g) (numberOfPlayers g)
                   (fst (with_winners R (options g) s3 u))
                   (calls g ++ cs ++ CallProcessTurn pending u
                                    :: winner_call R (options g) s3 u))
    \/
    (b = false /\ ~ same_players (JsMap.keys pending) (players g) /\
     g' = mkGame pending (updates g) (options g) (numberOfPlayers g) s2
                 (calls g ++ cs)).
Proof.
  intros Hwf Hcall.
  destruct (started_dec g) as [Hus | Hstarted].
  { rewrite (playMove_unstarted move player g Hus) in Hcall. discriminate. }
  rewrite (playMove_started move player g Hstarted) in Hcall.
  destruct (JsSet.size (JsSet.of_array (players g)) =? 0); [discriminate |].
  destruct (JsSet.has (JsSet.of_array (players g)) player) eqn:Hin;
    simpl negb in Hcall; cbv iota in Hcall; [| discriminate].
  destruct (JsMap.has (pendingMoves g) player) eqn:Hfresh; [discriminate |].
  apply JsFacts.set_has_iff in Hin. apply -> JsFacts.of_array_in in Hin.
  apply JsFacts.map_has_false_iff in Hfresh.
  split; [assumption |]. split; [assumption |]. split; [assumption |].
  destruct (sanitizeMove R (options g) move (self g)) as [s1 [e1 | sm]] eqn:Hs;
    [discriminate |].
  destruct (assertMoveIsLegal R (options g) sm player s1) as [s2 [e2 | []]] eqn:Hl;
    [discriminate |].
  cbv zeta in Hcall. rewrite (JsFacts.map_set_fresh _ _ sm Hfresh) in Hcall.
  pose proof (resolution_test g player sm Hwf Hin Hfresh) as Htest.
  exists sm, s1, s2. split; [reflexivity |]. split; [exact Hl |]. cbv zeta.
  destruct (JsSet.size (JsSet.of_array (players g))
            =? JsMap.size (pendingMoves g ++ [(player, sm)])).
  - destruct (processTurn R (options g) _ s2) as [s3 u] eqn:Hp.
    injection Hcall as <- <-. left. split; [reflexivity |].
    split; [now apply Htest |]. exists s3, u. now split.
  - injection Hcall as <- <-. right. split; [reflexivity |].
    split; [| reflexivity]. intros Hsame. apply Htest in Hsame. discriminate.
Qed.


Lemma playMove_over move player g :
  updates g <> [] -> players g = [] ->
  playMove R move player g = (g, inl (out_of_turn player "The game is already over")).
Proof.
  intros Hstarted Hover. rewrite (playMove_started move player g Hstarted).
  now rewrite Hover.
Qed.

Lemma playMove_not_to_play move player g :
  updates g <> [] -> players g <> [] -> ~ In player (players g) ->
  playMove R move player g =
  (g, inl (out_of_turn player "No legal moves this turn for this player")).
Proof.
  intros Hstarted Hsome Hout. rewrite (playMove_started move player g Hstarted).
  destruct (JsSet.size (JsSet.of_array (players g)) =? 0) eqn:Hsize.
  - apply Z.eqb_eq, JsFacts.of_array_empty_iff in Hsize. contradiction.
  - replace (JsSet.has (JsSet.of_array (players g)) player) with false;
      [reflexivity |].
    symmetry. apply JsFacts.set_has_false_iff. now rewrite JsFacts.of_array_in.
Qed.

Lemma playMove_already_played move player g :
  updates g <> [] -> In player (players g) -> In player (submitted g) ->
  playMove R move player g =
  (g, inl (out_of_turn player "Player has already played this turn")).
Proof.
  intros Hstarted Hin Hdone. rewrite (playMove_started move player g Hstarted).
  destruct (JsSet.size (JsSet.of_array (players g)) =? 0) eqn:Hsize.
  - apply Z.eqb_eq, JsFacts.of_array_empty_iff in Hsize.
    rewrite Hsize in Hin. destruct Hin.
  - replace (JsSet.has (JsSet.of_array (players g)) player) with true
      by (symmetry; apply JsFacts.set_has_iff; now rewrite JsFacts.of_array_in).
    replace (JsMap.has (pendingMoves g) player) with true
      by (symmetry; now apply JsFacts.map_has_iff).
    reflexivity.
Qed.

Lemma playMoves_over (ms : list (Raw * Player)) g :
  updates g <> [] -> players g = [] ->
  fst (playMoves R ms g) = g /\
  Forall (fun r => exists e : err, r = inl e /\ cls e = OutOfTurnError)
         (snd (playMoves R ms g)).
Proof.
  intros Hstarted Hover. induction ms as [| [move player] ms [IHg IHr]]; simpl.
  - split; [reflexivity | constructor].
  - rewrite (playMove_over move player g Hstarted Hover).
    destruct (playMoves R ms g) as [g2 rs]. simpl in *. split; [assumption |].
    constructor; [| assumption]. eexists. split; reflexivity.
Qed.

(** C2. The four eligibility checks of [playMove], in their order. Each one
    throws an OutOfTurnError and leaves the object as it was, call log
    included, so neither [sanitizeMove] nor [assertMoveIsLegal] has run: the
    game has not started; else [toPlay] is empty, and then every later
    [playMove] fails in the same way and the object never changes again; else
    the player is not in [toPlay], which rejects every identifier outside
    [0, numberOfPlayers) when [toPlay] holds players only; else the player
    has a move in the buffer. *)
Theorem playMove_eligibility_checks :
  forall g move player,
    (forall reason, cls (out_of_turn player reason : err) = OutOfTurnError) /\
    (updates g = [] ->
     playMove R move player g =
     (g, inl (out_of_turn player "The game hasn't started yet"))) /\
    (updates g <> [] -> players g = [] ->
     playMove R move player g =
     (g, inl (out_of_turn player "The game is already over"))) /\
    (updates g <> [] -> players g = [] ->
     forall ms : list (Raw * Player),
       fst (playMoves R ms g) = g /\
       Forall (fun r => exists e : err, r = inl e /\ cls e = OutOfTurnError)
              (snd (playMoves R ms g))) /\
    (updates g <> [] -> players g <> [] -> ~ In player (players g) ->
     playMove R move player g =
     (g, inl (out_of_turn player "No legal moves this turn for this player"))) /\
    (updates g <> [] -> players g <> [] ->
     (forall q, In q (players g) ->
                0 <= q /\ (inject_Z q < numberOfPlayers g)%Q) ->
     player < 0 \/ (numberOfPlayers g <= inject_Z player)%Q ->
     playMove R move player g =
     (g, inl (out_of_turn player "No legal moves this turn for this player"))) /\
    (updates g <> [] -> In player (players g) -> In player (submitted g) ->
     playMove R move player g =
     (g, inl (out_of_turn player "Player has already played this turn"))).
Proof.
  intros g move player. repeat split.
  - apply playMove_unstarted.
  - apply playMove_over.
  - now apply playMoves_over.
  - now apply playMoves_over.
  - apply playMove_not_to_play.
  - intros Hstarted Hsome Hrange Hout. apply playMove_not_to_play; try assumption.
    intros Hin. destruct (Hrange player Hin) as [Hlo Hhi].
    destruct Hout as [Hneg | Hbig]; [lia |].
    exact (Qlt_irrefl _ (Qlt_le_trans _ _ _ Hhi Hbig)).
  - apply playMove_already_played.
Qed.

(** C3. A [playMove] call that throws, whatever it throws, leaves the
    pending buffer and the history as they were; and if the player was
    eligible (the throw came from [sanitizeMove] or [assertMoveIsLegal]), a
    later submission of the same player that is well formed and legal is
    accepted as usual. *)
Theorem failing_playMove_keeps_buffer_and_history :
  forall g move player g' (e : err),
    playMove R move player g = (g', inl e) ->
    pendingMoves g' = pendingMoves g /\
    updates g' = updates g /\
    (updates g <> [] -> In player (players g) -> ~ In player (submitted g) ->
     forall move2 (sm : M) (s1 s2 : S),
       sanitizeMove R (options g') move2 (self g') = (s1, inr sm) ->
       assertMoveIsLegal R (options g') sm player s1 = (s2, inr tt) ->
       exists g'' (b : bool),
         playMove R move2 player g' = (g'', inr b) /\
         (b = false ->
          pendingMoves g'' = pendingMoves g ++ [(player, sm)] /\
          updates g'' = updates g) /\
         (b = true ->
          pendingMoves g'' = [] /\
          exists u, updates g'' = updates g ++ [u])).
Proof.
  intros g move player g' e Hcall.
  assert (Hsame : pendingMoves g' = pendingMoves g /\ updates g' = updates g).
  { destruct (updates g) as [| u0 us] eqn:Hus.
    { rewrite (playMove_unstarted move player g Hus) in Hcall.
      injection Hcall as <- _. now rewrite Hus. }
    rewrite <- Hus.
    rewrite playMove_started in Hcall by (rewrite Hus; discriminate).
    destruct (JsSet.size (JsSet.of_array (players g)) =? 0);
      [injection Hcall as <- _; now split |].
    destruct (negb (JsSet.has (JsSet.of_array (players g)) player));
      [injection Hcall as <- _; now split |].
    destruct (JsMap.has (pendingMoves g) player);
      [injection Hcall as <- _; now split |].
    destruct (sanitizeMove R (options g) move (self g)) as [s1 [e1 | sm]];
      [injection Hcall as <- _; now split |].
    destruct (assertMoveIsLegal R (options g) sm player s1) as [s2 [e2 | []]];
      [injection Hcall as <- _; now split |].
    cbv zeta in Hcall.
    destruct (JsSet.size (JsSet.of_array (players g)) =? JsMap.size _);
      [| discriminate].
    destruct (processTurn R (options g) _ s2). discriminate. }
  destruct Hsame as [Hp Hu]. split; [assumption |]. split; [assumption |].
  intros Hstarted Hin Hfresh move2 sm s1 s2 Hs Hl.
  assert (Hplayers : players g' = players g)
    by (unfold players, latest; now rewrite Hu).
  assert (Hstarted' : updates g' <> []) by now rewrite Hu.
  rewrite (playMove_started move2 player g' Hstarted').
  rewrite Hplayers, Hp, Hu, Hs, Hl.
  destruct (JsSet.size (JsSet.of_array (players g)) =? 0) eqn:Hsize.
  { apply Z.eqb_eq, JsFacts.of_array_empty_iff in Hsize.
    rewrite Hsize in Hin. destruct Hin. }
  replace (JsSet.has (JsSet.of_array (players g)) player) with true
    by (symmetry; apply JsFacts.set_has_iff; now rewrite JsFacts.of_array_in).
  replace (JsMap.has (pendingMoves g) player) with false
    by (symmetry; now apply JsFacts.map_has_false_iff).
  simpl negb. cbv iota zeta. rewrite (JsFacts.map_set_fresh _ _ sm Hfresh).
  destruct (JsSet.size (JsSet.of_array (players g)) =? JsMap.size _).
  - destruct (processTurn R (options g') _ s2) as [s3 u].
    eexists. exists true. split; [reflexivity |]. split; [discriminate |].
    intros _. simpl. split; [reflexivity |]. eexists. reflexivity.
  - eexists. exists false. split; [reflexivity |]. split; [| discriminate].
    intros _. simpl. now split.
Qed.

(** *** The lifecycle *)

(** C4, as the code has it. [start] on a started game throws (a plain
    [Error]) and leaves the object as it was; [getLatestUpdate] before
    [start] throws (a plain [Error]); [getAllUpdates] never throws and,
    before [start], returns the empty history. *)
Theorem lifecycle_of_start_and_accessors :
  forall g seed,
    (updates g <> [] ->
     start R seed g = (g, inl (new_Error "A game can only be started once"))) /\
    (updates g = [] ->
     getLatestUpdate g = (g, inl (new_Error "Game hasn't started yet"))) /\
    (updates g = [] -> getAllUpdates g = (g, inr [])) /\
    getAllUpdates g = (g, inr (updates g)).
Proof.
  intros g seed. repeat split.
  - apply start_started.
  - apply getLatestUpdate_unstarted.
  - intros Hus. unfold getAllUpdates, bind, this, ret. now rewrite Hus.
Qed.

(** *** The history *)

Lemma entry_of_with_winners (o : O) (s : S) u :
  entry_of (snd (with_winners R o s u)) u.
Proof.
  unfold with_winners, entry_of.
  destruct (toPlay u) as [| q l] eqn:Hq; simpl.
  - destruct (getWinners R o s) as [s' w]. simpl. split; [congruence |].
    intros _. now exists w.
  - split; [reflexivity | discriminate].
Qed.

Lemma start_extends seed g :
  exists l, updates (fst (start R seed g)) = updates g ++ l.
Proof.
  destruct (updates g) as [| u0 us] eqn:Hus.
  - rewrite (start_unstarted seed g Hus).
    destruct (initialize R (options g) seed (self g)) as [s1 u]. simpl.
    eexists. reflexivity.
  - rewrite start_started by (rewrite Hus; discriminate).
    exists []. now rewrite app_nil_r.
Qed.

Lemma playMove_extends move player g :
  exists l, updates (fst (playMove R move player g)) = updates g ++ l.
Proof.
  assert (Hsame : exists l, updates g = updates g ++ l)
    by (exists []; now rewrite app_nil_r).
  destruct (started_dec g) as [Hus | Hstarted].
  { rewrite (playMove_unstarted move player g Hus). exact Hsame. }
  rewrite (playMove_started move player g Hstarted).
  destruct (JsSet.size (JsSet.of_array (players g)) =? 0); [exact Hsame |].
  destruct (negb (JsSet.has (JsSet.of_array (players g)) player)); [exact Hsame |].
  destruct (JsMap.has (pendingMoves g) player); [exact Hsame |].
  destruct (sanitizeMove R (options g) move (self g)) as [s1 [e1 | sm]];
    [exact Hsame |].
  destruct (assertMoveIsLegal R (options g) sm player s1) as [s2 [e2 | []]];
    [exact Hsame |].
  cbv zeta.
  destruct (JsSet.size (JsSet.of_array (players g)) =? JsMap.size _);
    [| exact Hsame].
  destruct (processTurn R (options g) _ s2) as [s3 u]. simpl.
  eexists. reflexivity.
Qed.

Lemma mirrors_same_history g g' (cs : list Call) :
  updates g' = updates g -> calls g' = calls g ++ cs -> produced cs = [] ->
  mirrors g -> mirrors g'.
Proof.
  intros Hu Hc Hcs. unfold mirrors.
  now rewrite Hu, Hc, produced_app, Hcs, app_nil_r.
Qed.

Lemma mirrors_start seed g : mirrors g -> mirrors (fst (start R seed g)).
Proof.
  intros Hm. destruct (updates g) as [| u0 us] eqn:Hus.
  - rewrite (start_unstarted seed g Hus).
    destruct (initialize R (options g) seed (self g)) as [s1 u]. simpl.
    destruct Hm as [Hall _]. rewrite Hus in Hall.
    assert (Hnil : produced (calls g) = []) by now inversion Hall.
    unfold mirrors. simpl. rewrite produced_app, Hnil. simpl.
    rewrite produced_winner_call. split.
    + constructor; [apply entry_of_with_winners | constructor].
    + split; [intros [] | constructor].
  - rewrite start_started by (rewrite Hus; discriminate). assumption.
Qed.

Lemma mirrors_playMove move player g :
  mirrors g -> mirrors (fst (playMove R move player g)).
Proof.
  intros Hm. destruct (started_dec g) as [Hus | Hstarted].
  { rewrite (playMove_unstarted move player g Hus). assumption. }
  rewrite (playMove_started move player g Hstarted).
  destruct (JsSet.size (JsSet.of_array (players g)) =? 0); [assumption |].
  destruct (negb (JsSet.has (JsSet.of_array (players g)) player)); [assumption |].
  destruct (JsMap.has (pendingMoves g) player); [assumption |].
  destruct (sanitizeMove R (options g) move (self g)) as [s1 [e1 | sm]].
  { simpl. eapply (mirrors_same_history g); [| | | eassumption]; reflexivity. }
  destruct (assertMoveIsLegal R (options g) sm player s1) as [s2 [e2 | []]].
  { simpl. eapply (mirrors_same_history g); [| | | eassumption]; reflexivity. }
  cbv zeta.
  destruct (JsSet.size (JsSet.of_array (players g)) =? JsMap.size _).
  - destruct (processTurn R (options g) _ s2) as [s3 u]. simpl.
    destruct Hm as [Hall Hshape]. unfold mirrors. simpl.
    rewrite !produced_app. simpl. rewrite produced_winner_call. split.
    + apply Forall2_app; [assumption |].
      constructor; [apply entry_of_with_winners | constructor].
    + destruct (produced (calls g)) as [| first rest] eqn:Hprod.
      * exfalso. inversion Hall as [Hnil |]. symmetry in Hnil. contradiction.
      * simpl. destruct Hshape as [Hfirst Hrest]. split; [assumption |].
        apply Forall_app. split; [assumption |]. repeat constructor.
  - simpl. eapply (mirrors_same_history g); [| | | eassumption]; reflexivity.
Qed.

Lemma reachable_mirrors g : reachable R g -> mirrors g.
Proof.
  induction 1 as [o g Hnew | seed g _ IH | move player g _ IH].
  - unfold construct in Hnew. destruct (sanitizeOptions R o); [discriminate |].
    injection Hnew as <-. split; simpl; [constructor | exact I].
  - now apply mirrors_start.
  - now apply mirrors_playMove.
Qed.

(** C5. In every reachable state the history is, entry by entry and in call
    order, what the subclass produced: entry 0 is the update [initialize]
    returned, entry i > 0 the update the i-th [processTurn] returned (the
    engine having written [winners] into it when its [toPlay] was empty);
    [start] and [playMove] only ever append to it. *)
Theorem history_mirrors_the_produced_updates :
  forall g,
    reachable R g ->
    Forall2 (fun e su => entry_of e (snd su)) (updates g) (produced (calls g)) /\
    match produced (calls g) with
    | [] => True
    | first :: rest => ~ is_turn first /\ Forall is_turn rest
    end /\
    (forall seed, exists l, updates (fst (start R seed g)) = updates g ++ l) /\
    (forall move player,
       exists l, updates (fst (playMove R move player g)) = updates g ++ l).
Proof.
  intros g Hreach. destruct (reachable_mirrors g Hreach) as [Hall Hshape].
  split; [assumption |]. split; [assumption |]. split.
  - intros seed. apply start_extends.
  - intros move player. apply playMove_extends.
Qed.

(** *** Winners *)

Lemma with_winners_over (o : O) (s : S) u :
  toPlay u = [] ->
  snd (with_winners R o s u) = set_winners u (snd (getWinners R o s)) /\
  winner_call R o s u = [CallGetWinners (snd (getWinners R o s))].
Proof.
  intros Hover. unfold with_winners, winner_call. rewrite Hover. simpl.
  now destruct (getWinners R o s).
Qed.

Lemma with_winners_on (o : O) (s : S) u :
  toPlay u <> [] ->
  snd (with_winners R o s u) = u /\ winner_call R o s u = [].
Proof.
  intros Hon. unfold with_winners, winner_call.
  destruct (toPlay u); [contradiction | now split].
Qed.

(** C6. When the engine appends an update, in [start] or in a resolving
    [playMove], it calls [getWinners] and writes the result into the
    [winners] field exactly when the update's [toPlay] is empty; an update
    with players to play is appended as the subclass returned it and
    [getWinners] is not called. *)
Theorem winners_attached_exactly_when_toPlay_empty :
  forall g,
    reachable R g ->
    (forall seed (s1 : S) u,
       updates g = [] ->
       initialize R (options g) seed (self g) = (s1, u) ->
       exists g' e,
         start R seed g = (g', inr tt) /\
         updates g' = [e] /\
         (toPlay u = [] ->
          e = set_winners u (snd (getWinners R (options g) s1)) /\
          winner_queries (calls g') =
          winner_queries (calls g) ++ [snd (getWinners R (options g) s1)]) /\
         (toPlay u <> [] ->
          e = u /\ winner_queries (calls g') = winner_queries (calls g))) /\
    (forall move player g',
       playMove R move player g = (g', inr true) ->
       exists (sm : M) (s1 s2 s3 : S) u e,
         sanitizeMove R (options g) move (self g) = (s1, inr sm) /\
         assertMoveIsLegal R (options g) sm player s1 = (s2, inr tt) /\
         processTurn R (options g) (pendingMoves g ++ [(player, sm)]) s2
         = (s3, u) /\
         updates g' = updates g ++ [e] /\
         (toPlay u = [] ->
          e = set_winners u (snd (getWinners R (options g) s3)) /\
          winner_queries (calls g') =
          winner_queries (calls g) ++ [snd (getWinners R (options g) s3)]) /\
         (toPlay u <> [] ->
          e = u /\ winner_queries (calls g') = winner_queries (calls g))).
Proof.
  intros g Hreach. split.
  - intros seed s1 u Hus Hinit. rewrite (start_unstarted seed g Hus), Hinit.
    eexists. eexists. split; [reflexivity |]. simpl. split; [reflexivity |].
    split.
    + intros Hover. destruct (with_winners_over (options g) s1 u Hover) as [-> ->].
      split; [reflexivity |]. now rewrite winner_queries_app.
    + intros Hon. destruct (with_winners_on (options g) s1 u Hon) as [-> ->].
      split; [reflexivity |]. rewrite winner_queries_app. simpl.
      now rewrite app_nil_r.
  - intros move player g' Hcall.
    destruct (playMove_accepted g move player g' true (reachable_wf g Hreach) Hcall)
      as (_ & _ & _ & sm & s1 & s2 & Hs & Hl & Hcases).
    cbv zeta in Hcases.
    destruct Hcases as [(_ & _ & s3 & u & Hp & ->) | (Hb & _)]; [| discriminate].
    exists sm, s1, s2, s3, u.
    eexists. split; [exact Hs |]. split; [exact Hl |]. split; [exact Hp |].
    simpl. split; [reflexivity |]. rewrite !winner_queries_app. simpl. split.
    + intros Hover. destruct (with_winners_over (options g) s3 u Hover) as [-> ->].
      now split.
    + intros Hon. destruct (with_winners_on (options g) s3 u Hon) as [-> ->].
      split; [reflexivity |]. simpl. now rewrite app_nil_r.
Qed.

(** *** Players listed more than once, and the order of submissions *)

(** The equation of a submission that passes every check. *)
Lemma playMove_valid g move player (sm : M) (s1 s2 : S) :
  updates g <> [] -> In player (players g) -> ~ In player (submitted g) ->
  sanitizeMove R (options g) move (self g) = (s1, inr sm) ->
  assertMoveIsLegal R (options g) sm player s1 = (s2, inr tt) ->
  playMove R move player g =
  let pending := pendingMoves g ++ [(player, sm)] in
  let cs := [CallSanitizeMove move (inr sm);
             CallAssertMoveIsLegal sm player (inr tt)] in
  if (List.length (JsSet.of_array (players g)) =? List.length pending)%nat
  then
    let (s3, u) := processTurn R (options g) pending s2 in
    (mkGame [] (updates g ++ [snd (with_winners R (options g) s3 u)])
            (options g) (numberOfPlayers g)
            (fst (with_winners R (options g) s3 u))
            (calls g ++ cs ++ CallProcessTurn pending u
                             :: winner_call R (options g) s3 u),
     inr true)
  else
    (mkGame pending (updates g) (options g) (numberOfPlayers g) s2
            (calls g ++ cs), inr false).
Proof.
  intros Hstarted Hin Hfresh Hs Hl.
  rewrite (playMove_started move player g Hstarted), Hs, Hl.
  destruct (JsSet.size (JsSet.of_array (players g)) =? 0) eqn:Hsize.
  { apply Z.eqb_eq, JsFacts.of_array_empty_iff in Hsize.
    rewrite Hsize in Hin. destruct Hin. }
  replace (JsSet.has (JsSet.of_array (players g)) player) with true
    by (symmetry; apply JsFacts.set_has_iff; now rewrite JsFacts.of_array_in).
  replace (JsMap.has (pendingMoves g) player) with false
    by (symmetry; now apply JsFacts.map_has_false_iff).
  simpl negb. cbv iota zeta. rewrite (JsFacts.map_set_fresh _ _ sm Hfresh).
  unfold JsSet.size, JsMap.size.
  replace (Z.of_nat (List.length (JsSet.of_array (players g)))
           =? Z.of_nat (List.length (pendingMoves g ++ [(player, sm)])))
    with (List.length (JsSet.of_array (players g))
          =? List.length (pendingMoves g ++ [(player, sm)]))%nat;
    [reflexivity |].
  destruct (Nat.eqb_spec (List.length (JsSet.of_array (players g)))
                         (List.length (pendingMoves g ++ [(player, sm)])))
    as [Heq | Hne]; symmetry; [apply Z.eqb_eq | apply Z.eqb_neq]; lia.
Qed.

(** C10. [toPlay] is read as a set: [getPlayersToPlay] returns each player
    listed in it once. A player listed in [toPlay], however often, who has
    no move in the buffer may submit one: the call returns if the move
    passes [sanitizeMove] and [assertMoveIsLegal]. A move is accepted only
    from such a player, so each distinct player submits one move per turn:
    after an accepted move that does not resolve the turn, the move is in
    the buffer, the history is as it was, and a second move of the same
    player is refused. The turn resolves as soon as every player listed in
    [toPlay] has a move in the buffer: then [processTurn] is called once on
    the whole buffer, one update is appended and the buffer is emptied. With
    [toPlay] equal to [p, p], the move of [p] alone is the buffer handed to
    [processTurn], and the turn is resolved. *)
Theorem duplicate_players_count_once :
  forall g,
    reachable R g ->
    (exists ps : JsSet.t,
        getPlayersToPlay g = (g, inr ps) /\
        NoDup ps /\ forall q, In q ps <-> In q (players g)) /\
    (forall move player (sm : M) (s1 s2 : S),
        In player (players g) ->
        ~ In player (submitted g) ->
        sanitizeMove R (options g) move (self g) = (s1, inr sm) ->
        assertMoveIsLegal R (options g) sm player s1 = (s2, inr tt) ->
        exists g' (b : bool), playMove R move player g = (g', inr b)) /\
    (forall move player g' (b : bool),
        playMove R move player g = (g', inr b) ->
        In player (players g) /\ ~ In player (submitted g) /\
        exists (sm : M) (s1 s2 : S),
          sanitizeMove R (options g) move (self g) = (s1, inr sm) /\
          assertMoveIsLegal R (options g) sm player s1 = (s2, inr tt) /\
          (b = false ->
           pendingMoves g' = pendingMoves g ++ [(player, sm)] /\
           updates g' = updates g /\
           turns (calls g') = turns (calls g) /\
           forall move2,
             playMove R move2 player g' =
             (g', inl (out_of_turn player
                         "Player has already played this turn"))) /\
          (b = true <->
           forall q, In q (players g) -> q = player \/ In q (submitted g)) /\
          (b = true ->
           exists (s3 : S) u,
             processTurn R (options g) (pendingMoves g ++ [(player, sm)]) s2
             = (s3, u) /\
             turns (calls g')
             = turns (calls g) ++ [(pendingMoves g ++ [(player, sm)], u)] /\
             updates g'
             = updates g ++ [snd (with_winners R (options g) s3 u)] /\
             pendingMoves g' = []) /\
          (players g = [player; player] ->
           b = true /\
           exists (s3 : S) u,
             processTurn R (options g) [(player, sm)] s2 = (s3, u) /\
             turns (calls g') = turns (calls g) ++ [([(player, sm)], u)] /\
             updates g'
             = updates g ++ [snd (with_winners R (options g) s3 u)] /\
             pendingMoves g' = [])).
Proof.
  intros g Hreach. split.
  { exists (JsSet.of_array (players g)).
    split; [apply getPlayersToPlay_eq |].
    split; [apply JsFacts.of_array_nodup | apply JsFacts.of_array_in]. }
  split.
  { intros move player sm s1 s2 Hlisted Hnew Hs Hl.
    assert (Hstarted : updates g <> []).
    { intros Hus. rewrite (players_empty g Hus) in Hlisted. destruct Hlisted. }
    rewrite (playMove_valid g move player sm s1 s2 Hstarted Hlisted Hnew Hs Hl).
    cbv zeta. destruct (_ =? _)%nat.
    - destruct (processTurn R (options g) _ s2). eexists. eexists. reflexivity.
    - eexists. eexists. reflexivity. }
  intros move player g' b Hcall.
  pose proof (reachable_wf g Hreach) as Hwf.
  destruct (playMove_accepted g move player g' b Hwf Hcall)
    as (Hstarted & Hin & Hfresh & sm & s1 & s2 & Hs & Hl & Hcases).
  cbv zeta in Hcases.
  assert (Hall : same_players (JsMap.keys (pendingMoves g ++ [(player, sm)]))
                              (players g) <->
                 forall q, In q (players g) -> q = player \/ In q (submitted g)).
  { unfold same_players, submitted. rewrite JsFacts.keys_snoc. split.
    - intros Hsame q Hq. apply Hsame, in_app_iff in Hq.
      destruct Hq as [Hq | [<- | []]]; [now right | now left].
    - intros Hevery q. rewrite in_app_iff. split.
      + intros [Hq | [<- | []]]; [now apply (wf_subset g Hwf) | assumption].
      + intros Hq. destruct (Hevery q Hq) as [-> | Hq'];
          [right; now left | now left]. }
  assert (Halone : players g = [player; player] -> pendingMoves g = []).
  { intros Htwice. destruct (pendingMoves g) as [| [q m] rest] eqn:Hpending;
      [reflexivity |].
    exfalso. apply Hfresh.
    assert (Hq : In q (players g)).
    { apply (wf_subset g Hwf). unfold submitted. rewrite Hpending. now left. }
    rewrite Htwice in Hq. unfold submitted. rewrite Hpending.
    destruct Hq as [<- | [<- | []]]; now left. }
  split; [assumption |]. split; [assumption |].
  exists sm, s1, s2. split; [assumption |]. split; [assumption |].
  destruct Hcases as [(-> & Hsame & s3 & u & Hturn & ->) | (-> & Hdiff & ->)].
  - assert (Hturns :
              turns (calls g ++
                     [CallSanitizeMove move (inr sm);
                      CallAssertMoveIsLegal sm player (inr tt)] ++
                     CallProcessTurn (pendingMoves g ++ [(player, sm)]) u
                     :: winner_call R (options g) s3 u)
              = turns (calls g) ++ [(pendingMoves g ++ [(player, sm)], u)]).
    { rewrite !turns_app. simpl. now rewrite turns_winner_call. }
    split; [discriminate |].
    split; [split; [intros _; now apply Hall | reflexivity] |].
    split.
    + intros _. exists s3, u. cbn [calls updates pendingMoves].
      now repeat split.
    + intros Htwice. split; [reflexivity |].
      exists s3, u. cbn [calls updates pendingMoves].
      rewrite (Halone Htwice) in *. now repeat split.
  - split.
    + intros _. cbn [calls updates pendingMoves].
      split; [reflexivity |]. split; [reflexivity |].
      split; [rewrite turns_app; simpl; now rewrite app_nil_r |].
      intros move2. apply playMove_already_played.
      * exact Hstarted.
      * exact Hin.
      * unfold submitted. simpl. rewrite JsFacts.keys_snoc.
        apply in_app_iff. right. now left.
    + split; [split; [discriminate |];
              intros Hevery; now apply Hall in Hevery |].
      split; [discriminate |].
      intros Htwice. exfalso. apply Hdiff, Hall. intros q Hq.
      rewrite Htwice in Hq. destruct Hq as [<- | [<- | []]]; now left.
Qed.

Lemma two_players_size (l : list Player) (a b : Player) :
  same_players l [a; b] -> a <> b -> List.length (JsSet.of_array l) = 2%nat.
Proof.
  intros Hsame Hne.
  assert (Hperm : Permutation (JsSet.of_array l) [a; b]).
  { apply NoDup_Permutation.
    - apply JsFacts.of_array_nodup.
    - constructor; [intros [Hab | []]; now apply Hne | ].
      constructor; [intros [] | constructor].
    - intros q. rewrite JsFacts.of_array_in. apply Hsame. }
  now rewrite (Permutation_length Hperm).
Qed.

(** C7, as the code has it. In a turn that players [a] and [b] are to play,
    with validation methods that accept the two moves and write no field,
    [processTurn] is called on the same two sanitized moves either way, held
    in the order of submission; if its result does not depend on that order,
    the two objects end with the same history, buffer and fields. *)
Theorem submission_order_irrelevant_when_processTurn_ignores_it :
  forall g (a b : Player) (moveA moveB : Raw) (sa sb : M),
    updates g <> [] ->
    same_players (players g) [a; b] ->
    a <> b ->
    pendingMoves g = [] ->
    sanitizeMove R (options g) moveA (self g) = (self g, inr sa) ->
    sanitizeMove R (options g) moveB (self g) = (self g, inr sb) ->
    assertMoveIsLegal R (options g) sa a (self g) = (self g, inr tt) ->
    assertMoveIsLegal R (options g) sb b (self g) = (self g, inr tt) ->
    processTurn R (options g) [(a, sa); (b, sb)] (self g) =
    processTurn R (options g) [(b, sb); (a, sa)] (self g) ->
    let gab := fst (playMove R moveB b (fst (playMove R moveA a g))) in
    let gba := fst (playMove R moveA a (fst (playMove R moveB b g))) in
    (exists u,
       turns (calls gab) = turns (calls g) ++ [([(a, sa); (b, sb)], u)] /\
       turns (calls gba) = turns (calls g) ++ [([(b, sb); (a, sa)], u)]) /\
    (exists e, updates gab = updates g ++ [e] /\ updates gba = updates g ++ [e]) /\
    pendingMoves gab = [] /\ pendingMoves gba = [] /\
    self gab = self gba.
Proof.
  intros g a b moveA moveB sa sb Hstarted Hsame Hne Hempty HsA HsB HlA HlB Hblind.
  assert (Hsize : List.length (JsSet.of_array (players g)) = 2%nat)
    by now apply two_players_size with (a := a) (b := b).
  assert (HinA : In a (players g)) by (apply Hsame; now left).
  assert (HinB : In b (players g)) by (apply Hsame; right; now left).
  assert (Hnone : forall q, ~ In q (submitted g))
    by (intros q; unfold submitted; rewrite Hempty; intros []).
  rewrite (playMove_valid g moveA a sa _ _ Hstarted HinA (Hnone a) HsA HlA).
  rewrite (playMove_valid g moveB b sb _ _ Hstarted HinB (Hnone b) HsB HlB).
  cbv zeta. rewrite Hsize, Hempty. simpl.
  rewrite (playMove_valid _ moveB b sb (self g) (self g)); simpl;
    [ | assumption | assumption | intros [Hab | []]; now apply Hne
      | assumption | assumption ].
  rewrite (playMove_valid _ moveA a sa (self g) (self g)); simpl;
    [ | assumption | assumption | intros [Hab | []]; now apply Hne
      | assumption | assumption ].
  change (players (mkGame [(a, sa)] (updates g) (options g) (numberOfPlayers g)
                          (self g) _)) with (players g).
  change (players (mkGame [(b, sb)] (updates g) (options g) (numberOfPlayers g)
                          (self g) _)) with (players g).
  rewrite Hsize. simpl. rewrite <- Hblind.
  destruct (processTurn R (options g) [(a, sa); (b, sb)] (self g)) as [s3 u].
  simpl. split; [| split; [| split; [| split]]]; try reflexivity.
  - exists u.
    split; rewrite turns_resolution by reflexivity;
      rewrite turns_app; simpl; now rewrite app_nil_r.
  - eexists. split; reflexivity.
Qed.

End EngineFacts.

(** ** The dice game *)
Module SimpleGameFacts.
Import SimpleGame.

Lemma array_add_nat_comm (l : list Z) (i j : nat) (d e : Z) :
  array_add_nat (array_add_nat l i d) j e
  = array_add_nat (array_add_nat l j e) i d.
Proof.
  revert i j. induction l as [| x l IH]; intros [| i] [| j]; simpl;
    try reflexivity.
  - f_equal. lia.
  - f_equal. apply IH.
Qed.

Lemma array_add_comm (l : list Z) (i j : Player) (d e : Z) :
  array_add (array_add l i d) j e = array_add (array_add l j e) i d.
Proof.
  unfold array_add. destruct (i <? 0), (j <? 0); try reflexivity.
  apply array_add_nat_comm.
Qed.

(** The callback of [forEach] commutes with itself: each call only adds to
    the entry of its own player. *)
Lemma score_comm (parity : option Parity) (pts : list Z)
      (x y : Player * SimpleMove) :
  score parity (score parity pts x) y = score parity (score parity pts y) x.
Proof.
  destruct x as [a [ga ba]], y as [b [gb bb]]. unfold score. simpl.
  destruct parity as [p |];
    [destruct (Parity_eqb ga p), (Parity_eqb gb p) |];
    destruct ba, bb; try reflexivity;
    repeat first
      [ reflexivity
      | rewrite (array_add_comm _ a b)
      | f_equal ].
Qed.

Lemma get_two_orders (a b : Player) (sa sb : SimpleMove) (i : Player) :
  a <> b ->
  JsMap.get [(a, sa); (b, sb)] i = JsMap.get [(b, sb); (a, sa)] i.
Proof.
  intros Hne. simpl.
  destruct (Z.eqb_spec i a) as [Ha | Ha], (Z.eqb_spec i b) as [Hb | Hb];
    try reflexivity.
  destruct Hne. congruence.
Qed.

(** [SimpleGame.processTurn] does not depend on the order in which two
    different players were put into the map. *)
Lemma processTurn_order_blind (o : SimpleOptions) (s : Fields)
      (a b : Player) (sa sb : SimpleMove) :
  a <> b ->
  processTurn o [(a, sa); (b, sb)] s = processTurn o [(b, sb); (a, sa)] s.
Proof.
  intros Hne. unfold processTurn.
  replace (fold_left (score (highRollsParity s)) [(a, sa); (b, sb)] (points s))
    with (fold_left (score (highRollsParity s)) [(b, sb); (a, sa)] (points s))
    by (cbn [fold_left]; apply score_comm).
  replace (map (fun i => JsMap.get [(a, sa); (b, sb)] (Z.of_nat i))
               (seq 0 (rounds (numPlayers o))))
    with (map (fun i => JsMap.get [(b, sb); (a, sa)] (Z.of_nat i))
              (seq 0 (rounds (numPlayers o))));
    [reflexivity |].
  apply map_ext. intros i. symmetry. now apply get_two_orders.
Qed.

End SimpleGameFacts.

(** ** The examples: the games of the tests *)
Module ExampleFacts.
Import Examples.

Lemma simple_new_reachable : reachable SimpleGame.rules simple_new.
Proof. apply reachable_new with (o := three_players). reflexivity. Qed.

Lemma simple_started_reachable : reachable SimpleGame.rules simple_started.
Proof. exact (reachable_start _ "test_seed" _ simple_new_reachable). Qed.

Lemma simple_after_even_reachable : reachable SimpleGame.rules simple_after_even.
Proof. exact (reachable_playMove _ (call "even") 0 _ simple_started_reachable). Qed.

Lemma simple_tied_reachable : reachable SimpleGame.rules simple_tied.
Proof.
  exact (reachable_playMove _ (call "odd") 0 _ simple_after_even_reachable).
Qed.

Lemma solo_new_reachable : reachable SimpleGame.rules solo_new.
Proof. apply reachable_new with (o := solo). reflexivity. Qed.

Lemma solo_started_reachable : reachable SimpleGame.rules solo_started.
Proof. exact (reachable_start _ "" _ solo_new_reachable). Qed.

Lemma scripted_new_reachable (script : ScriptedGame.Script) :
  reachable ScriptedGame.rules (scripted_new script).
Proof. apply reachable_new with (o := script). reflexivity. Qed.

Lemma scripted_started_reachable (script : ScriptedGame.Script) :
  reachable ScriptedGame.rules (scripted_started script).
Proof. exact (reachable_start _ "" _ (scripted_new_reachable script)). Qed.

(** The first assertions of "should be able to play a full game". *)
Example test_first_update :
  getLatestUpdate simple_started =
  (simple_started,
   inr (mkUpdate
          (SimpleGame.mkPublic None (Some [6; 1; 4]) None)
          [0] None
          (Some (map SimpleGame.mkPrivate [5; 2; 2])))).
Proof. vm_compute. reflexivity. Qed.

Example test_second_update :
  getLatestUpdate simple_after_even =
  (simple_after_even,
   inr (mkUpdate
          (SimpleGame.mkPublic
             (Some [Some (SimpleGame.mkMove SimpleGame.even false); None; None])
             (Some [4; 1; 1]) (Some [5; 2; 2]))
          [0] None
          (Some (map SimpleGame.mkPrivate [3; 3; 2])))).
Proof. vm_compute. reflexivity. Qed.

Example test_tied_turn : players simple_tied = [0; 1].
Proof. vm_compute. reflexivity. Qed.

(** "should throw an error if the move is illegal": the gamble is refused
    after "test_seed"; with the empty seed every roll is 1 and it is
    accepted. *)
Example test_gamble :
  (exists e, snd (playMove SimpleGame.rules (SimpleGame.mkRaw "odd" true) 0
                           simple_started) = inl e /\
             cls e = IllegalMoveError) /\
  snd (playMove SimpleGame.rules (SimpleGame.mkRaw "odd" true) 0
                (run (start SimpleGame.rules "") simple_new)) = inr false.
Proof. split; [eexists; split |]; vm_compute; reflexivity. Qed.

(** The last assertions of the same test: after the twelve moves of the
    test the rolls are [null] and player 0 has won. *)
Example test_full_game :
  let moves :=
    [("even", 0); ("odd", 0); ("even", 0); ("even", 1); ("odd", 0);
     ("even", 1); ("odd", 1); ("even", 2); ("odd", 1); ("even", 2);
     ("even", 2); ("odd", 0); ("odd", 0)] in
  let g := fst (playMoves SimpleGame.rules
                  (map (fun m => (call (fst m), snd m)) moves) simple_started) in
  option_map (fun u => (toPlay u, winners u, privateInfo u,
                        SimpleGame.pu_publicRolls (publicInfo u)))
             (latest g)
  = Some ([], Some [0], None, None).
Proof. vm_compute. reflexivity. Qed.

End ExampleFacts.

(** ** The claims on the games of the tests *)
Section Instances.
Import Examples ExampleFacts.

Local Abbreviation simple := SimpleGame.rules.
Local Abbreviation scripted := ScriptedGame.rules.


(** C2 on the games of the tests: a game not started, a game that is over,
    a player who is not to play, a spectator, a player who has played. *)
Lemma playMove_eligibility_checks_witness :
  playMove simple (call "odd") 0 solo_new =
  (solo_new, inl (out_of_turn 0 "The game hasn't started yet")) /\
  playMove simple (call "odd") 0 solo_over =
  (solo_over, inl (out_of_turn 0 "The game is already over")) /\
  (let ms := [(call "odd", 0); (call "even", 0); (call "neither", 7)] in
   fst (playMoves simple ms solo_over) = solo_over /\
   Forall (fun r => exists e, r = inl e /\ cls e = OutOfTurnError)
          (snd (playMoves simple ms solo_over))) /\
  playMove simple (call "odd") 1 simple_started =
  (simple_started,
   inl (out_of_turn 1 "No legal moves this turn for this player")) /\
  playMove simple (call "odd") (-1) simple_started =
  (simple_started,
   inl (out_of_turn (-1) "No legal moves this turn for this player")) /\
  playMove simple (call "odd") 0 simple_tied_waiting =
  (simple_tied_waiting,
   inl (out_of_turn 0 "Player has already played this turn")).
Proof.
  split; [| split; [| split; [| split; [| split]]]].
  - destruct (playMove_eligibility_checks simple solo_new (call "odd") 0)
      as (_ & Hunstarted & _).
    apply Hunstarted. reflexivity.
  - destruct (playMove_eligibility_checks simple solo_over (call "odd") 0)
      as (_ & _ & Hover & _).
    apply Hover; vm_compute; [discriminate | reflexivity].
  - destruct (playMove_eligibility_checks simple solo_over (call "odd") 0)
      as (_ & _ & _ & Hstable & _).
    apply Hstable; vm_compute; [discriminate | reflexivity].
  - destruct (playMove_eligibility_checks simple simple_started (call "odd") 1)
      as (_ & _ & _ & _ & Hout & _).
    apply Hout; vm_compute; [discriminate | discriminate |].
    intros [H | []]. discriminate H.
  - destruct (playMove_eligibility_checks simple simple_started (call "odd") (-1))
      as (_ & _ & _ & _ & _ & Hrange & _).
    apply Hrange.
    + vm_compute. discriminate.
    + vm_compute. discriminate.
    + intros q Hq. vm_compute in Hq. destruct Hq as [<- | []].
      split; [lia | reflexivity].
    + left. lia.
  - destruct (playMove_eligibility_checks simple simple_tied_waiting
                (call "odd") 0) as (_ & _ & _ & _ & _ & _ & Hplayed).
    apply Hplayed; vm_compute; [discriminate | |]; left; reflexivity.
Defined.

(** C3 on the dice game: [{guess: "neither"}] is refused with an
    InvalidMoveError, nothing changes, and [{guess: "even"}] by the same
    player is then accepted. *)
Lemma failing_playMove_keeps_buffer_and_history_witness :
  (exists e,
     playMove simple (call "neither") 0 simple_started
     = (simple_after_invalid, inl e) /\ cls e = InvalidMoveError) /\
  pendingMoves simple_after_invalid = pendingMoves simple_started /\
  updates simple_after_invalid = updates simple_started /\
  exists g'' (b : bool),
    playMove simple (call "even") 0 simple_after_invalid = (g'', inr b) /\
    (b = false ->
     pendingMoves g''
     = pendingMoves simple_started ++ [(0, SimpleGame.mkMove SimpleGame.even false)] /\
     updates g'' = updates simple_started) /\
    (b = true ->
     pendingMoves g'' = [] /\
     exists u, updates g'' = updates simple_started ++ [u]).
Proof.
  assert (Hcall :
    playMove simple (call "neither") 0 simple_started
    = (simple_after_invalid,
       inl (new_InvalidMoveError (AnyRaw (call "neither"))
              (AnyString "move does not contain an even/odd guess"))))
    by (vm_compute; reflexivity).
  destruct (failing_playMove_keeps_buffer_and_history simple simple_started
              (call "neither") 0 simple_after_invalid _ Hcall)
    as (Hbuffer & Hhistory & Hretry).
  split; [eexists; split; [exact Hcall | reflexivity] |].
  split; [exact Hbuffer |]. split; [exact Hhistory |].
  apply (Hretry ltac:(vm_compute; discriminate)
                ltac:(vm_compute; left; reflexivity)
                ltac:(vm_compute; intros [])
                (call "even") (SimpleGame.mkMove SimpleGame.even false)
                (self simple_after_invalid) (self simple_after_invalid));
    vm_compute; reflexivity.
Defined.

(** C4 as claimed fails on [getAllUpdates]: on a game that has not
    started it returns the empty history and throws nothing. *)
Lemma getAllUpdates_before_start_does_not_throw :
  updates simple_new = [] /\
  getAllUpdates simple_new = (simple_new, inr []) /\
  ~ (exists e, snd (getAllUpdates simple_new) = inl e).
Proof.
  split; [reflexivity |]. split; [reflexivity |].
  intros [e He]. discriminate He.
Qed.

(** C4, as the code has it, on the dice game. *)
Lemma lifecycle_of_start_and_accessors_witness :
  start simple "again" simple_started
  = (simple_started, inl (new_Error "A game can only be started once")) /\
  getLatestUpdate simple_new
  = (simple_new, inl (new_Error "Game hasn't started yet")) /\
  getAllUpdates simple_new = (simple_new, inr []).
Proof.
  split; [| split].
  - destruct (lifecycle_of_start_and_accessors simple simple_started "again")
      as (Hstart & _).
    apply Hstart. vm_compute. discriminate.
  - destruct (lifecycle_of_start_and_accessors simple simple_new "again")
      as (_ & Hlatest & _).
    apply Hlatest. reflexivity.
  - destruct (lifecycle_of_start_and_accessors simple simple_new "again")
      as (_ & _ & Hall & _).
    apply Hall. reflexivity.
Defined.

(** C5 on the dice game after [start] and one resolved turn. *)
Lemma history_mirrors_the_produced_updates_witness :
  Forall2 (fun e su => entry_of e (snd su))
          (updates simple_after_even) (produced (calls simple_after_even)) /\
  match produced (calls simple_after_even) with
  | [] => True
  | first :: rest => ~ is_turn first /\ Forall is_turn rest
  end /\
  (forall seed,
     exists l, updates (fst (start simple seed simple_after_even))
               = updates simple_after_even ++ l) /\
  (forall move player,
     exists l, updates (fst (playMove simple move player simple_after_even))
               = updates simple_after_even ++ l).
Proof.
  apply (history_mirrors_the_produced_updates simple simple_after_even).
  exact simple_after_even_reachable.
Defined.

(** C6 at a [start] with players to play (the dice game), at a [start] with
    none (a scripted game), and at the move that ends the one-player game. *)
Lemma winners_attached_exactly_when_toPlay_empty_witness :
  (exists g', start simple "test_seed" simple_new = (g', inr tt) /\
              option_map winners (latest g') = Some None /\
              winner_queries (calls g') = []) /\
  (exists g', start scripted "" over_at_start = (g', inr tt) /\
              option_map winners (latest g') = Some (Some [0]) /\
              winner_queries (calls g') = [[0]]) /\
  (exists g', playMove simple (call "odd") 0 solo_started = (g', inr true) /\
              option_map winners (latest g') = Some (Some [0]) /\
              winner_queries (calls g') = [[0]]).
Proof.
  split; [| split].
  - destruct (winners_attached_exactly_when_toPlay_empty simple simple_new
                simple_new_reachable) as [Hstart _].
    destruct (Hstart "test_seed" _ _ eq_refl eq_refl)
      as (g' & e & Hcall & Hhistory & _ & Hon).
    exists g'. split; [exact Hcall |].
    destruct (Hon ltac:(vm_compute; discriminate)) as [-> Hqueries].
    rewrite Hqueries. unfold latest. rewrite Hhistory. split; reflexivity.
  - destruct (winners_attached_exactly_when_toPlay_empty scripted over_at_start
                (scripted_new_reachable [[]])) as [Hstart _].
    destruct (Hstart "" _ _ eq_refl eq_refl)
      as (g' & e & Hcall & Hhistory & Hover & _).
    exists g'. split; [exact Hcall |].
    destruct (Hover eq_refl) as [-> Hqueries].
    rewrite Hqueries. unfold latest. rewrite Hhistory. split; reflexivity.
  - destruct (winners_attached_exactly_when_toPlay_empty simple solo_started
                solo_started_reachable) as [_ Hplay].
    assert (Hcall : playMove simple (call "odd") 0 solo_started
                    = (solo_over, inr true)) by (vm_compute; reflexivity).
    destruct (Hplay _ _ _ Hcall)
      as (sm & s1 & s2 & s3 & u & e & Hs & Hl & Hturn & Hhistory & Hover & _).
    vm_compute in Hs. injection Hs as <- <-.
    vm_compute in Hl. injection Hl as <-.
    vm_compute in Hturn. injection Hturn as <- <-.
    destruct (Hover eq_refl) as [-> Hqueries].
    exists solo_over. split; [exact Hcall |].
    rewrite Hqueries. unfold latest. rewrite Hhistory. split; reflexivity.
Defined.

(** C7 as claimed fails for a subclass whose [processTurn] reads the map in
    iteration order: the scripted game records [0, 1] when player 0 submits
    first and [1, 0] when player 1 does, the two moves being the same. *)
Lemma submission_order_shows_in_the_update :
  players duo_started = [0; 1] /\
  turns (calls duo_01) = [([(0, 7); (1, 8)], mkUpdate [0; 1] [] None None)] /\
  turns (calls duo_10) = [([(1, 8); (0, 7)], mkUpdate [1; 0] [] None None)] /\
  option_map publicInfo (latest duo_01) = Some [0; 1] /\
  option_map publicInfo (latest duo_10) = Some [1; 0] /\
  updates duo_01 <> updates duo_10.
Proof.
  repeat split; try (vm_compute; reflexivity).
  vm_compute. discriminate.
Qed.

(** C7, as the code has it, on the tied turn of the dice game: players 0
    and 1 submit in either order and the appended update is the same. *)
Lemma submission_order_irrelevant_when_processTurn_ignores_it_witness :
  (exists u,
     turns (calls simple_tied_01)
     = turns (calls simple_tied)
       ++ [([(0, SimpleGame.mkMove SimpleGame.even false);
             (1, SimpleGame.mkMove SimpleGame.odd false)], u)] /\
     turns (calls simple_tied_10)
     = turns (calls simple_tied)
       ++ [([(1, SimpleGame.mkMove SimpleGame.odd false);
             (0, SimpleGame.mkMove SimpleGame.even false)], u)]) /\
  (exists e, updates simple_tied_01 = updates simple_tied ++ [e] /\
             updates simple_tied_10 = updates simple_tied ++ [e]) /\
  pendingMoves simple_tied_01 = [] /\
  pendingMoves simple_tied_10 = [] /\
  self simple_tied_01 = self simple_tied_10.
Proof.
  apply (submission_order_irrelevant_when_processTurn_ignores_it simple
           simple_tied 0 1 (call "even") (call "odd")
           (SimpleGame.mkMove SimpleGame.even false)
           (SimpleGame.mkMove SimpleGame.odd false)).
  - vm_compute. discriminate.
  - intros q. vm_compute. tauto.
  - discriminate.
  - vm_compute. reflexivity.
  - vm_compute. reflexivity.
  - vm_compute. reflexivity.
  - vm_compute. reflexivity.
  - vm_compute. reflexivity.
  - apply SimpleGameFacts.processTurn_order_blind. discriminate.
Defined.

(** C10 on a scripted game whose first turn lists player 0 twice: the move
    of player 0 is accepted, it resolves the turn, and [processTurn]
    receives that move alone. *)
Lemma duplicate_players_count_once_witness :
  players twice_started = [0; 0] /\
  getPlayersToPlay twice_started = (twice_started, inr [0]) /\
  (exists g' (b : bool), playMove scripted 7 0 twice_started = (g', inr b)) /\
  playMove scripted 7 0 twice_started = (twice_resolved, inr true) /\
  List.length (updates twice_started) = 1%nat /\
  List.length (updates twice_resolved) = 2%nat /\
  (exists (sm : Z) (s1 s2 : nat),
      sanitizeMove scripted (options twice_started) 7 (self twice_started)
      = (s1, inr sm) /\
      (true = true <->
       forall q, In q (players twice_started) ->
                 q = 0 \/ In q (submitted twice_started)) /\
      exists (s3 : nat) u,
        processTurn scripted (options twice_started) [(0, sm)] s2 = (s3, u) /\
        turns (calls twice_resolved)
        = turns (calls twice_started) ++ [([(0, sm)], u)] /\
        updates twice_resolved
        = updates twice_started
          ++ [snd (with_winners scripted (options twice_started) s3 u)] /\
        pendingMoves twice_resolved = []).
Proof.
  destruct (duplicate_players_count_once scripted twice_started
              (scripted_started_reachable [[0; 0]; []]))
    as (_ & Hmay & Hdone).
  split; [reflexivity |]. split; [reflexivity |].
  split.
  { apply (Hmay 7 0 7 (self twice_started) (self twice_started)).
    - vm_compute. now left.
    - vm_compute. intros [].
    - reflexivity.
    - reflexivity. }
  split; [reflexivity |]. split; [reflexivity |]. split; [reflexivity |].
  destruct (Hdone 7 0 twice_resolved true eq_refl)
    as (_ & _ & sm & s1 & s2 & Hs & _ & _ & Hall & _ & Htwice).
  exists sm, s1, s2. split; [exact Hs |]. split; [exact Hall |].
  apply Htwice. reflexivity.
Defined.

(** *** Two places where the code does not do what it announces *)

Lemma out_of_turn_reports (player : Player) (reason : string)
      (v : any SimpleGame.SimpleOptions SimpleGame.RawMove SimpleGame.SimpleMove) :
  reports (out_of_turn player reason) v ->
  v = AnyString reason \/ v = AnyUndefined \/ v = AnyNumber player.
Proof.
  unfold reports. simpl.
  intros [H | [H | [H | [H | [H | [H | []]]]]]]; try discriminate H;
    injection H as <-; tauto.
Qed.

(** C8: what [playMove] throws when the game has not started. The three
    arguments of the constructor of [errors.ts] are [(move, player, reason)];
    [game.ts] passes [(player, text)], so the text lands in the place of the
    player, the player in the place of the move, and the move that was
    submitted is nowhere in the message. *)
Theorem out_of_turn_error_leaves_out_the_move :
  exists e,
    playMove simple (SimpleGame.mkRaw "even" true) 0 simple_new
    = (simple_new, inl e) /\
    cls e = OutOfTurnError /\
    message e =
    [Lit "Out of turn play by player ";
     Interp (AnyString "The game hasn't started yet");
     Lit ": "; Interp AnyUndefined; Lit newline; Json (AnyNumber 0)] /\
    ~ reports e (AnyRaw (SimpleGame.mkRaw "even" true)).
Proof.
  eexists. split; [reflexivity |]. split; [reflexivity |].
  split; [reflexivity |].
  intros Hreports. apply out_of_turn_reports in Hreports.
  destruct Hreports as [H | [H | H]]; discriminate H.
Qed.

Lemma construct_numberOfPlayers {O Raw M PU PR S : Type}
      (R : Rules O Raw M PU PR S) (o : O) (g : Game O Raw M PU PR S) :
  construct R o = inr g ->
  sanitizeOptions R o = inr (options g) /\
  numberOfPlayers g = numberOfPlayersForOptions R o.
Proof.
  unfold construct. destruct (sanitizeOptions R o) as [e | sanitized];
    [discriminate |].
  intros Hg. injection Hg as <-. now split.
Qed.

(** C9: [new SimpleGame({numPlayers: 2.5})]. The sanitized configuration
    has two players, and [numberOfPlayers] is 2.5: the constructor hands the
    caller's options, not the sanitized ones, to
    [numberOfPlayersForOptions]. *)
Theorem numberOfPlayers_is_computed_from_the_raw_options :
  exists g,
    construct simple fractional = inr g /\
    options g = SimpleGame.mkOptions (2 # 1) (Some (10 # 1)) /\
    numberOfPlayersForOptions simple (options g) = 2 # 1 /\
    numberOfPlayers g = 5 # 2 /\
    numberOfPlayers g = numberOfPlayersForOptions simple fractional /\
    ~ (numberOfPlayers g == numberOfPlayersForOptions simple (options g))%Q.
Proof.
  eexists. split; [reflexivity |]. repeat split. discriminate.
Qed.

End Instances.

(** * More of the code *)

(** ** game.ts: the accessors, the buffer, the constructor *)
Section EngineMore.
Context {O Raw M PU PR S : Type}.
Context (R : Rules O Raw M PU PR S).

Local Abbreviation Update := (Update PU PR).
Local Abbreviation Game := (Game O Raw M PU PR S).
Local Abbreviation err := (exn O Raw M).

Implicit Types (g : Game) (u : Update) (player : Player) (move : Raw).

(** X1. [getPlayersToPlay] is a query: it never throws and leaves the
    object as it is. The set it returns holds each player listed in the
    latest [toPlay] once, and is empty exactly when the game has not started
    or the latest [toPlay] is empty. *)
Theorem getPlayersToPlay_is_a_query :
  forall g,
  exists s : JsSet.t,
    getPlayersToPlay g = (g, inr s) /\
    NoDup s /\
    (forall p, JsSet.has s p = true <-> In p (players g)) /\
    (JsSet.size s = 0 <-> updates g = [] \/ players g = []).
Proof.
  intros g. exists (JsSet.of_array (players g)).
  split; [apply getPlayersToPlay_eq |].
  split; [apply JsFacts.of_array_nodup |]. split.
  - intros p. rewrite JsFacts.set_has_iff. apply JsFacts.of_array_in.
  - rewrite JsFacts.of_array_empty_iff. split; [now right |].
    intros [Hus | Hnone]; [now apply players_empty | assumption].
Qed.

(** X2. The pending buffer of a reachable game holds one entry per player,
    only for players listed in the current [toPlay], and never for all of
    them; it is empty while the game has not started and once it is over. *)
Theorem pending_buffer_invariant :
  forall g,
    reachable R g ->
    NoDup (submitted g) /\
    (forall p, In p (submitted g) -> In p (players g)) /\
    (forall p, In p (submitted g) -> exists m, JsMap.get (pendingMoves g) p = Some m) /\
    (pendingMoves g <> [] ->
     (List.length (submitted g) < List.length (JsSet.of_array (players g)))%nat) /\
    (updates g = [] \/ players g = [] -> pendingMoves g = []).
Proof.
  intros g Hreach. destruct (reachable_wf R g Hreach) as [Hnodup Hsub Hwait].
  split; [assumption |]. split; [exact Hsub |]. split; [| split].
  - unfold submitted. intros p. clear. induction (pendingMoves g) as [| [k v] m IH].
    + intros [].
    + simpl. intros [-> | Hin].
      * rewrite Z.eqb_refl. now exists v.
      * destruct (p =? k); [now exists v | now apply IH].
  - intros Hsome. destruct Hwait as [Hnil | Hlt]; [contradiction |].
    unfold submitted, JsMap.keys. now rewrite length_map.
  - intros Hidle.
    assert (Hnone : players g = [])
      by (destruct Hidle as [Hus | Hnone]; [now apply players_empty | assumption]).
    unfold submitted in Hsub. rewrite Hnone in Hsub.
    destruct (pendingMoves g) as [| [k v] m]; [reflexivity |].
    destruct (Hsub k). now left.
Qed.

Lemma playMove_keeps_configuration move player g :
  options (fst (playMove R move player g)) = options g /\
  numberOfPlayers (fst (playMove R move player g)) = numberOfPlayers g.
Proof.
  destruct (started_dec g) as [Hus | Hstarted].
  { rewrite (playMove_unstarted R move player g Hus). now split. }
  rewrite (playMove_started R move player g Hstarted).
  destruct (JsSet.size (JsSet.of_array (players g)) =? 0); [now split |].
  destruct (negb (JsSet.has (JsSet.of_array (players g)) player)); [now split |].
  destruct (JsMap.has (pendingMoves g) player); [now split |].
  destruct (sanitizeMove R (options g) move (self g)) as [s1 [e1 | sm]];
    [now split |].
  destruct (assertMoveIsLegal R (options g) sm player s1) as [s2 [e2 | []]];
    [now split |].
  cbv zeta.
  destruct (JsSet.size (JsSet.of_array (players g)) =? JsMap.size _);
    [| now split].
  destruct (processTurn R (options g) _ s2) as [s3 u]. now split.
Qed.

Lemma start_keeps_configuration seed g :
  options (fst (start R seed g)) = options g /\
  numberOfPlayers (fst (start R seed g)) = numberOfPlayers g.
Proof.
  destruct (started_dec g) as [Hus | Hstarted].
  - rewrite (start_unstarted R seed g Hus).
    destruct (initialize R (options g) seed (self g)) as [s1 u]. now split.
  - rewrite (start_started R seed g Hstarted). now split.
Qed.

Lemma playMoves_keeps_configuration (ms : list (Raw * Player)) g :
  options (fst (playMoves R ms g)) = options g /\
  numberOfPlayers (fst (playMoves R ms g)) = numberOfPlayers g.
Proof.
  revert g. induction ms as [| [m p] ms IH]; intros g; simpl; [now split |].
  pose proof (playMove_keeps_configuration m p g) as [Ho Hn].
  destruct (playMove R m p g) as [g1 r]. destruct (IH g1) as [IHo IHn].
  destruct (playMoves R ms g1) as [g2 rs]. simpl in *.
  split; congruence.
Qed.

(** X3. Neither [start] nor [playMove], returning or throwing, writes
    [options] or [numberOfPlayers]: between two reachable states of one
    object they are what the constructor set. *)
Theorem configuration_is_never_written :
  forall g seed move player (ms : list (Raw * Player)),
    options (fst (start R seed g)) = options g /\
    numberOfPlayers (fst (start R seed g)) = numberOfPlayers g /\
    options (fst (playMove R move player g)) = options g /\
    numberOfPlayers (fst (playMove R move player g)) = numberOfPlayers g /\
    options (fst (playMoves R ms g)) = options g /\
    numberOfPlayers (fst (playMoves R ms g)) = numberOfPlayers g.
Proof.
  intros g seed move player ms.
  destruct (start_keeps_configuration seed g) as [Ho Hn].
  destruct (playMove_keeps_configuration move player g) as [Ho' Hn'].
  destruct (playMoves_keeps_configuration ms g) as [Ho'' Hn''].
  repeat split; assumption.
Qed.

Lemma playMove_history_step move player g :
  List.length (updates (fst (playMove R move player g)))
  = (List.length (updates g)
     + More.resolutions [snd (playMove R move player g)])%nat.
Proof.
  unfold More.resolutions.
  destruct (started_dec g) as [Hus | Hstarted].
  { rewrite (playMove_unstarted R move player g Hus). simpl. lia. }
  rewrite (playMove_started R move player g Hstarted).
  destruct (JsSet.size (JsSet.of_array (players g)) =? 0); [simpl; lia |].
  destruct (negb (JsSet.has (JsSet.of_array (players g)) player)); [simpl; lia |].
  destruct (JsMap.has (pendingMoves g) player); [simpl; lia |].
  destruct (sanitizeMove R (options g) move (self g)) as [s1 [e1 | sm]];
    [simpl; lia |].
  destruct (assertMoveIsLegal R (options g) sm player s1) as [s2 [e2 | []]];
    [simpl; lia |].
  cbv zeta.
  destruct (JsSet.size (JsSet.of_array (players g)) =? JsMap.size _);
    [| simpl; lia].
  destruct (processTurn R (options g) _ s2) as [s3 u]. simpl.
  rewrite length_app. simpl. lia.
Qed.

(** X4. Over any sequence of [playMove] calls the history grows by one
    update for each call that returned [true] and by nothing else: calls
    that returned [false] or threw add no update. *)
Theorem history_grows_with_resolved_turns :
  forall (ms : list (Raw * Player)) g,
    List.length (updates (fst (playMoves R ms g)))
    = (List.length (updates g) + More.resolutions (snd (playMoves R ms g)))%nat /\
    List.length (snd (playMoves R ms g)) = List.length ms.
Proof.
  induction ms as [| [m p] ms IH]; intros g; simpl.
  - unfold More.resolutions. simpl. split; lia.
  - pose proof (playMove_history_step m p g) as Hstep.
    destruct (playMove R m p g) as [g1 r]. destruct (IH g1) as [IHh IHl].
    destruct (playMoves R ms g1) as [g2 rs]. simpl in *.
    split; [| now rewrite IHl].
    rewrite IHh, Hstep. unfold More.resolutions. simpl.
    destruct r as [e | [|]]; simpl; lia.
Qed.

(** X5. On a started game the two read accessors agree: [getLatestUpdate]
    returns the last element of the array [getAllUpdates] returns, neither
    throws and neither changes the object; and [getPlayersToPlay] is the set
    of that update's [toPlay]. *)
Theorem accessors_agree_once_started :
  forall g,
    updates g <> [] ->
    exists (front : list Update) u,
      getAllUpdates g = (g, inr (front ++ [u])) /\
      getLatestUpdate g = (g, inr u) /\
      getPlayersToPlay g = (g, inr (JsSet.of_array (toPlay u))).
Proof.
  intros g Hstarted. destruct (exists_last Hstarted) as [front [u Hus]].
  exists front, u. pose proof (latest_snoc g front u Hus) as Hlatest.
  split; [| split].
  - unfold getAllUpdates, bind, this, ret. now rewrite Hus.
  - now apply getLatestUpdate_started.
  - rewrite getPlayersToPlay_eq. unfold players. now rewrite Hlatest.
Qed.

(** X6. The constructor throws what [sanitizeOptions] throws and builds no
    object then; an object it builds has not started: its history and its
    buffer are empty, nobody is to play, [getLatestUpdate] throws and so does
    every [playMove], without a call to the subclass. *)
Theorem constructed_game_has_not_started :
  forall (o : O),
    (forall e, sanitizeOptions R o = inl e -> construct R o = inl e) /\
    (forall g,
       construct R o = inr g ->
       sanitizeOptions R o = inr (options g) /\
       updates g = [] /\ pendingMoves g = [] /\ calls g = [] /\
       self g = fields R (options g) /\
       getPlayersToPlay g = (g, inr JsSet.empty) /\
       (exists e, getLatestUpdate g = (g, inl e) /\ cls e = Error) /\
       (forall move player,
          exists e, playMove R move player g = (g, inl e) /\
                    cls e = OutOfTurnError)).
Proof.
  intros o. unfold construct. split.
  - intros e He. now rewrite He.
  - intros g Hg. destruct (sanitizeOptions R o) as [e | sanitized];
      [discriminate |].
    injection Hg as <-. simpl. repeat split.
    + eexists. split; reflexivity.
    + intros move player. eexists. split; reflexivity.
Qed.

End EngineMore.

(** ** test/simple_game.ts: the dice, the options, the moves, the points *)
Module DiceFacts.
Import SimpleGame More.

Lemma getNextDiceRoll_range (gen : Z) :
  0 <= gen ->
  0 <= fst (getNextDiceRoll gen) < 127 /\ 1 <= snd (getNextDiceRoll gen) <= 6.
Proof.
  intros Hgen. unfold getNextDiceRoll. cbn [fst snd].
  assert (Hg : 0 <= Z.rem (gen * 8191) 127 < 127)
    by (apply Z.rem_bound_pos; lia).
  split; [exact Hg |].
  assert (Hr : 0 <= Z.rem (Z.rem (gen * 8191) 127) 6 < 6)
    by (apply Z.rem_bound_pos; lia).
  lia.
Qed.

Lemma below_127 (P : Z -> bool) :
  forallb P (map Z.of_nat (seq 0 127)) = true ->
  forall gen, 0 <= gen < 127 -> P gen = true.
Proof.
  intros Hall gen Hgen. rewrite forallb_forall in Hall. apply Hall.
  apply in_map_iff. exists (Z.to_nat gen). split; [lia |].
  apply in_seq. lia.
Qed.

(** X7. The generator of the dice is a whole number from 0 to 126: there
    its product by 8191 is below 2^53, so the JavaScript number holds it
    exactly, and [getNextDiceRoll] returns a roll from 1 to 6 and leaves a
    generator from 0 to 126 again. From such a generator the sequence of
    generators repeats after 14 calls; the generator 0 is never left and
    always rolls 1. *)
Theorem dice_rolls_are_bounded_and_periodic :
  forall gen,
    0 <= gen < 127 ->
    0 <= gen * 8191 < 2 ^ 53 /\
    0 <= fst (getNextDiceRoll gen) < 127 /\
    1 <= snd (getNextDiceRoll gen) <= 6 /\
    spin 14 gen = gen /\
    getNextDiceRoll 0 = (0, 1).
Proof.
  intros gen Hgen.
  destruct (getNextDiceRoll_range gen ltac:(lia)) as [Hg Hr].
  split; [change (2 ^ 53) with 9007199254740992; lia |].
  split; [assumption |]. split; [assumption |]. split; [| reflexivity].
  apply Z.eqb_eq.
  apply (below_127 (fun g => spin 14 g =? g)); [| assumption].
  vm_compute. reflexivity.
Qed.

Lemma array_set_length (a : list Z) (i : nat) (v : Z) :
  (i <= List.length a)%nat ->
  List.length (array_set a i v) = Nat.max (List.length a) (Datatypes.S i).
Proof.
  revert i. induction a as [| x a IH]; intros i Hi; simpl in *.
  - now replace i with 0%nat by lia.
  - destruct i as [| i]; simpl; [lia |]. rewrite IH by lia. lia.
Qed.

Lemma array_set_nth_same (a : list Z) (i : nat) (v d : Z) :
  (i <= List.length a)%nat -> nth i (array_set a i v) d = v.
Proof.
  revert i. induction a as [| x a IH]; intros i Hi; simpl in *.
  - now replace i with 0%nat by lia.
  - destruct i as [| i]; simpl; [reflexivity |]. apply IH. lia.
Qed.

Lemma array_set_nth_below (a : list Z) (i j : nat) (v d : Z) :
  (j < i)%nat -> (i <= List.length a)%nat ->
  nth j (array_set a i v) d = nth j a d.
Proof.
  revert i j. induction a as [| x a IH]; intros i j Hj Hi; simpl in *.
  - lia.
  - destruct i as [| i]; [lia |]. destruct j as [| j]; simpl; [reflexivity |].
    apply IH; lia.
Qed.

Lemma filter_seq_step (f : nat -> bool) (k : nat) :
  filter f (seq 0 (Datatypes.S k))
  = filter f (seq 0 k) ++ (if f k then [k] else []).
Proof. rewrite seq_S, filter_app. simpl. now destruct (f k). Qed.

Lemma filter_none {A} (f : A -> bool) (l : list A) :
  (forall x, In x l -> f x = false) -> filter f l = [].
Proof.
  induction l as [| x l IH]; intros Hnone; simpl; [reflexivity |].
  rewrite (Hnone x) by now left. apply IH. intros y Hy. apply Hnone. now right.
Qed.

Lemma rolled_step (k lp lb : nat) (r : Rolling) :
  rolled k lp lb r -> rolled (Datatypes.S k) lp lb (roll_one r k).
Proof.
  intros (Hgen & Hlp & Hlb & Hpriv & Hpub & Hhigh0 & Hmax & Hhigh & Hsome & Hzero).
  unfold roll_one.
  destruct (getNextDiceRoll_range (r_gen r) ltac:(lia)) as [Hg1 Hr1].
  destruct (getNextDiceRoll (r_gen r)) as [g1 priv]. cbn [fst snd] in Hg1, Hr1.
  destruct (getNextDiceRoll_range g1 ltac:(lia)) as [Hg2 Hr2].
  destruct (getNextDiceRoll g1) as [g2 pub]. cbn [fst snd] in Hg2, Hr2.
  assert (Hkp : (k <= List.length (r_private r))%nat) by lia.
  assert (Hkb : (k <= List.length (r_public r))%nat) by lia.
  assert (Hold : forall i, (i < k)%nat ->
            nth i (array_set (r_public r) k pub) 0 = nth i (r_public r) 0)
    by (intros i Hi; now apply array_set_nth_below).
  assert (Hnew : nth k (array_set (r_public r) k pub) 0 = pub)
    by now apply array_set_nth_same.
  assert (Hfilter : forall h,
            filter (fun i => nth i (array_set (r_public r) k pub) 0 =? h) (seq 0 k)
            = filter (fun i => nth i (r_public r) 0 =? h) (seq 0 k)).
  { intros h. apply filter_ext_in. intros i Hi. apply in_seq in Hi.
    now rewrite Hold by lia. }
  assert (Hprivs : forall i, (i < Datatypes.S k)%nat ->
            1 <= nth i (array_set (r_private r) k priv) 0 <= 6).
  { intros i Hi. destruct (Nat.eq_dec i k) as [-> | Hne];
      [rewrite array_set_nth_same by assumption; lia |].
    rewrite array_set_nth_below by lia. apply Hpriv. lia. }
  assert (Hpubs : forall i, (i < Datatypes.S k)%nat ->
            1 <= nth i (array_set (r_public r) k pub) 0 <= 6).
  { intros i Hi. destruct (Nat.eq_dec i k) as [-> | Hne]; [lia |].
    rewrite Hold by lia. apply Hpub. lia. }
  destruct (r_highest r <? pub) eqn:Hcmp.
  - apply Z.ltb_lt in Hcmp. rewrite Z.eqb_refl.
    unfold rolled. cbn [r_gen r_private r_public r_highest r_high].
    split; [lia |].
    split; [rewrite array_set_length by assumption; lia |].
    split; [rewrite array_set_length by assumption; lia |].
    split; [exact Hprivs |]. split; [exact Hpubs |]. split; [lia |].
    split.
    { intros i Hi. destruct (Nat.eq_dec i k) as [-> | Hne]; [lia |].
      rewrite Hold by lia. specialize (Hmax i ltac:(lia)). lia. }
    split; [| split; [discriminate | lia]].
    rewrite filter_seq_step, Hnew, Z.eqb_refl, Hfilter.
    rewrite filter_none; [reflexivity |].
    intros i Hi. apply in_seq in Hi. apply Z.eqb_neq.
    specialize (Hmax i ltac:(lia)). lia.
  - apply Z.ltb_ge in Hcmp.
    unfold rolled. cbn [r_gen r_private r_public r_highest r_high].
    split; [lia |].
    split; [rewrite array_set_length by assumption; lia |].
    split; [rewrite array_set_length by assumption; lia |].
    split; [exact Hprivs |]. split; [exact Hpubs |]. split; [assumption |].
    split.
    { intros i Hi. destruct (Nat.eq_dec i k) as [-> | Hne]; [lia |].
      rewrite Hold by lia. apply Hmax. lia. }
    rewrite filter_seq_step, Hnew, Hfilter, map_app, <- Hhigh.
    destruct (pub =? r_highest r); simpl.
    + split; [reflexivity |]. split; [| lia].
      intros _ Hnil. now apply app_eq_nil in Hnil.
    + rewrite app_nil_r. split; [reflexivity |]. split; [| lia]. intros _.
      apply Hsome. destruct k as [| k]; [| lia].
      specialize (Hzero eq_refl). lia.
Qed.

Lemma rolled_all (n lp lb : nat) (init : Rolling) :
  rolled 0 lp lb init -> rolled n lp lb (fold_left roll_one (seq 0 n) init).
Proof.
  intros Hinit. induction n as [| n IH]; [exact Hinit |].
  rewrite seq_S, fold_left_app. simpl. now apply rolled_step.
Qed.

Lemma all_below (P : Z -> Prop) (l : list Z) :
  (forall i, (i < List.length l)%nat -> P (nth i l 0)) -> Forall P l.
Proof.
  intros Hall. apply Forall_forall. intros v Hv.
  destruct (In_nth l v 0 Hv) as [i [Hi <-]]. now apply Hall.
Qed.

Lemma rem_2_even (x : Z) : (Z.rem x 2 =? 0) = Z.even x.
Proof.
  destruct (Z.even x) eqn:Heven.
  - apply Z.eqb_eq, Z.rem_divide; [lia |].
    apply Z.even_spec in Heven. destruct Heven as [y ->]. exists y. lia.
  - apply Z.eqb_neq. intros Hrem. apply Z.rem_divide in Hrem; [| lia].
    destruct Hrem as [y ->].
    assert (Hyes : Z.even (y * 2) = true)
      by (apply Z.even_spec; exists y; lia).
    congruence.
Qed.

Lemma array_get_nth (l : list Z) (p : Player) :
  0 <= p ->
  match array_get l p with Some v => v | None => 0 end = nth (Z.to_nat p) l 0.
Proof.
  intros Hp. unfold array_get. destruct (Z.ltb_spec p 0) as [Hneg | _]; [lia |].
  destruct (nth_error l (Z.to_nat p)) as [v |] eqn:Hnth.
  - symmetry. now apply nth_error_nth.
  - symmetry. apply nth_overflow. now apply nth_error_None.
Qed.

Lemma private_sum_fold (priv : list Z) (high : list Player) (acc : Z) :
  Forall (fun p => 0 <= p) high ->
  fold_left (fun sum player =>
               match array_get priv player with
               | Some v => sum + v
               | None => sum
               end) high acc
  = acc + private_sum priv high.
Proof.
  revert acc. induction high as [| p high IH]; intros acc Hpos; simpl.
  - unfold private_sum. simpl. lia.
  - inversion Hpos as [| ? ? Hp Hrest]; subst. rewrite IH by assumption.
    unfold private_sum. simpl. pose proof (array_get_nth priv p Hp) as Hget.
    destruct (array_get priv p); lia.
Qed.

Lemma filtered_seq_sorted (f : nat -> bool) (a n : nat) :
  StronglySorted Z.lt (map Z.of_nat (filter f (seq a n))) /\
  Forall (fun x => Z.of_nat a <= x) (map Z.of_nat (filter f (seq a n))).
Proof.
  revert a. induction n as [| n IH]; intros a; simpl.
  - split; constructor.
  - destruct (IH (Datatypes.S a)) as [Hsorted Hlow].
    assert (Hlow' : Forall (fun x => Z.of_nat a < x)
                           (map Z.of_nat (filter f (seq (Datatypes.S a) n))))
      by (eapply Forall_impl; [| exact Hlow]; simpl; intros; lia).
    destruct (f a); simpl.
    + split; [now constructor |]. constructor; [lia |].
      eapply Forall_impl; [| exact Hlow']. simpl. intros. lia.
    + split; [assumption |].
      eapply Forall_impl; [| exact Hlow']. simpl. intros. lia.
Qed.

(** X8. [rollAllDice], run with the generator from 0 to 126 on the two
    roll arrays in place (not [null]) and no longer than the number of
    players, gives every player a private and a public roll from 1 to 6 and
    leaves the generator from 0 to 126; the high rollers are exactly the
    players whose public roll no other public roll exceeds, in increasing
    order, and there is at least one; the parity is that of the sum of the
    private rolls of the high rollers. The points and the last private rolls
    are untouched. *)
Theorem rollAllDice_finds_the_high_rollers :
  forall (o : SimpleOptions) (s : Fields) (pub0 priv0 : list Z),
    let n := rounds (numPlayers o) in
    0 <= rollGenerator s < 127 ->
    privateRolls s = Some priv0 ->
    publicRolls s = Some pub0 ->
    (List.length priv0 <= n)%nat ->
    (List.length pub0 <= n)%nat ->
    (1 <= n)%nat ->
    exists pub priv : list Z,
      publicRolls (rollAllDice o s) = Some pub /\
      privateRolls (rollAllDice o s) = Some priv /\
      List.length pub = n /\ List.length priv = n /\
      Forall (fun v => 1 <= v <= 6) pub /\
      Forall (fun v => 1 <= v <= 6) priv /\
      highRollers (rollAllDice o s) <> [] /\
      StronglySorted Z.lt (highRollers (rollAllDice o s)) /\
      (forall p,
         In p (highRollers (rollAllDice o s)) <->
         0 <= p < Z.of_nat n /\
         forall v, In v pub -> v <= nth (Z.to_nat p) pub 0) /\
      highRollsParity (rollAllDice o s)
      = Some (if Z.even (private_sum priv (highRollers (rollAllDice o s)))
              then even else odd) /\
      points (rollAllDice o s) = points s /\
      lastPrivateRolls (rollAllDice o s) = lastPrivateRolls s /\
      0 <= rollGenerator (rollAllDice o s) < 127.
Proof.
  intros o s pub0 priv0 n Hgen Hpriv0 Hpub0 Hlp Hlb Hn.
  assert (Hlp' : (List.length (or_empty (privateRolls s)) <= n)%nat)
    by now rewrite Hpriv0.
  assert (Hlb' : (List.length (or_empty (publicRolls s)) <= n)%nat)
    by now rewrite Hpub0.
  clear Hlp Hlb. rename Hlp' into Hlp. rename Hlb' into Hlb.
  pose (init := mkRolling (rollGenerator s) (or_empty (privateRolls s))
                          (or_empty (publicRolls s)) 0 []).
  assert (Hinit : rolled 0 (List.length (or_empty (privateRolls s)))
                         (List.length (or_empty (publicRolls s))) init).
  { unfold rolled, init. simpl. repeat split; intros; try lia; reflexivity. }
  pose proof (rolled_all n _ _ init Hinit)
    as (Hg & Hlenp & Hlenb & Hpriv & Hpub & Hhigh0 & Hmax & Hhigh & Hsome & _).
  unfold rollAllDice. fold n. fold init.
  set (r := fold_left roll_one (seq 0 n) init) in *.
  cbn [publicRolls privateRolls highRollers highRollsParity points
       lastPrivateRolls rollGenerator].
  assert (Hlb' : List.length (r_public r) = n) by lia.
  assert (Hlp' : List.length (r_private r) = n) by lia.
  assert (Htop : forall v, In v (r_public r) -> v <= r_highest r).
  { intros v Hv. destruct (In_nth _ v 0 Hv) as [i [Hi <-]]. apply Hmax. lia. }
  assert (Hmember : forall p,
            In p (r_high r) <->
            exists i, Z.of_nat i = p /\ (i < n)%nat /\
                      nth i (r_public r) 0 = r_highest r).
  { intros p. rewrite Hhigh, in_map_iff. split.
    - intros [i [Hp Hi]]. apply filter_In in Hi. destruct Hi as [Hi Heq].
      apply in_seq in Hi. apply Z.eqb_eq in Heq. exists i. repeat split; lia.
    - intros [i [Hp [Hi Heq]]]. exists i. split; [assumption |].
      apply filter_In. split; [apply in_seq; lia | now apply Z.eqb_eq]. }
  assert (Hattained : exists i, (i < n)%nat /\ nth i (r_public r) 0 = r_highest r).
  { destruct (r_high r) as [| p rest] eqn:Hlist; [now destruct (Hsome ltac:(lia)) |].
    destruct (proj1 (Hmember p) ltac:(now left)) as [i [_ Hi]]. now exists i. }
  exists (r_public r), (r_private r).
  split; [reflexivity |]. split; [reflexivity |].
  split; [assumption |]. split; [assumption |].
  split; [apply all_below; intros i Hi; apply Hpub; lia |].
  split; [apply all_below; intros i Hi; apply Hpriv; lia |].
  split; [apply Hsome; lia |].
  split; [rewrite Hhigh; apply filtered_seq_sorted |].
  split.
  { intros p. rewrite Hmember. split.
    - intros [i [<- [Hi Heq]]]. split; [lia |]. rewrite Nat2Z.id, Heq.
      exact Htop.
    - intros [Hp Hbest]. exists (Z.to_nat p). split; [lia |]. split; [lia |].
      destruct Hattained as [j [Hj Hjeq]]. apply Z.le_antisymm.
      + apply Hmax. lia.
      + rewrite <- Hjeq. apply Hbest. apply nth_In. lia. }
  split.
  { rewrite private_sum_fold, rem_2_even; [reflexivity |].
    rewrite Hhigh. apply Forall_forall. intros p Hp.
    apply in_map_iff in Hp. destruct Hp as [i [<- _]]. lia. }
  split; [reflexivity |]. split; [reflexivity |]. exact Hg.
Qed.

(** *** [getWinners] *)

Lemma array_get_some (l : list Z) (p : Player) (v : Z) :
  array_get l p = Some v <-> 0 <= p /\ nth_error l (Z.to_nat p) = Some v.
Proof.
  unfold array_get. destruct (Z.ltb_spec p 0) as [Hneg | Hpos].
  - split; [discriminate | lia].
  - tauto.
Qed.

Lemma winners_from (f : Z -> bool) (l : list Z) (a : nat) :
  let found := map (fun iv : nat * Z => Z.of_nat (fst iv))
                   (filter (fun iv => f (snd iv))
                           (combine (seq a (List.length l)) l)) in
  StronglySorted Z.lt found /\
  Forall (fun x => Z.of_nat a <= x) found /\
  forall p, In p found <->
            exists i v, p = Z.of_nat (a + i) /\ nth_error l i = Some v /\
                        f v = true.
Proof.
  revert a. induction l as [| x l IH]; intros a; cbv zeta; simpl.
  - split; [constructor |]. split; [constructor |]. intros p. split; [intros [] |].
    intros [[| i] [v [_ [Hnth _]]]]; discriminate.
  - destruct (IH (Datatypes.S a)) as [Hsorted [Hlow Hmember]]. cbv zeta in *.
    assert (Hrest : forall p,
              (exists i v, p = Z.of_nat (Datatypes.S a + i) /\
                           nth_error l i = Some v /\ f v = true) <->
              (exists i v, p = Z.of_nat (a + Datatypes.S i) /\
                           nth_error l i = Some v /\ f v = true)).
    { intros p. split; intros [i [v [Hp H]]]; exists i, v; split; try assumption; lia. }
    assert (Hlow' : Forall (fun x => Z.of_nat a < x)
              (map (fun iv : nat * Z => Z.of_nat (fst iv))
                   (filter (fun iv => f (snd iv))
                           (combine (seq (Datatypes.S a) (List.length l)) l))))
      by (eapply Forall_impl; [| exact Hlow]; simpl; intros; lia).
    destruct (f x) eqn:Hfx; simpl.
    + split; [now constructor |]. split.
      { constructor; [lia |]. eapply Forall_impl; [| exact Hlow']. simpl. intros. lia. }
      intros p. rewrite Hmember, Hrest. split.
      * intros [<- | [i [v [Hp H]]]].
        -- exists 0%nat, x. repeat split; [f_equal; lia | assumption].
        -- exists (Datatypes.S i), v. now split.
      * intros [[| i] [v [Hp [Hnth Hv]]]]; simpl in Hnth.
        -- left. rewrite Hp. f_equal. lia.
        -- right. exists i, v. now split.
    + split; [assumption |]. split.
      { eapply Forall_impl; [| exact Hlow']. simpl. intros. lia. }
      intros p. rewrite Hmember, Hrest. split.
      * intros [i [v [Hp H]]]. exists (Datatypes.S i), v. now split.
      * intros [[| i] [v [Hp [Hnth Hv]]]]; simpl in Hnth.
        -- injection Hnth as <-. congruence.
        -- exists i, v. now split.
Qed.

(** X9. [getWinners] returns, in increasing order and each once, exactly
    the indices of the points array whose entry is at least [numPoints];
    with no [numPoints] in the options it returns nobody. *)
Theorem getWinners_lists_who_reached_numPoints :
  forall (o : SimpleOptions) (s : Fields),
    StronglySorted Z.lt (getWinners o s) /\
    (forall p,
       In p (getWinners o s) <->
       exists (v : Z) (q : Q),
         array_get (points s) p = Some v /\
         numPoints o = Some q /\ (q <= inject_Z v)%Q) /\
    (numPoints o = None -> getWinners o s = []).
Proof.
  intros o s.
  destruct (winners_from (reached o) (points s) 0) as [Hsorted [_ Hmember]].
  cbv zeta in *. split; [exact Hsorted |]. split.
  - intros p. unfold getWinners. rewrite Hmember. split.
    + intros [i [v [-> [Hnth Hv]]]]. unfold reached in Hv.
      destruct (numPoints o) as [q |]; [| discriminate].
      exists v, q. split; [| split; [reflexivity | now apply Qle_bool_iff]].
      apply array_get_some. split; [lia |]. now rewrite Nat2Z.id.
    + intros [v [q [Hget [Hq Hle]]]]. apply array_get_some in Hget.
      destruct Hget as [Hp Hnth]. exists (Z.to_nat p), v.
      split; [simpl; lia |]. split; [assumption |].
      unfold reached. rewrite Hq. now apply Qle_bool_iff.
  - intros Hnone. unfold getWinners. rewrite filter_none; [reflexivity |].
    intros iv _. unfold reached. now rewrite Hnone.
Qed.

(** *** The points of a turn *)

Lemma array_add_nat_length (l : list Z) (i : nat) (d : Z) :
  List.length (array_add_nat l i d) = List.length l.
Proof.
  revert i. induction l as [| x l IH]; intros [| i]; simpl; try reflexivity.
  now rewrite IH.
Qed.

Lemma array_add_nat_nth (l : list Z) (i j : nat) (d : Z) :
  nth_error (array_add_nat l i d) j
  = if Nat.eqb j i
    then option_map (fun v => v + d) (nth_error l j)
    else nth_error l j.
Proof.
  revert i j. induction l as [| x l IH]; intros [| i] [| j]; simpl;
    try reflexivity.
  - now destruct (Nat.eqb j i).
  - apply IH.
Qed.

Lemma array_add_length (l : list Z) (p : Player) (d : Z) :
  List.length (array_add l p d) = List.length l.
Proof.
  unfold array_add. destruct (p <? 0); [reflexivity |].
  apply array_add_nat_length.
Qed.

Lemma array_add_get (l : list Z) (p q : Player) (d : Z) :
  array_get (array_add l p d) q
  = if q =? p
    then option_map (fun v => v + d) (array_get l q)
    else array_get l q.
Proof.
  unfold array_add, array_get.
  destruct (Z.ltb_spec q 0) as [Hq | Hq].
  - now destruct (q =? p).
  - destruct (Z.ltb_spec p 0) as [Hp | Hp].
    + replace (q =? p) with false by (symmetry; apply Z.eqb_neq; lia).
      reflexivity.
    + rewrite array_add_nat_nth.
      destruct (Z.eqb_spec q p) as [-> | Hne].
      * now rewrite Nat.eqb_refl.
      * replace (Z.to_nat q =? Z.to_nat p)%nat with false; [reflexivity |].
        symmetry. apply Nat.eqb_neq. lia.
Qed.

Lemma array_get_ext (l l' : list Z) :
  List.length l = List.length l' ->
  (forall q, array_get l q = array_get l' q) -> l = l'.
Proof.
  intros Hlen Hget. apply nth_error_ext. intros i.
  specialize (Hget (Z.of_nat i)). unfold array_get in Hget.
  destruct (Z.ltb_spec (Z.of_nat i) 0) as [Hneg | _]; [lia |].
  now rewrite Nat2Z.id in Hget.
Qed.

Lemma score_gain (parity : option Parity) (pts : list Z)
      (p : Player) (m : SimpleMove) :
  score parity pts (p, m) = array_add pts p (gain parity m).
Proof.
  apply array_get_ext.
  - unfold score. destruct (gamble m), parity as [par |];
      try destruct (Parity_eqb (guess m) par);
      now rewrite ?array_add_length.
  - intros q. unfold score, gain, right_guess.
    destruct (gamble m), parity as [par |];
      try destruct (Parity_eqb (guess m) par);
      rewrite ?array_add_get; destruct (q =? p);
      try reflexivity; destruct (array_get pts q); simpl;
      try reflexivity; f_equal; lia.
Qed.

Lemma get_absent (moves : JsMap.t SimpleMove) (q : Player) :
  ~ In q (JsMap.keys moves) -> JsMap.get moves q = None.
Proof.
  induction moves as [| [k m] moves IH]; simpl; intros Hout; [reflexivity |].
  destruct (Z.eqb_spec q k) as [-> | Hne]; [exfalso; apply Hout; now left |].
  apply IH. intros Hin. apply Hout. now right.
Qed.

Lemma scored_points (parity : option Parity) (moves : JsMap.t SimpleMove)
      (pts : list Z) (q : Player) :
  NoDup (JsMap.keys moves) ->
  List.length (fold_left (score parity) moves pts) = List.length pts /\
  array_get (fold_left (score parity) moves pts) q
  = match JsMap.get moves q with
    | Some m => option_map (fun v => v + gain parity m) (array_get pts q)
    | None => array_get pts q
    end.
Proof.
  revert pts. induction moves as [| [k m] moves IH]; intros pts Hnodup.
  - now split.
  - simpl in Hnodup. inversion Hnodup as [| ? ? Hfresh Hrest]; subst.
    cbn [fold_left]. destruct (IH (score parity pts (k, m)) Hrest) as [Hlen Hget].
    rewrite Hlen, Hget, score_gain, array_add_length, array_add_get.
    split; [reflexivity |]. simpl.
    destruct (Z.eqb_spec q k) as [-> | Hne]; [| reflexivity].
    now rewrite (get_absent moves k Hfresh).
Qed.

Lemma processTurn_points (o : SimpleOptions) (moves : JsMap.t SimpleMove)
      (s : Fields) :
  points (fst (processTurn o moves s))
  = fold_left (score (highRollsParity s)) moves (points s).
Proof.
  unfold processTurn. cbn [points].
  destruct (List.length (getWinners o _) =? 0)%nat; reflexivity.
Qed.

(** X10. Called, as the engine calls it, with the roll arrays in place (not
    [null]) and on a map whose players all have an entry of points,
    [processTurn] changes the points of the players of the map and of nobody
    else: a right guess adds 1, a wrong one nothing, a gamble adds 3 when the
    guess is right and takes 1 when it is wrong. The array keeps its
    length. *)
Theorem processTurn_scores_each_submitted_move :
  forall (o : SimpleOptions) (moves : JsMap.t SimpleMove) (s : Fields)
         (pub priv : list Z) (q : Player),
    publicRolls s = Some pub ->
    privateRolls s = Some priv ->
    NoDup (JsMap.keys moves) ->
    Forall (fun k => 0 <= k < Z.of_nat (List.length (points s)))
           (JsMap.keys moves) ->
    List.length (points (fst (processTurn o moves s))) = List.length (points s) /\
    (JsMap.get moves q = None ->
     array_get (points (fst (processTurn o moves s))) q
     = array_get (points s) q) /\
    (forall (m : SimpleMove) (v : Z),
       JsMap.get moves q = Some m ->
       array_get (points s) q = Some v ->
       array_get (points (fst (processTurn o moves s))) q
       = Some (v + if gamble m
                   then (if right_guess (highRollsParity s) m then 3 else -1)
                   else (if right_guess (highRollsParity s) m then 1 else 0))).
Proof.
  intros o moves s pub priv q _ _ Hnodup _. rewrite processTurn_points.
  destruct (scored_points (highRollsParity s) moves (points s) q Hnodup)
    as [Hlen Hget].
  split; [exact Hlen |]. split.
  - intros Hnone. now rewrite Hget, Hnone.
  - intros m v Hsome Hv. rewrite Hget, Hsome, Hv. simpl. f_equal. f_equal.
    unfold gain. destruct (gamble m), (right_guess (highRollsParity s) m);
      reflexivity.
Qed.

(** *** Options and moves *)

Lemma rounds_of_integer (n : Z) : rounds (inject_Z n) = Z.to_nat n.
Proof. unfold rounds. now rewrite Qceiling_Z. Qed.

(** X11. [sanitizeOptions], on an argument of type [any], throws an
    InvalidOptionsError showing the argument exactly when [numPlayers] is
    not a number or is a number below 1. What it returns has the floor of
    the [numPlayers] given, and a [numPoints] of at least 1: the one given
    if that is a number of at least 1, else 10. For a finite [numPlayers] of
    at least 1 the floor is a whole number of at least 1; but [NaN], which
    is a number and is not below 1, is let through as [NaN], and so is the
    positive infinity. On options whose [numPlayers] is a finite number the
    method is [SimpleGame.sanitizeOptions]. *)
Theorem sanitizeOptions_floors_and_defaults :
  forall options : SimpleGameAny.RawOptions,
    let result := SimpleGameAny.sanitizeOptions options in
    ((SimpleGameAny.numPlayers options = Js.NotNumber \/
      exists n, SimpleGameAny.numPlayers options = Js.Number n /\
                Js.ltb n (1 # 1) = true) <->
     exists e, result = inl e) /\
    (forall e,
       result = inl e ->
       cls e = InvalidOptionsError /\ reports e (AnyOptions options) /\
       reports e (AnyString
                    match SimpleGameAny.numPlayers options with
                    | Js.NotNumber =>
                        "options must specify the number of players"
                    | Js.Number _ => "number of players must be at least 1"
                    end)) /\
    (forall r,
       result = inr r ->
       exists n,
         SimpleGameAny.numPlayers options = Js.Number n /\
         SimpleGameAny.s_numPlayers r = Js.floor n /\
         Js.geb (SimpleGameAny.s_numPoints r) (1 # 1) = true /\
         (forall p, SimpleGameAny.numPoints options = Js.Number p ->
                    Js.geb p (1 # 1) = true ->
                    SimpleGameAny.s_numPoints r = p) /\
         (SimpleGameAny.numPoints options = Js.NotNumber \/
          (exists p, SimpleGameAny.numPoints options = Js.Number p /\
                     Js.geb p (1 # 1) = false) ->
          SimpleGameAny.s_numPoints r = Js.Finite (10 # 1))) /\
    (forall q,
       SimpleGameAny.numPlayers options = Js.Number (Js.Finite q) ->
       (1 <= q)%Q ->
       exists r z,
         result = inr r /\ SimpleGameAny.s_numPlayers r = Js.Whole z /\
         1 <= z /\ (inject_Z z <= q)%Q /\ (q < inject_Z (z + 1))%Q) /\
    (SimpleGameAny.numPlayers options = Js.Number Js.NaN ->
     exists r, result = inr r /\ SimpleGameAny.s_numPlayers r = Js.NaNWhole) /\
    (SimpleGameAny.numPlayers options = Js.Number (Js.Infinity false) ->
     exists r, result = inr r /\
               SimpleGameAny.s_numPlayers r = Js.InfinityWhole false) /\
    (forall o : SimpleOptions,
       options = SimpleGameAny.of_options o ->
       match sanitizeOptions o, result with
       | inr o', inr r => SimpleGameAny.same_options o' r
       | inl e, inl e' =>
           cls e = cls e' /\
           reports e (AnyString "number of players must be at least 1") /\
           reports e' (AnyString "number of players must be at least 1")
       | _, _ => False
       end).
Proof.
  intros options result. subst result. unfold SimpleGameAny.sanitizeOptions.
  split; [| split; [| split; [| split; [| split; [| split]]]]].
  - split.
    + intros [-> | [n [-> ->]]]; eexists; reflexivity.
    + destruct (SimpleGameAny.numPlayers options) as [| n]; [now left |].
      destruct (Js.ltb n (1 # 1)) eqn:Hlow.
      * intros _. right. now exists n.
      * intros [e He]. discriminate.
  - intros e.
    destruct (SimpleGameAny.numPlayers options) as [| n];
      [| destruct (Js.ltb n (1 # 1)); [| discriminate]];
      intros He; injection He as <-; (split; [reflexivity |]);
      unfold reports; simpl; tauto.
  - intros r.
    destruct (SimpleGameAny.numPlayers options) as [| n]; [discriminate |].
    destruct (Js.ltb n (1 # 1)); [discriminate |].
    intros Hr. injection Hr as <-. exists n. cbn.
    split; [reflexivity |]. split; [reflexivity |].
    destruct (SimpleGameAny.numPoints options) as [| p].
    + split; [reflexivity |]. split; [discriminate | reflexivity].
    + destruct (Js.geb p (1 # 1)) eqn:Hp.
      * split; [assumption |]. split; [intros p0 [= <-] _; reflexivity |].
        intros [Hno | [p0 [[= <-] Hp0]]]; congruence.
      * split; [reflexivity |]. split; [intros p0 [= <-] Hp0; congruence |].
        reflexivity.
  - intros q -> Hone. cbn [Js.ltb].
    pose proof Hone as Hle. apply Qle_bool_iff in Hle. rewrite Hle.
    cbn [negb]. eexists. exists (Qfloor q). split; [reflexivity |].
    cbn. split; [reflexivity |].
    split; [change 1 with (Qfloor (inject_Z 1)); now apply Qfloor_resp_le |].
    split; [apply Qfloor_le | apply Qlt_floor].
  - intros ->. cbn. eexists. split; reflexivity.
  - intros ->. cbn. eexists. split; reflexivity.
  - intros o ->. unfold sanitizeOptions, SimpleGameAny.of_options.
    cbn [SimpleGameAny.numPlayers SimpleGameAny.numPoints Js.ltb].
    destruct (Qle_bool (1 # 1) (numPlayers o)); cbn [negb].
    + unfold SimpleGameAny.same_options. cbn. split.
      * exists (Qfloor (numPlayers o)). now split.
      * destruct (numPoints o) as [q0 |]; cbn.
        -- destruct (Qle_bool (1 # 1) q0); eexists; split; reflexivity.
        -- eexists. split; reflexivity.
    + unfold reports. cbn. tauto.
Qed.

(** X12. [sanitizeMove] accepts a move exactly when its guess is "even" or
    "odd"; the move it returns keeps the guess and the truth of [gamble],
    and handed to [sanitizeMove] again it comes back unchanged. Any other
    guess is refused with an InvalidMoveError that shows the move. *)
Theorem sanitizeMove_accepts_even_and_odd :
  forall (raw : RawMove),
    ((raw_guess raw = "even" \/ raw_guess raw = "odd") <->
     exists m, sanitizeMove raw = inr m) /\
    (forall m,
       sanitizeMove raw = inr m ->
       raw_guess (as_raw m) = raw_guess raw /\
       gamble m = raw_gamble raw /\
       sanitizeMove (as_raw m) = inr m) /\
    (forall e,
       sanitizeMove raw = inl e ->
       cls e = InvalidMoveError /\ reports e (AnyRaw raw)).
Proof.
  intros raw. unfold sanitizeMove.
  destruct (String.eqb_spec (raw_guess raw) "even") as [Heven | Hne];
    [| destruct (String.eqb_spec (raw_guess raw) "odd") as [Hodd | Hno]].
  - split; [split; [intros _; eexists; reflexivity | now left] |]. split.
    + intros m [= <-]. now rewrite Heven.
    + discriminate.
  - split; [split; [intros _; eexists; reflexivity | now right] |]. split.
    + intros m [= <-]. now rewrite Hodd.
    + discriminate.
  - split; [split; [intros [H | H]; contradiction | intros [m Hm]; discriminate] |].
    split; [discriminate |].
    intros e [= <-]. split; [reflexivity |]. unfold reports. simpl. tauto.
Qed.

Lemma same_roll_iff (a b : option Z) : same_roll a b = true <-> a = b.
Proof.
  destruct a as [x |], b as [y |]; simpl; try (split; congruence).
  rewrite Z.eqb_eq. split; congruence.
Qed.

(** X13. With the rolls in place, [assertMoveIsLegal] accepts every move
    that is not a gamble, and accepts a gamble exactly when the public and
    the private roll of the player are the same (both missing, for a player
    outside the arrays, counts as the same). What it throws then is an
    IllegalMoveError that shows the move and the player. *)
Theorem assertMoveIsLegal_only_checks_gambles :
  forall (s : Fields) (m : SimpleMove) (p : Player) (pub priv : list Z),
    publicRolls s = Some pub ->
    privateRolls s = Some priv ->
    (gamble m = false -> assertMoveIsLegal s m p = inr tt) /\
    (gamble m = true ->
     (assertMoveIsLegal s m p = inr tt <-> array_get pub p = array_get priv p)) /\
    (forall e,
       assertMoveIsLegal s m p = inl e ->
       cls e = IllegalMoveError /\
       reports e (AnyMove m) /\ reports e (AnyNumber p)).
Proof.
  intros s m p pub priv Hpub Hpriv. unfold assertMoveIsLegal.
  rewrite Hpub, Hpriv.
  pose proof (same_roll_iff (array_get pub p) (array_get priv p)) as Hsame.
  destruct (same_roll (array_get pub p) (array_get priv p)), (gamble m); simpl.
  - split; [discriminate |]. split; [| discriminate].
    intros _. split; [intros _; now apply Hsame | reflexivity].
  - split; [reflexivity |]. split; discriminate.
  - split; [discriminate |]. split.
    + intros _. split; [discriminate |]. intros Heq. apply Hsame in Heq.
      discriminate.
    + intros e [= <-]. split; [reflexivity |]. unfold reports. simpl. tauto.
  - split; [reflexivity |]. split; discriminate.
Qed.

End DiceFacts.

(** ** The dice game under the engine *)
Module DiceGameFacts.
Import SimpleGame More Examples DiceFacts.

Local Abbreviation simple := SimpleGame.rules.

Lemma sanitizeOptions_result (o o' : SimpleOptions) :
  sanitizeOptions o = inr o' ->
  exists (n : Z) (q : Q),
    o' = mkOptions (inject_Z n) (Some q) /\ 1 <= n /\ (1 <= q)%Q.
Proof.
  unfold sanitizeOptions.
  destruct (Qle_bool (1 # 1) (numPlayers o)) eqn:Hle; [| discriminate].
  simpl. intros [= <-]. apply Qle_bool_iff in Hle.
  eexists. eexists. split; [reflexivity |]. split.
  - change 1 with (Qfloor (inject_Z 1)). now apply Qfloor_resp_le.
  - destruct (numPoints o) as [q0 |]; [| discriminate].
    destruct (Qle_bool (1 # 1) q0) eqn:Hq0;
      [now apply Qle_bool_iff | discriminate].
Qed.

Lemma getWinners_of_points (o : SimpleOptions) (s s' : Fields) :
  points s' = points s -> getWinners o s' = getWinners o s.
Proof. intros Hpts. unfold getWinners. now rewrite Hpts. Qed.

Lemma nobody_wins_at_zero (o : SimpleOptions) (s : Fields) (n : nat) (q : Q) :
  numPoints o = Some q -> (1 <= q)%Q -> points s = repeat 0 n ->
  getWinners o s = [].
Proof.
  intros Hq Hone Hpts. unfold getWinners. rewrite filter_none; [reflexivity |].
  intros [i v] Hin. apply in_combine_r in Hin. rewrite Hpts in Hin.
  apply repeat_spec in Hin. simpl in *. subst v.
  unfold reached. rewrite Hq. apply not_true_is_false. intros Hle.
  apply Qle_bool_iff in Hle.
  assert (Hbad : (1 <= 0)%Q) by (eapply Qle_trans; eassumption).
  unfold Qle in Hbad. simpl in Hbad. lia.
Qed.

Lemma fold_score_length (parity : option Parity)
      (moves : JsMap.t SimpleMove) (pts : list Z) :
  List.length (fold_left (score parity) moves pts) = List.length pts.
Proof.
  revert pts. induction moves as [| [k m] moves IH]; intros pts;
    cbn [fold_left]; [reflexivity |].
  now rewrite IH, score_gain, array_add_length.
Qed.

(** What the other parts of the game need to know of [rollAllDice]. *)
Lemma rollAllDice_shape (o : SimpleOptions) (s : Fields) (n : nat) :
  rounds (numPlayers o) = n -> (1 <= n)%nat ->
  0 <= rollGenerator s < 127 ->
  (List.length (or_empty (privateRolls s)) <= n)%nat ->
  (List.length (or_empty (publicRolls s)) <= n)%nat ->
  exists pub priv,
    publicRolls (rollAllDice o s) = Some pub /\
    privateRolls (rollAllDice o s) = Some priv /\
    List.length pub = n /\ List.length priv = n /\
    highRollers (rollAllDice o s) <> [] /\
    Forall (fun p => 0 <= p < Z.of_nat n) (highRollers (rollAllDice o s)) /\
    points (rollAllDice o s) = points s /\
    lastPrivateRolls (rollAllDice o s) = lastPrivateRolls s /\
    0 <= rollGenerator (rollAllDice o s) < 127.
Proof.
  intros Hrounds Hn Hgen Hlp Hlb.
  pose (init := mkRolling (rollGenerator s) (or_empty (privateRolls s))
                          (or_empty (publicRolls s)) 0 []).
  assert (Hinit : rolled 0 (List.length (or_empty (privateRolls s)))
                         (List.length (or_empty (publicRolls s))) init).
  { unfold rolled, init. simpl. repeat split; intros; try lia; reflexivity. }
  pose proof (rolled_all n _ _ init Hinit)
    as (Hg & Hlenp & Hlenb & _ & _ & _ & _ & Hhigh & Hsome & _).
  unfold rollAllDice. rewrite Hrounds. fold init.
  set (r := fold_left roll_one (seq 0 n) init) in *.
  cbn [publicRolls privateRolls highRollers points lastPrivateRolls
       rollGenerator].
  exists (r_public r), (r_private r).
  split; [reflexivity |]. split; [reflexivity |].
  split; [lia |]. split; [lia |]. split; [apply Hsome; lia |].
  split; [| split; [reflexivity |]; split; [reflexivity |]; exact Hg].
  rewrite Hhigh. apply Forall_forall. intros p Hp.
  apply in_map_iff in Hp. destruct Hp as [i [<- Hi]].
  apply filter_In in Hi. destruct Hi as [Hi _]. apply in_seq in Hi. lia.
Qed.

Lemma charCodeSum_nonneg (seed : string) : 0 <= charCodeSum seed.
Proof. induction seed as [| c seed IH]; simpl; lia. Qed.

Lemma dice_consistent_same (g g' : SimpleGameObject) :
  options g' = options g -> self g' = self g -> updates g' = updates g ->
  dice_consistent g -> dice_consistent g'.
Proof.
  intros Ho Hs Hu. unfold dice_consistent, latest.
  now rewrite Ho, Hs, Hu.
Qed.

Lemma dice_consistent_new (o : SimpleOptions) (g : SimpleGameObject) :
  construct simple o = inr g -> dice_consistent g.
Proof.
  unfold construct. simpl.
  destruct (sanitizeOptions o) as [e | o'] eqn:Ho; [discriminate |].
  intros [= <-]. destruct (sanitizeOptions_result o o' Ho)
    as (n & q & -> & Hn & Hq).
  exists (Z.to_nat n). unfold latest. simpl.
  split; [lia |]. split; [now rewrite Z2Nat.id by lia |].
  split; [now exists q |].
  split; [now rewrite repeat_length, rounds_of_integer |].
  split; [lia | reflexivity].
Qed.

Lemma dice_consistent_start (seed : string) (g : SimpleGameObject) :
  dice_consistent g -> dice_consistent (fst (start simple seed g)).
Proof.
  intros Hg. destruct (started_dec g) as [Hus | Hstarted].
  2: { now rewrite (start_started simple seed g Hstarted). }
  rewrite (start_unstarted simple seed g Hus).
  destruct Hg as (n & Hn & Hplayers & (q & Hq & Hone) & Hpts & Hgen & Hlatest).
  rewrite (latest_empty g Hus) in Hlatest.
  assert (Hrounds : rounds (numPlayers (options g)) = n)
    by (rewrite Hplayers, rounds_of_integer; lia).
  cbn [Engine.initialize SimpleGame.rules].
  unfold SimpleGame.initialize.
  set (s0 := mkFields (Z.rem (charCodeSum seed) 127) (highRollers (self g))
                      (highRollsParity (self g)) (points (self g))
                      (publicRolls (self g)) (privateRolls (self g))
                      (lastPrivateRolls (self g))).
  assert (Hfresh : publicRolls s0 = Some [] /\ privateRolls s0 = Some [] /\
                   points s0 = repeat 0 n).
  { unfold s0. simpl. rewrite Hlatest. simpl. now rewrite Hrounds. }
  destruct Hfresh as (Hpub0 & Hpriv0 & Hpts0).
  destruct (rollAllDice_shape (options g) s0 n Hrounds Hn)
    as (pub & priv & Hpub & Hpriv & Hlpub & Hlpriv & Hsome & Hrange & Hsame
        & _ & Hgen');
    [ unfold s0; simpl; apply Z.rem_bound_pos; [apply charCodeSum_nonneg | lia]
    | rewrite Hpriv0; simpl; lia
    | rewrite Hpub0; simpl; lia |].
  set (s1 := rollAllDice (options g) s0) in *.
  assert (Hnone : getWinners (options g) s1 = []).
  { apply (nobody_wins_at_zero _ _ n q); try assumption. }
  unfold with_winners. cbn [toPlay currentUpdate].
  destruct (highRollers s1) as [| p0 rest] eqn:Hhigh; [contradiction |].
  cbn [List.length Nat.eqb fst snd]. exists n. unfold latest.
  cbn [updates options self fst snd last toPlay winners publicInfo privateInfo
       currentUpdate pu_publicRolls].
  split; [assumption |]. split; [assumption |]. split; [now exists q |].
  split; [now rewrite Hsame, Hpts0, repeat_length |].
  split; [assumption |]. split; [now rewrite Hhigh |].
  left. rewrite Hhigh. split; [discriminate |]. split; [assumption |].
  split; [reflexivity |]. exists pub, priv.
  rewrite Hpub, Hpriv. repeat split; try assumption.
Qed.

(** What [processTurn] leaves and returns, the rolls being in place. *)
Lemma processTurn_shape (o : SimpleOptions) (moves : JsMap.t SimpleMove)
      (s : Fields) (n : nat) (pub priv : list Z) :
  rounds (numPlayers o) = n -> (1 <= n)%nat ->
  0 <= rollGenerator s < 127 ->
  publicRolls s = Some pub -> privateRolls s = Some priv ->
  List.length pub = n -> List.length priv = n ->
  List.length (points s) = n ->
  let s' := fst (processTurn o moves s) in
  let u := snd (processTurn o moves s) in
  List.length (points s') = n /\
  0 <= rollGenerator s' < 127 /\
  toPlay u = highRollers s' /\
  winners u = None /\
  pu_lastPrivateRolls (publicInfo u) = Some priv /\
  pu_calls (publicInfo u)
  = Some (map (fun i => JsMap.get moves (Z.of_nat i)) (seq 0 n)) /\
  ((highRollers s' <> [] /\
    getWinners o s' = [] /\
    exists pub' priv',
      publicRolls s' = Some pub' /\ privateRolls s' = Some priv' /\
      List.length pub' = n /\ List.length priv' = n /\
      Forall (fun p => 0 <= p < Z.of_nat n) (highRollers s') /\
      pu_publicRolls (publicInfo u) = Some pub' /\
      privateInfo u = Some (map mkPrivate priv'))
   \/
   (highRollers s' = [] /\
    getWinners o s' <> [] /\
    pu_publicRolls (publicInfo u) = None /\
    privateInfo u = None)).
Proof.
  intros Hrounds Hn Hgen Hpub Hpriv Hlpub Hlpriv Hpts. cbv zeta.
  unfold processTurn. rewrite Hrounds, Hpriv.
  set (pts := fold_left (score (highRollsParity s)) moves (points s)).
  assert (Hlen : List.length pts = n)
    by (unfold pts; now rewrite fold_score_length).
  set (s1 := mkFields (rollGenerator s) (highRollers s) (highRollsParity s) pts
                      (publicRolls s) (Some priv) (Some (or_empty (Some priv)))).
  destruct (getWinners o s1) as [| w ws] eqn:Hwin.
  - cbn [List.length Nat.eqb fst snd].
    destruct (rollAllDice_shape o s1 n Hrounds Hn)
      as (pub' & priv' & Hpub' & Hpriv' & Hlpub' & Hlpriv' & Hsome & Hrange
          & Hsame & Hlast & Hgen');
      [ exact Hgen | simpl; lia | unfold s1; simpl; rewrite Hpub; simpl; lia |].
    set (s2 := rollAllDice o s1) in *.
    cbn [toPlay winners publicInfo privateInfo currentUpdate
         pu_lastPrivateRolls pu_calls pu_publicRolls].
    split; [now rewrite Hsame |]. split; [assumption |].
    split; [reflexivity |]. split; [reflexivity |].
    split; [now rewrite Hlast |]. split; [reflexivity |].
    left. split; [assumption |].
    split; [now rewrite (getWinners_of_points o s1 s2 Hsame) |].
    exists pub', priv'. rewrite Hpub', Hpriv'. repeat split; assumption.
  - cbn [List.length Nat.eqb fst snd toPlay winners publicInfo privateInfo
         currentUpdate pu_lastPrivateRolls pu_calls pu_publicRolls
         points rollGenerator highRollers publicRolls privateRolls
         lastPrivateRolls option_map].
    split; [assumption |]. split; [assumption |].
    split; [reflexivity |]. split; [reflexivity |].
    split; [reflexivity |]. split; [reflexivity |].
    right. split; [reflexivity |]. split; [| now split].
    change (getWinners o s1 <> []). rewrite Hwin. discriminate.
Qed.

Lemma dice_consistent_playMove (move : RawMove) (player : Player)
      (g : SimpleGameObject) :
  dice_consistent g -> dice_consistent (fst (playMove simple move player g)).
Proof.
  intros Hg. destruct (started_dec g) as [Hus | Hstarted].
  { now rewrite (playMove_unstarted simple move player g Hus). }
  rewrite (playMove_started simple move player g Hstarted).
  destruct (JsSet.size (JsSet.of_array (players g)) =? 0) eqn:Hsize;
    [assumption |].
  destruct (negb (JsSet.has (JsSet.of_array (players g)) player)); [assumption |].
  destruct (JsMap.has (pendingMoves g) player); [assumption |].
  cbn [Engine.sanitizeMove Engine.assertMoveIsLegal SimpleGame.rules].
  destruct (sanitizeMove move) as [e1 | sm].
  { now apply (dice_consistent_same g). }
  destruct (assertMoveIsLegal (self g) sm player) as [e2 | []].
  { now apply (dice_consistent_same g). }
  cbv zeta.
  destruct (JsSet.size (JsSet.of_array (players g)) =? JsMap.size _);
    [| now apply (dice_consistent_same g)].
  assert (Hsome : players g <> []).
  { intros Hnone. apply Z.eqb_neq in Hsize. apply Hsize.
    now apply JsFacts.of_array_empty_iff. }
  destruct Hg as (n & Hn & Hplayers & (q & Hq & Hone) & Hpts & Hgen & Hlatest).
  unfold players in Hsome. destruct (latest g) as [u |]; [| contradiction].
  destruct Hlatest as [Hto [Hon | Hover]].
  2: { destruct Hover as [Hnone _]. rewrite Hto, Hnone in Hsome. contradiction. }
  destruct Hon as (_ & _ & _ & pub & priv & Hpub & Hpriv & Hlpub & Hlpriv & _).
  assert (Hrounds : rounds (numPlayers (options g)) = n)
    by (rewrite Hplayers, rounds_of_integer; lia).
  set (pending := JsMap.set (pendingMoves g) player sm).
  cbn [Engine.processTurn SimpleGame.rules].
  pose proof (processTurn_shape (options g) pending (self g) n pub priv
                Hrounds Hn Hgen Hpub Hpriv Hlpub Hlpriv Hpts) as Hshape.
  cbv zeta in Hshape.
  destruct (processTurn (options g) pending (self g)) as [s3 u3].
  cbn [fst snd] in Hshape.
  destruct Hshape as (Hpts3 & Hgen3 & Hto3 & Hwin3 & _ & _ & Hcases).
  unfold with_winners, dice_consistent, latest.
  cbn [updates options self fst snd Engine.getWinners SimpleGame.rules].
  destruct (updates g ++ [_]) as [| first rest] eqn:Hupdates;
    [now destruct (updates g) |].
  assert (Hlast : last rest first
                  = snd (if (List.length (toPlay u3) =? 0)%nat
                         then (s3, set_winners u3 (getWinners (options g) s3))
                         else (s3, u3))).
  { assert (Hl : last (first :: rest) first = last rest first)
      by (destruct rest; reflexivity).
    rewrite <- Hl, <- Hupdates. apply last_last. }
  rewrite Hlast. exists n.
  destruct Hcases as [(Hsome3 & Hnone3 & pub' & priv' & Hrolls)
                     | (Hnone3 & Hwins3 & Hnull)].
  - destruct (toPlay u3) as [| p0 more] eqn:Hplay;
      [rewrite <- Hto3 in Hsome3; contradiction |].
    cbn [List.length Nat.eqb fst snd].
    split; [assumption |]. split; [assumption |]. split; [now exists q |].
    split; [assumption |]. split; [assumption |].
    split; [now rewrite Hplay |]. left.
    split; [assumption |]. split; [assumption |]. split; [assumption |].
    now exists pub', priv'.
  - rewrite Hto3, Hnone3. cbn [List.length Nat.eqb fst snd].
    split; [assumption |]. split; [assumption |]. split; [now exists q |].
    split; [assumption |]. split; [assumption |].
    split; [cbn; now rewrite Hto3 |]. right.
    split; [assumption |]. split; [assumption |]. split; [reflexivity |].
    exact Hnull.
Qed.

Lemma reachable_dice_consistent (g : SimpleGameObject) :
  reachable simple g -> dice_consistent g.
Proof.
  induction 1 as [o g Hnew | seed g _ IH | move player g _ IH].
  - now apply (dice_consistent_new o).
  - now apply dice_consistent_start.
  - now apply dice_consistent_playMove.
Qed.

(** X14. Take a dice game of at least one player ([numPlayers] is at least
    1; the [NaN] that [sanitizeOptions] lets through is not, and gives a game
    that nobody ever plays). In every state that a caller can reach after
    [start], the generator is from 0 to 126, the players to play are players
    of the game, and nobody is to play exactly when somebody has reached
    [numPoints]: then the latest update names those winners and shows no
    rolls, and otherwise it names no winner and shows a public and a private
    roll for every player. *)
Theorem dice_game_ends_exactly_when_someone_wins :
  forall (g : SimpleGameObject),
    reachable simple g ->
    (1 <= numPlayers (options g))%Q ->
    updates g <> [] ->
    exists u (n : nat),
      latest g = Some u /\
      0 <= rollGenerator (self g) < 127 /\
      (1 <= n)%nat /\ numPlayers (options g) = inject_Z (Z.of_nat n) /\
      Forall (fun p => 0 <= p < Z.of_nat n) (toPlay u) /\
      (toPlay u = [] <-> getWinners (options g) (self g) <> []) /\
      (toPlay u = [] ->
       winners u = Some (getWinners (options g) (self g)) /\
       pu_publicRolls (publicInfo u) = None /\ privateInfo u = None) /\
      (toPlay u <> [] ->
       winners u = None /\
       exists pub priv,
         pu_publicRolls (publicInfo u) = Some pub /\
         privateInfo u = Some priv /\
         List.length pub = n /\ List.length priv = n).
Proof.
  intros g Hreach _ Hstarted.
  destruct (reachable_dice_consistent g Hreach)
    as (n & Hn & Hplayers & _ & _ & Hgen & Hlatest).
  destruct (latest_started g Hstarted) as [u Hu]. rewrite Hu in Hlatest.
  exists u, n. split; [assumption |]. split; [assumption |].
  split; [assumption |]. split; [assumption |].
  destruct Hlatest as [Hto [(Hsome & Hnone & Hwin & pub & priv & Hrolls)
                          | (Hnone & Hwins & Hwin & Hnull)]].
  - destruct Hrolls as (_ & _ & Hlpub & Hlpriv & Hrange & Hpub & Hpriv).
    rewrite Hto. split; [assumption |]. split; [| split].
    + split; [contradiction | intros Hw; now rewrite Hnone in Hw].
    + contradiction.
    + intros _. split; [assumption |].
      exists pub, (map mkPrivate priv). rewrite length_map. now repeat split.
  - rewrite Hto, Hnone. split; [constructor |]. split; [| split].
    + now split.
    + intros _. now split.
    + contradiction.
Qed.

Lemma array_get_map_private (priv : list Z) (p : Player) :
  option_map privateRoll (array_get (map mkPrivate priv) p) = array_get priv p.
Proof.
  unfold array_get. destruct (p <? 0); [reflexivity |].
  rewrite nth_error_map. now destruct (nth_error priv (Z.to_nat p)).
Qed.

Lemma sanitizeMove_ok (raw : RawMove) :
  raw_guess raw = "even" \/ raw_guess raw = "odd" ->
  exists sm, sanitizeMove raw = inr sm /\ gamble sm = raw_gamble raw.
Proof.
  intros [Hg | Hg]; unfold sanitizeMove; rewrite Hg; simpl;
    eexists; split; reflexivity.
Qed.

(** X15. In a reachable dice game, a player who is to play and has not
    submitted is never refused a well-formed guess without a gamble; a
    gamble is accepted exactly when, in the latest update, the public roll
    of the player equals the private roll of the player, and is refused with
    an IllegalMoveError otherwise. *)
Theorem dice_game_accepts_guesses_and_checks_gambles :
  forall (g : SimpleGameObject) (raw : RawMove) (p : Player),
    reachable simple g ->
    In p (players g) ->
    ~ In p (submitted g) ->
    raw_guess raw = "even" \/ raw_guess raw = "odd" ->
    (raw_gamble raw = false ->
     exists g' (b : bool), playMove simple raw p g = (g', inr b)) /\
    (raw_gamble raw = true ->
     exists u pub priv,
       latest g = Some u /\
       pu_publicRolls (publicInfo u) = Some pub /\
       privateInfo u = Some priv /\
       (array_get pub p = option_map privateRoll (array_get priv p) ->
        exists g' (b : bool), playMove simple raw p g = (g', inr b)) /\
       (array_get pub p <> option_map privateRoll (array_get priv p) ->
        exists g' e, playMove simple raw p g = (g', inl e) /\
                     cls e = IllegalMoveError)).
Proof.
  intros g raw p Hreach Hin Hfresh Hguess.
  destruct (reachable_dice_consistent g Hreach)
    as (n & _ & _ & _ & _ & _ & Hlatest).
  assert (Hstarted : updates g <> []).
  { intros Hus. rewrite (players_empty g Hus) in Hin. destruct Hin. }
  unfold players in Hin. destruct (latest g) as [u |] eqn:Hu; [| destruct Hin].
  destruct Hlatest as [Hto [(_ & _ & _ & pub & priv & Hrolls) | (Hnone & _)]].
  2: { rewrite Hto, Hnone in Hin. destruct Hin. }
  destruct Hrolls as (Hpub & Hpriv & _ & _ & _ & Hupub & Hupriv).
  assert (Hin' : In p (players g)) by (unfold players; now rewrite Hu).
  destruct (sanitizeMove_ok raw Hguess) as [sm [Hsm Hgamble]].
  assert (Hs : Engine.sanitizeMove simple (options g) raw (self g)
               = (self g, inr sm)) by (cbn; now rewrite Hsm).
  assert (Haccept : assertMoveIsLegal (self g) sm p = inr tt ->
                    exists g' (b : bool), playMove simple raw p g = (g', inr b)).
  { intros Hlegal.
    assert (Hl : Engine.assertMoveIsLegal simple (options g) sm p (self g)
                 = (self g, inr tt)) by (cbn; now rewrite Hlegal).
    rewrite (playMove_valid simple g raw p sm _ _ Hstarted Hin' Hfresh Hs Hl).
    cbv zeta. destruct (_ =? _)%nat.
    - destruct (Engine.processTurn simple (options g) _ (self g)).
      eexists. eexists. reflexivity.
    - eexists. eexists. reflexivity. }
  split.
  - intros Hplain. apply Haccept. unfold assertMoveIsLegal.
    rewrite Hpub, Hpriv, Hgamble, Hplain. now rewrite andb_false_r.
  - intros Hbet. exists u, pub, (map mkPrivate priv).
    split; [reflexivity |]. split; [assumption |]. split; [assumption |].
    rewrite array_get_map_private. split.
    + intros Hsame. apply Haccept. unfold assertMoveIsLegal.
      rewrite Hpub, Hpriv. apply same_roll_iff in Hsame. now rewrite Hsame.
    + intros Hdiff.
      assert (Hno : same_roll (array_get pub p) (array_get priv p) = false).
      { apply not_true_is_false. intros Hyes. now apply same_roll_iff in Hyes. }
      rewrite (playMove_started simple raw p g Hstarted).
      destruct (JsSet.size (JsSet.of_array (players g)) =? 0) eqn:Hsize.
      { apply Z.eqb_eq, JsFacts.of_array_empty_iff in Hsize.
        rewrite Hsize in Hin'. destruct Hin'. }
      replace (JsSet.has (JsSet.of_array (players g)) p) with true
        by (symmetry; apply JsFacts.set_has_iff; now rewrite JsFacts.of_array_in).
      replace (JsMap.has (pendingMoves g) p) with false
        by (symmetry; now apply JsFacts.map_has_false_iff).
      simpl negb. cbv iota. rewrite Hs.
      cbn [Engine.assertMoveIsLegal SimpleGame.rules].
      unfold assertMoveIsLegal. rewrite Hpub, Hpriv, Hno, Hgamble, Hbet.
      simpl. eexists. eexists. split; reflexivity.
Qed.

Lemma charCodeSum_app (a b : string) :
  charCodeSum (a ++ b) = charCodeSum a + charCodeSum b.
Proof.
  induction a as [| c a IH]; simpl; [reflexivity | rewrite IH; lia].
Qed.

Lemma roll_ones (n : nat) (init : Rolling) :
  r_gen init = 0 -> r_highest init = 0 -> r_high init = [] ->
  let r := fold_left roll_one (seq 0 n) init in
  r_gen r = 0 /\
  List.length (r_private r) = Nat.max (List.length (r_private init)) n /\
  List.length (r_public r) = Nat.max (List.length (r_public init)) n /\
  (forall i, (i < n)%nat -> nth i (r_private r) 0 = 1) /\
  (forall i, (i < n)%nat -> nth i (r_public r) 0 = 1) /\
  r_highest r = match n with O => 0 | Datatypes.S _ => 1 end /\
  r_high r = map Z.of_nat (seq 0 n).
Proof.
  intros Hgen Hhighest Hhigh. induction n as [| k IH].
  - simpl. repeat split; try assumption; try lia; intros; lia.
  - rewrite seq_S, fold_left_app. cbn [fold_left Nat.add].
    destruct IH as (Hg & Hlp & Hlb & Hpriv & Hpub & Hbest & Hlist).
    set (r := fold_left roll_one (seq 0 k) init) in *.
    assert (Hone : roll_one r k
                   = mkRolling 0 (array_set (r_private r) k 1)
                               (array_set (r_public r) k 1) 1
                               (map Z.of_nat (seq 0 k) ++ [Z.of_nat k])).
    { unfold roll_one. rewrite Hg, Hbest, Hlist. clearbody r.
      destruct k; reflexivity. }
    rewrite Hone.
    cbn [r_gen r_private r_public r_highest r_high].
    split; [reflexivity |].
    split; [rewrite array_set_length; lia |].
    split; [rewrite array_set_length; lia |].
    split; [| split].
    + intros i Hi. destruct (Nat.eq_dec i k) as [-> | Hne].
      * apply array_set_nth_same. lia.
      * rewrite array_set_nth_below by lia. apply Hpriv. lia.
    + intros i Hi. destruct (Nat.eq_dec i k) as [-> | Hne].
      * apply array_set_nth_same. lia.
      * rewrite array_set_nth_below by lia. apply Hpub. lia.
    + split; [reflexivity |]. now rewrite map_app.
Qed.

Lemma all_ones (l : list Z) (n : nat) :
  List.length l = n -> (forall i, (i < n)%nat -> nth i l 0 = 1) ->
  l = repeat 1 n.
Proof.
  intros Hlen Hall. apply (nth_ext _ _ 0 0).
  - now rewrite repeat_length.
  - intros i Hi. rewrite Hall by lia. symmetry. apply nth_repeat_lt. lia.
Qed.

Lemma even_of_nat (n : nat) : Z.even (Z.of_nat n) = Nat.even n.
Proof.
  destruct (Nat.even n) eqn:He.
  - apply Nat.even_spec in He. destruct He as [m ->].
    apply Z.even_spec. exists (Z.of_nat m). lia.
  - assert (Ho : Nat.odd n = true) by (now rewrite <- Nat.negb_even, He).
    apply Nat.odd_spec in Ho. destruct Ho as [m ->].
    rewrite <- Z.negb_odd. replace (Z.odd _) with true; [reflexivity |].
    symmetry. apply Z.odd_spec. exists (Z.of_nat m). lia.
Qed.

Lemma private_sum_ones (n k : nat) :
  (k <= n)%nat ->
  private_sum (repeat 1 n) (map Z.of_nat (seq 0 k)) = Z.of_nat k.
Proof.
  intros Hk. unfold private_sum. rewrite map_map.
  induction k as [| k IH]; [reflexivity |].
  rewrite seq_S, map_app, fold_right_app. cbn [map fold_right Nat.add].
  rewrite Nat2Z.id, nth_repeat_lt by lia.
  assert (Hshift : forall l a,
             fold_right Z.add a l = a + fold_right Z.add 0 l).
  { induction l as [| x l IHl]; intros a; simpl; [lia |].
    rewrite (IHl a). lia. }
  rewrite Hshift, IH by lia. lia.
Qed.

(** X16. With the roll arrays in place (not [null]), the seed enters the
    dice game only through the sum of its character codes: two seeds made of
    the same pieces in another order start the same game. When that sum is a
    multiple of 127, as for the empty seed, every roll of every round is a
    1: the generator stays at 0, every player is a high roller, and the
    parity to guess is that of the number of players. *)
Theorem seed_counts_through_its_character_sum :
  forall (o : SimpleOptions) (s : Fields) (pub0 priv0 : list Z),
    privateRolls s = Some priv0 ->
    publicRolls s = Some pub0 ->
    (forall a b : string,
        initialize o (a ++ b) s = initialize o (b ++ a) s) /\
    (forall seed : string,
        Z.rem (charCodeSum seed) 127 = 0 ->
        rollGenerator (fst (initialize o seed s)) = 0 /\
        fst (initialize o seed s)
        = rollAllDice o (mkFields 0 (highRollers s) (highRollsParity s)
                                  (points s) (publicRolls s) (privateRolls s)
                                  (lastPrivateRolls s))) /\
    (let n := rounds (numPlayers o) in
     rollGenerator s = 0 ->
     (List.length priv0 <= n)%nat ->
     (List.length pub0 <= n)%nat ->
     rollGenerator (rollAllDice o s) = 0 /\
     publicRolls (rollAllDice o s) = Some (repeat 1 n) /\
     privateRolls (rollAllDice o s) = Some (repeat 1 n) /\
     highRollers (rollAllDice o s) = map Z.of_nat (seq 0 n) /\
     highRollsParity (rollAllDice o s)
     = Some (if Nat.even n then even else odd)).
Proof.
  intros o s pub0 priv0 Hpriv0 Hpub0.
  split; [| split].
  - intros a b. unfold initialize.
    rewrite !charCodeSum_app, Z.add_comm. reflexivity.
  - intros seed Hzero. unfold initialize. rewrite Hzero. cbn [fst].
    split; [| reflexivity].
    unfold rollAllDice. cbn [rollGenerator].
    match goal with
    | |- r_gen (fold_left roll_one (seq 0 ?n) ?init) = 0 =>
        now destruct (roll_ones n init eq_refl eq_refl eq_refl) as (Hg & _)
    end.
  - intros n Hgen Hlp Hlb.
    pose (init := mkRolling (rollGenerator s) (or_empty (privateRolls s))
                            (or_empty (publicRolls s)) 0 []).
    destruct (roll_ones n init Hgen eq_refl eq_refl)
      as (Hg & Hlenp & Hlenb & Hpriv & Hpub & _ & Hhigh).
    unfold rollAllDice. fold n. fold init.
    set (r := fold_left roll_one (seq 0 n) init) in *.
    cbn [rollGenerator publicRolls privateRolls highRollers highRollsParity].
    cbn [init r_private r_public] in Hlenp, Hlenb.
    rewrite Hpriv0 in Hlenp. rewrite Hpub0 in Hlenb.
    cbn [or_empty] in Hlenp, Hlenb.
    assert (Hprivs : r_private r = repeat 1 n)
      by (apply all_ones; [lia | exact Hpriv]).
    assert (Hpubs : r_public r = repeat 1 n)
      by (apply all_ones; [lia | exact Hpub]).
    split; [exact Hg |]. split; [now rewrite Hpubs |].
    split; [now rewrite Hprivs |]. split; [exact Hhigh |].
    rewrite private_sum_fold.
    2: { rewrite Hhigh. apply Forall_forall. intros p Hp.
         apply in_map_iff in Hp. destruct Hp as [i [<- _]]. lia. }
    rewrite Hhigh, Hprivs, private_sum_ones, rem_2_even by lia.
    simpl Z.add. now rewrite even_of_nat.
Qed.

(** X22. A dice game of at least one player never ends at [start]: on a
    game just constructed from options whose [numPlayers] is at least 1
    (which [NaN] is not, though [sanitizeOptions] lets it through), [start]
    returns, and its one update lists at least one player to play, names no
    winner, and has neither calls nor last private rolls; every player has 0
    points and [getWinners] finds nobody. *)
Theorem dice_game_starts_with_someone_to_play :
  forall (o : SimpleOptions) (g : SimpleGameObject) (seed : string),
    (1 <= numPlayers o)%Q ->
    construct simple o = inr g ->
    exists g' u,
      start simple seed g = (g', inr tt) /\
      updates g' = [u] /\
      toPlay u <> [] /\ winners u = None /\
      pu_calls (publicInfo u) = None /\
      pu_lastPrivateRolls (publicInfo u) = None /\
      points (self g') = repeat 0 (rounds (numPlayers (options g))) /\
      getWinners (options g') (self g') = [].
Proof.
  intros o g seed _ Hnew.
  destruct (dice_consistent_new o g Hnew)
    as (n & Hn & Hplayers & (q & Hq & Hone) & Hpts & Hgen & Hlatest).
  assert (Hus : updates g = []).
  { unfold construct in Hnew.
    destruct (Engine.sanitizeOptions simple o); [discriminate |].
    now injection Hnew as <-. }
  rewrite (latest_empty g Hus) in Hlatest.
  rewrite (start_unstarted simple seed g Hus).
  assert (Hrounds : rounds (numPlayers (options g)) = n)
    by (rewrite Hplayers, rounds_of_integer; lia).
  cbn [Engine.initialize SimpleGame.rules].
  unfold SimpleGame.initialize.
  set (s0 := mkFields (Z.rem (charCodeSum seed) 127) (highRollers (self g))
                      (highRollsParity (self g)) (points (self g))
                      (publicRolls (self g)) (privateRolls (self g))
                      (lastPrivateRolls (self g))).
  assert (Hfresh : publicRolls s0 = Some [] /\ privateRolls s0 = Some [] /\
                   points s0 = repeat 0 n /\ lastPrivateRolls s0 = None).
  { unfold s0. simpl. rewrite Hlatest. simpl. now rewrite Hrounds. }
  destruct Hfresh as (Hpub0 & Hpriv0 & Hpts0 & Hlast0).
  destruct (rollAllDice_shape (options g) s0 n Hrounds Hn)
    as (pub & priv & _ & _ & _ & _ & Hsome & _ & Hsame & Hlast & _);
    [ unfold s0; simpl; apply Z.rem_bound_pos; [apply charCodeSum_nonneg | lia]
    | rewrite Hpriv0; simpl; lia
    | rewrite Hpub0; simpl; lia |].
  set (s1 := rollAllDice (options g) s0) in *.
  assert (Hnone : getWinners (options g) s1 = []).
  { apply (nobody_wins_at_zero _ _ n q); try assumption. }
  unfold with_winners. cbn [toPlay currentUpdate].
  destruct (highRollers s1) as [| p0 rest] eqn:Hhigh; [contradiction |].
  cbn [List.length Nat.eqb fst snd]. eexists. eexists.
  split; [reflexivity |].
  cbn [updates options self toPlay winners publicInfo pu_calls
       pu_lastPrivateRolls].
  split; [reflexivity |].
  cbn [currentUpdate toPlay winners publicInfo pu_calls pu_lastPrivateRolls].
  rewrite Hhigh. split; [discriminate |]. split; [reflexivity |].
  split; [reflexivity |]. split; [congruence |].
  split; [congruence | assumption].
Qed.

End DiceGameFacts.

(** ** The abstract strategy games *)
Module StrategyGameFacts.
Import AbstractStrategyGame More.

Section WithSubclass.
Context {O Raw M T : Type}.
Context (C : Subclass O Raw M T).

Local Abbreviation R := (AbstractStrategyGame.rules C).
Local Abbreviation Game := (Game O Raw M (option M) unit (Fields M T)).

Implicit Types (g : Game) (raw : Raw) (p : Player).

Lemma strategy_consistent_same g g' :
  pendingMoves g' = pendingMoves g -> updates g' = updates g ->
  moves (self g') = moves (self g) ->
  strategy_consistent g -> strategy_consistent g'.
Proof.
  intros Hp Hu Hm. unfold strategy_consistent, latest, turn.
  now rewrite Hp, Hu, Hm.
Qed.

Lemma strategy_consistent_new (o : O) g :
  construct R o = inr g -> strategy_consistent g.
Proof.
  unfold construct. destruct (Engine.sanitizeOptions R o); [discriminate |].
  intros Hnew. injection Hnew as <-. now split.
Qed.

Lemma strategy_consistent_start (seed : string) g :
  strategy_consistent g -> strategy_consistent (fst (start R seed g)).
Proof.
  intros Hg. destruct (started_dec g) as [Hus | Hstarted].
  2: { now rewrite (start_started R seed g Hstarted). }
  rewrite (start_unstarted R seed g Hus).
  destruct Hg as [Hpending Hlatest]. rewrite (latest_empty g Hus) in Hlatest.
  cbn. split; [assumption |]. unfold latest. cbn.
  rewrite Hlatest. split; [reflexivity |]. split; [constructor |].
  split; [reflexivity |]. left. unfold turn. rewrite Hlatest. now split.
Qed.

(** The player to play, in a running game, is the only member of the set of
    players. *)
Lemma only_player (t p : Player) :
  JsSet.has (JsSet.of_array [t]) p = true -> p = t.
Proof.
  cbn. rewrite orb_false_r. apply Z.eqb_eq.
Qed.

(** [processTurn] on the move of the player whose turn it is. *)
Lemma processTurn_of_turn (o : O) (sm : M) (s : Fields M T) :
  processTurn C o [(turn s, sm)] s
  = let s2 := mkFields (moves s ++ [Some sm]) (processMove C o (Some sm) s) in
    (mkFields (moves s2) (fst (getStatus C o s2)),
     mkUpdate (Some sm)
              match snd (getStatus C o s2) with
              | IN_PROGRESS => [turn s2]
              | _ => []
              end
              None None).
Proof.
  unfold processTurn. cbn [JsMap.get]. rewrite Z.eqb_refl.
  cbn [moves own]. destruct s as [ms t]. cbn [moves own].
  now destruct (getStatus C o _).
Qed.

(** The two ways a call of [playMove] can go in a strategy game: it throws,
    and leaves the history, the buffer and the recorded moves as they were;
    or the player is the one whose turn it is, the move passes the two
    checks, and the turn is resolved at once. *)
Lemma strategy_playMove_form g raw p :
  strategy_consistent g ->
  let s := self g in
  let o := options g in
  (exists e t,
      snd (playMove R raw p g) = inl e /\
      updates (fst (playMove R raw p g)) = updates g /\
      pendingMoves (fst (playMove R raw p g)) = pendingMoves g /\
      self (fst (playMove R raw p g)) = mkFields (moves s) t /\
      (t = own s \/ t = fst (sanitizeMove C o raw s) \/
       exists sm,
         snd (sanitizeMove C o raw s) = inr sm /\
         t = fst (assertMoveIsLegal C o sm p
                    (mkFields (moves s) (fst (sanitizeMove C o raw s))))))
  \/
  (exists u0 sm t1 t2,
      latest g = Some u0 /\ toPlay u0 = [p] /\ p = turn s /\
      sanitizeMove C o raw s = (t1, inr sm) /\
      assertMoveIsLegal C o sm p (mkFields (moves s) t1) = (t2, inr tt) /\
      let s2 := mkFields (moves s ++ [Some sm])
                         (processMove C o (Some sm) (mkFields (moves s) t2)) in
      let s3 := mkFields (moves s2) (fst (getStatus C o s2)) in
      let u := mkUpdate (Some sm)
                        match snd (getStatus C o s2) with
                        | IN_PROGRESS => [turn s2]
                        | _ => []
                        end
                        None None in
      snd (playMove R raw p g) = inr true /\
      pendingMoves (fst (playMove R raw p g)) = [] /\
      updates (fst (playMove R raw p g))
      = updates g ++ [snd (with_winners R o s3 u)] /\
      self (fst (playMove R raw p g)) = fst (with_winners R o s3 u)).
Proof.
  intros [Hpending Hlatest] s o.
  assert (Hself : self g = mkFields (moves s) (own s)) by (subst s; now destruct (self g)).
  destruct (started_dec g) as [Hus | Hstarted].
  { rewrite (playMove_unstarted R raw p g Hus). left.
    eexists. exists (own s). now repeat split; try left. }
  rewrite (playMove_started R raw p g Hstarted).
  destruct (JsSet.size (JsSet.of_array (players g)) =? 0) eqn:Hsize.
  { left. eexists. exists (own s). now repeat split; try left. }
  destruct (JsSet.has (JsSet.of_array (players g)) p) eqn:Hmember; cbn [negb].
  2: { left. eexists. exists (own s). now repeat split; try left. }
  rewrite Hpending. cbn [JsMap.has JsMap.keys map existsb].
  unfold players in Hsize, Hmember.
  destruct (latest g) as [u0 |] eqn:Hu0; [| discriminate].
  destruct Hlatest as (_ & _ & _ & [[Hto _] | [Hto _]]);
    rewrite Hto in Hsize, Hmember; [| discriminate].
  apply only_player in Hmember. fold s in Hmember.
  cbn [Engine.sanitizeMove Engine.assertMoveIsLegal AbstractStrategyGame.rules].
  fold s o.
  destruct (sanitizeMove C o raw s) as [t1 [e1 | sm]] eqn:Hsanitize.
  { left. exists e1, t1. cbn. now repeat split; try (right; left). }
  cbn [moves].
  destruct (assertMoveIsLegal C o sm p (mkFields (moves s) t1))
    as [t2 [e2 | []]] eqn:Hlegal.
  { left. exists e2, t2. cbn. repeat split. right. right. exists sm.
    now rewrite Hlegal. }
  subst p. right. exists u0, sm, t1, t2.
  unfold players. rewrite Hu0, Hto.
  change (JsMap.set [] (turn s) sm) with [(turn s, sm)].
  change (JsSet.size (JsSet.of_array [turn s]) =? JsMap.size [(turn s, sm)])
    with true.
  cbv iota zeta.
  pose proof (processTurn_of_turn o sm (mkFields (moves s) t2)) as Hturn.
  change (turn (mkFields (moves s) t2)) with (turn s) in Hturn.
  cbn [moves] in Hturn.
  change (Engine.processTurn R o [(turn s, sm)] (mkFields (moves s) t2))
    with (processTurn C o [(turn s, sm)] (mkFields (moves s) t2)).
  rewrite Hturn. cbv zeta. cbn [fst snd pendingMoves updates self moves].
  now repeat split.
Qed.

(** What the engine's winners step does to the update of a resolved turn. *)
Lemma with_winners_strategy (o : O) (s3 : Fields M T) (sm : M)
      (tp : list Player) :
  let u := mkUpdate (Some sm) tp None (@None (list unit)) in
  let r := with_winners R o s3 u in
  moves (fst r) = moves s3 /\
  publicInfo (snd r) = Some sm /\
  privateInfo (snd r) = None /\
  toPlay (snd r) = tp /\
  (tp <> [] -> winners (snd r) = None /\ fst r = s3) /\
  (tp = [] ->
   winners (snd r) = Some (snd (getWinners C o s3)) /\
   fst r = fst (getWinners C o s3)).
Proof.
  unfold with_winners. cbn [toPlay Engine.getWinners rules].
  destruct tp as [| q tp]; cbn [List.length Nat.eqb].
  - unfold getWinners. destruct (getStatus C o s3) as [t status].
    cbn. repeat split; intros; congruence.
  - cbn. repeat split; intros; congruence.
Qed.

Lemma getWinners_at_most_one (o : O) (s : Fields M T) :
  snd (getWinners C o s) = [] \/ snd (getWinners C o s) = [0] \/
  snd (getWinners C o s) = [1].
Proof.
  unfold getWinners. destruct (getStatus C o s) as [t []]; cbn; tauto.
Qed.

Lemma strategy_consistent_playMove g raw p :
  strategy_consistent g -> strategy_consistent (fst (playMove R raw p g)).
Proof.
  intros Hg.
  destruct (strategy_playMove_form g raw p Hg)
    as [(e & t & _ & Hus & Hpending & Hself & _)
       | (u0 & sm & t1 & t2 & Hu0 & Hto & Hp & _ & _ & Hstep)].
  { apply (strategy_consistent_same g); try assumption. now rewrite Hself. }
  cbv zeta in Hstep. destruct Hstep as (_ & Hpending & Hus & Hself).
  cbn [moves] in Hus, Hself.
  destruct Hg as [_ Hlatest]. rewrite Hu0 in Hlatest.
  destruct Hlatest as (Hinfo & Hsome & _).
  match type of Hus with
  | _ = _ ++ [snd (with_winners _ _ ?s3 (mkUpdate _ ?tp _ _))] =>
      destruct (with_winners_strategy (options g) s3 sm tp)
        as (Hms & Hpub & Hpriv & Htp & Hon & Hover);
      pose proof (getWinners_at_most_one (options g) s3) as Hone
  end.
  cbv zeta in Hms, Hpub, Hpriv, Htp, Hon, Hover.
  split; [assumption |].
  rewrite (latest_snoc _ _ _ Hus), Hus, map_app, Hinfo. cbn [map].
  rewrite Hpub, Hpriv, Htp.
  unfold turn at 1. rewrite Hself, Hms. cbn [moves].
  split; [reflexivity |].
  split; [apply Forall_app; split; [assumption | now repeat constructor] |].
  split; [reflexivity |].
  destruct (snd (getStatus C (options g) _)) eqn:Hstatus.
  - left. split; [reflexivity |]. now apply Hon.
  - right. split; [reflexivity |]. destruct (Hover eq_refl) as [-> _].
    destruct Hone as [-> | [-> | ->]]; tauto.
  - right. split; [reflexivity |]. destruct (Hover eq_refl) as [-> _].
    destruct Hone as [-> | [-> | ->]]; tauto.
  - right. split; [reflexivity |]. destruct (Hover eq_refl) as [-> _].
    destruct Hone as [-> | [-> | ->]]; tauto.
Qed.

Lemma reachable_strategy_consistent g :
  reachable R g -> strategy_consistent g.
Proof.
  induction 1 as [o g Hnew | seed g _ IH | raw p g _ IH].
  - now apply (strategy_consistent_new o).
  - now apply strategy_consistent_start.
  - now apply strategy_consistent_playMove.
Qed.

(** X17. In a strategy game that has started, whatever the subclass, no
    move is ever left pending between two calls; the public information of
    the history is [null] followed by the moves recorded so far, none of them
    [undefined]; and the player to play, if any, is player 0 after an even
    number of moves and player 1 after an odd number. A finished game names
    at most one winner. *)
Theorem strategy_game_history_is_the_record_of_moves :
  forall g,
    reachable R g ->
    updates g <> [] ->
    pendingMoves g = [] /\
    map publicInfo (updates g) = None :: moves (self g) /\
    Forall (fun m => m <> None) (moves (self g)) /\
    List.length (updates g) = Datatypes.S (List.length (moves (self g))) /\
    (players g = [Z.of_nat (List.length (moves (self g)) mod 2)] \/
     players g = [] /\
     exists u,
       latest g = Some u /\
       (winners u = Some [] \/ winners u = Some [0] \/ winners u = Some [1])).
Proof.
  intros g Hreach Hstarted.
  destruct (reachable_strategy_consistent g Hreach) as [Hpending Hlatest].
  destruct (latest_started g Hstarted) as [u Hu].
  unfold players. rewrite Hu in *.
  destruct Hlatest as (Hinfo & Hsome & _ & Hturn).
  split; [assumption |]. split; [assumption |]. split; [assumption |].
  split.
  { rewrite <- (length_map publicInfo), Hinfo. reflexivity. }
  destruct Hturn as [[Hto _] | [Hto Hwin]].
  - left. exact Hto.
  - right. split; [assumption |]. now exists u.
Qed.

(** X18. In a strategy game every move that [playMove] accepts resolves the
    turn: the call returns [true], the caller was the player whose turn it
    was by the number of moves, and the move that [sanitizeMove] returned is
    appended to the recorded moves and is the public information of the one
    update added to the history. *)
Theorem strategy_game_accepted_move_ends_the_turn :
  forall g raw p g' (b : bool),
    reachable R g ->
    playMove R raw p g = (g', inr b) ->
    b = true /\
    p = Z.of_nat (List.length (moves (self g)) mod 2) /\
    players g = [p] /\
    exists sm u,
      snd (sanitizeMove C (options g) raw (self g)) = inr sm /\
      moves (self g') = moves (self g) ++ [Some sm] /\
      updates g' = updates g ++ [u] /\
      publicInfo u = Some sm /\
      pendingMoves g' = [].
Proof.
  intros g raw p g' b Hreach Hplay.
  pose proof (reachable_strategy_consistent g Hreach) as Hg.
  destruct (strategy_playMove_form g raw p Hg)
    as [(e & t & Hfail & _)
       | (u0 & sm & t1 & t2 & Hu0 & Hto & Hp & Hsanitize & _ & Hstep)].
  { rewrite Hplay in Hfail. discriminate. }
  cbv zeta in Hstep. destruct Hstep as (Hres & Hpending & Hus & Hself).
  rewrite Hplay in Hres, Hpending, Hus, Hself. cbn [fst snd] in *.
  match type of Hus with
  | _ = _ ++ [snd (with_winners _ _ ?s3 (mkUpdate _ ?tp _ _))] =>
      destruct (with_winners_strategy (options g) s3 sm tp)
        as (Hms & Hpub & _)
  end.
  cbv zeta in Hms, Hpub.
  split; [congruence |]. split; [exact Hp |].
  split; [unfold players; now rewrite Hu0 |].
  exists sm. eexists. split; [now rewrite Hsanitize |].
  split; [rewrite Hself, Hms; reflexivity |].
  split; [exact Hus |]. split; assumption.
Qed.

(** X23. A strategy game is a game of two players that starts the same
    way whatever the seed: on a game just constructed, [start] returns and
    leaves the fields as they were, and its one update has [null] as public
    information, player 0 alone to play, and no winners. *)
Theorem strategy_game_starts_with_player_0 :
  forall (o : O) g (seed : string),
    construct R o = inr g ->
    numberOfPlayers g = 2 # 1 /\
    start R seed g
    = (mkGame (pendingMoves g)
              [mkUpdate None [0] None None]
              (options g) (numberOfPlayers g) (self g)
              (calls g ++ [CallInitialize seed (mkUpdate None [0] None None)]),
       inr tt).
Proof.
  intros o g seed Hnew. unfold construct in Hnew.
  destruct (Engine.sanitizeOptions R o) as [e | o']; [discriminate |].
  injection Hnew as <-. split; [reflexivity |].
  now rewrite start_unstarted.
Qed.

End WithSubclass.
End StrategyGameFacts.

(** ** Tic-tac-toe *)
Module TictactoeFacts.
Import AbstractStrategyGame Tictactoe More StrategyGameFacts.

Local Abbreviation R := Tictactoe.rules.

Lemma land_pow2 (x m : Z) :
  0 <= m -> (Z.land x (2 ^ m) =? 0) = negb (Z.testbit x m).
Proof.
  intros Hm.
  assert (Hland : Z.land x (2 ^ m) = if Z.testbit x m then 2 ^ m else 0).
  { apply Z.bits_inj'. intros n Hn. rewrite Z.land_spec, Z.pow2_bits_eqb by lia.
    destruct (Z.eqb_spec m n) as [<- | Hne].
    - rewrite andb_true_r. destruct (Z.testbit x m) eqn:Hbit.
      + now rewrite Z.pow2_bits_eqb, Z.eqb_refl by lia.
      + now rewrite Z.bits_0.
    - rewrite andb_false_r. destruct (Z.testbit x m).
      + rewrite Z.pow2_bits_eqb by lia. symmetry. now apply Z.eqb_neq.
      + now rewrite Z.bits_0. }
  rewrite Hland. destruct (Z.testbit x m); [| reflexivity].
  apply Z.eqb_neq. pose proof (Z.pow_pos_nonneg 2 m). lia.
Qed.

Lemma lor_pow2 (x m k : Z) :
  0 <= m -> Z.testbit (Z.lor x (2 ^ m)) k = Z.testbit x k || (m =? k).
Proof.
  intros Hm. now rewrite Z.lor_spec, Z.pow2_bits_eqb.
Qed.

Lemma even_mod_2 (n : nat) : (n mod 2 =? 0)%nat = Nat.even n.
Proof.
  destruct (Nat.even n) eqn:He.
  - apply Nat.even_spec in He. destruct He as [m ->].
    apply Nat.eqb_eq. rewrite Nat.mul_comm. apply Nat.Div0.mod_mul.
  - apply Nat.eqb_neq. intros Hmod.
    apply Nat.Div0.mod_divides in Hmod. destruct Hmod as [m ->].
    rewrite Nat.even_mul in He. discriminate.
Qed.

(** The loop of [getStatus] when at most one board holds a winning
    pattern. *)
Lemma scan_spec (patterns : list Z) (b : Boards) :
  existsb (fun win => Z.land win (xBoard b) =? win) patterns = false \/
  existsb (fun win => Z.land win (yBoard b) =? win) patterns = false ->
  scan patterns b
  = if existsb (fun win => Z.land win (xBoard b) =? win) patterns
    then Some P1_WIN
    else if existsb (fun win => Z.land win (yBoard b) =? win) patterns
         then Some P2_WIN
         else None.
Proof.
  induction patterns as [| win rest IH]; [reflexivity |].
  cbn [scan existsb].
  destruct (Z.land win (xBoard b) =? win); [reflexivity |].
  destruct (Z.land win (yBoard b) =? win); cbn [orb].
  - intros [-> | Hno]; [reflexivity | discriminate].
  - exact IH.
Qed.

Lemma getStatus_eq (ms : list (option Js.whole)) (b : Boards) :
  has_line (xBoard b) = false \/ has_line (yBoard b) = false ->
  getStatus (mkFields ms b)
  = if has_line (xBoard b) then P1_WIN
    else if has_line (yBoard b) then P2_WIN
         else if (List.length ms =? 9)%nat then DRAW else IN_PROGRESS.
Proof.
  intros Hone. unfold getStatus. cbn [own moves].
  rewrite (scan_spec wins b Hone). fold (has_line (xBoard b)).
  fold (has_line (yBoard b)).
  destruct (has_line (xBoard b)); [reflexivity |].
  now destruct (has_line (yBoard b)).
Qed.

(** The floor of a number from 0 to 9 is a cell. *)
Lemma floor_cell (q : Q) :
  Qle_bool 0 q = true -> Qle_bool (9 # 1) q = false -> 0 <= Qfloor q <= 8.
Proof.
  intros Hlow Hhigh. apply Qle_bool_iff in Hlow.
  assert (Hbelow : (q < 9 # 1)%Q).
  { apply Qnot_le_lt. intros Hle. apply Qle_bool_iff in Hle. congruence. }
  split.
  - change 0 with (Qfloor 0). now apply Qfloor_resp_le.
  - assert (Hlt : (inject_Z (Qfloor q) < inject_Z 9)%Q).
    { eapply Qle_lt_trans; [apply Qfloor_le | exact Hbelow]. }
    rewrite <- Zlt_Qlt in Hlt. lia.
Qed.

Lemma sanitizeMove_cell (raw : Js.value) (sm : Js.whole) :
  sanitizeMove raw = inr sm -> cell_or_NaN sm.
Proof.
  unfold sanitizeMove. destruct raw as [| [q | | negative]]; [discriminate | | |].
  - cbn [Js.ltb Js.geb Js.floor].
    destruct (Qle_bool 0 q) eqn:Hlow; [| discriminate]. cbn [negb orb].
    destruct (Qle_bool (9 # 1) q) eqn:Hhigh; [discriminate |].
    intros Hsm. injection Hsm as <-. right. exists (Qfloor q).
    split; [reflexivity | now apply floor_cell].
  - cbn. intros Hsm. injection Hsm as <-. now left.
  - destruct negative; discriminate.
Qed.

Lemma boardWith_cell (c : Z) :
  0 <= c <= 8 -> boardWith (Some (Js.Whole c)) = 2 ^ c.
Proof.
  intros Hc. unfold boardWith, Js.pow2_int32.
  destruct (Z.ltb_spec c 0); [lia |].
  destruct (Z.leb_spec c 30); [reflexivity | lia].
Qed.

Lemma taken_app (ms ms' : list Js.whole) :
  taken (ms ++ ms') = taken ms ++ taken ms'.
Proof. apply flat_map_app. Qed.

Lemma taken_in (ms : list Js.whole) (c : Z) :
  In c (taken ms) <-> In (Js.Whole c) ms.
Proof.
  unfold taken. rewrite in_flat_map. split.
  - intros [[z | | negative] [Hm Hc]]; cbn in Hc;
      [| destruct Hc | destruct Hc].
    destruct Hc as [<- | []]. exact Hm.
  - intros Hm. exists (Js.Whole c). split; [assumption | now left].
Qed.

(** A cell is free, by the two boards, exactly when it was never played. *)
Lemma free_cell (g : TictactoeObject) (ms : list Js.whole) (c : Z) :
  0 <= c ->
  (forall k, 0 <= k ->
     Z.testbit (xBoard (own (self g))) k = true <->
     exists i, Nat.even i = true /\ nth_error ms i = Some (Js.Whole k)) ->
  (forall k, 0 <= k ->
     Z.testbit (yBoard (own (self g))) k = true <->
     exists i, Nat.odd i = true /\ nth_error ms i = Some (Js.Whole k)) ->
  (Z.testbit (xBoard (own (self g))) c = false /\
   Z.testbit (yBoard (own (self g))) c = false) <-> ~ In c (taken ms).
Proof.
  intros Hc Hx Hy. rewrite taken_in. split.
  - intros [Hxc Hyc] Hin. apply In_nth_error in Hin. destruct Hin as [i Hi].
    destruct (Nat.even i) eqn:He.
    + assert (Hbit : Z.testbit (xBoard (own (self g))) c = true)
        by (apply Hx; [assumption | now exists i]).
      congruence.
    + assert (Hbit : Z.testbit (yBoard (own (self g))) c = true).
      { apply Hy; [assumption |]. exists i. split; [| assumption].
        now rewrite <- Nat.negb_even, He. }
      congruence.
  - intros Hfree. split; apply not_true_is_false; intros Hbit.
    + apply Hx in Hbit; [| assumption]. destruct Hbit as [i [_ Hi]].
      apply Hfree. eapply nth_error_In, Hi.
    + apply Hy in Hbit; [| assumption]. destruct Hbit as [i [_ Hi]].
      apply Hfree. eapply nth_error_In, Hi.
Qed.

Lemma assertMoveIsLegal_eq (c : Z) (p : Player) (b : Boards) :
  0 <= c <= 8 ->
  assertMoveIsLegal (Js.Whole c) p b
  = if Z.testbit (xBoard b) c || Z.testbit (yBoard b) c
    then inl (new_IllegalMoveError (AnyMove (Js.Whole c)) (AnyNumber p)
                (AnyString "Position is already occupied"))
    else inr tt.
Proof.
  intros Hc. unfold assertMoveIsLegal. rewrite boardWith_cell by assumption.
  rewrite !land_pow2 by lia. now rewrite !negb_involutive.
Qed.

(** [NaN] is always legal: it asks for no cell. *)
Lemma assertMoveIsLegal_NaN (p : Player) (b : Boards) :
  assertMoveIsLegal Js.NaNWhole p b = inr tt.
Proof.
  unfold assertMoveIsLegal. cbn [boardWith Js.pow2_int32].
  now rewrite !Z.land_0_r.
Qed.

Lemma nth_error_snoc {A : Type} (l : list A) (a k : A) (i : nat) :
  nth_error (l ++ [a]) i = Some k <->
  nth_error l i = Some k \/ (i = List.length l /\ a = k).
Proof.
  destruct (Nat.lt_ge_cases i (List.length l)) as [Hlt | Hge].
  - rewrite nth_error_app1 by assumption. split; [now left |].
    intros [Hi | [Hi _]]; [assumption | lia].
  - rewrite nth_error_app2 by assumption.
    assert (Hnone : nth_error l i = None) by now apply nth_error_None.
    rewrite Hnone. destruct (i - List.length l)%nat as [| j] eqn:Hj.
    + cbn. split.
      * intros Hc. injection Hc as <-. right. split; [lia | reflexivity].
      * intros [Hi | [_ ->]]; [discriminate | reflexivity].
    + cbn. destruct j; cbn; split; try discriminate;
        intros [Hi | [Hi _]]; [discriminate | lia | discriminate | lia].
Qed.

(** The bits of a board after a move: the board of the player who moves
    takes the bit of the cell, if the move is a cell; the other board stays
    as it is, and so do both when the move is [NaN]. *)
Lemma mark_bits (parity : nat -> bool) (board : Z) (ms : list Js.whole)
      (m : Js.whole) :
  cell_or_NaN m ->
  (forall k, 0 <= k ->
     Z.testbit board k = true <->
     exists i, parity i = true /\ nth_error ms i = Some (Js.Whole k)) ->
  forall k, 0 <= k ->
    Z.testbit (if parity (List.length ms)
               then Z.lor board (boardWith (Some m)) else board) k = true <->
    exists i, parity i = true /\ nth_error (ms ++ [m]) i = Some (Js.Whole k).
Proof.
  intros Hm Hbits k Hk.
  assert (Hold : (exists i, parity i = true /\
                            nth_error ms i = Some (Js.Whole k)) ->
                 exists i, parity i = true /\
                           nth_error (ms ++ [m]) i = Some (Js.Whole k)).
  { intros [i [Hi Hnth]]. exists i. split; [assumption |].
    apply nth_error_snoc. now left. }
  destruct Hm as [-> | [c [-> Hc]]].
  - cbn [boardWith Js.pow2_int32]. rewrite Z.lor_0_r.
    assert (Hsame : (if parity (List.length ms) then board else board) = board)
      by now destruct (parity (List.length ms)).
    rewrite Hsame, (Hbits k Hk). split; [exact Hold |].
    intros [i [Hi Hnth]]. apply nth_error_snoc in Hnth.
    destruct Hnth as [Hnth | [_ Heq]]; [now exists i | discriminate].
  - rewrite boardWith_cell by assumption.
    destruct (parity (List.length ms)) eqn:Hparity.
    + rewrite lor_pow2, orb_true_iff, (Hbits k Hk), Z.eqb_eq by lia.
      split.
      * intros [Hi | ->]; [now apply Hold |].
        exists (List.length ms). split; [assumption |].
        apply nth_error_snoc. now right.
      * intros [i [Hi Hnth]]. apply nth_error_snoc in Hnth.
        destruct Hnth as [Hnth | [_ Heq]]; [left; now exists i |].
        right. now injection Heq.
    + rewrite (Hbits k Hk). split; [exact Hold |].
      intros [i [Hi Hnth]]. apply nth_error_snoc in Hnth.
      destruct Hnth as [Hnth | [-> _]]; [now exists i | congruence].
Qed.

(** [processMove] by the parity of the number of moves. *)
Lemma processMove_eq (m : Js.whole) (ms : list (option Js.whole))
      (b : Boards) :
  processMove (Some m) (mkFields ms b)
  = mkBoards (if Nat.even (List.length ms)
              then Z.lor (xBoard b) (boardWith (Some m)) else xBoard b)
             (if Nat.odd (List.length ms)
              then Z.lor (yBoard b) (boardWith (Some m)) else yBoard b).
Proof.
  unfold processMove. cbn [moves own].
  rewrite even_mod_2, <- Nat.negb_even.
  now destruct (Nat.even (List.length ms)).
Qed.

(** The winners step of the engine on a game of tic-tac-toe. *)
Lemma with_winners_tictactoe (o : unit) (ms : list (option Js.whole))
      (b : Boards) (m : Js.whole) (tp : list Player) :
  has_line (xBoard b) = false \/ has_line (yBoard b) = false ->
  let u := mkUpdate (Some m) tp None (@None (list unit)) in
  with_winners R o (mkFields ms b) u
  = (mkFields ms b,
     match tp with
     | [] => set_winners u (line_winners b)
     | _ :: _ => u
     end).
Proof.
  intros Hone u. unfold with_winners. subst u. cbn [toPlay].
  destruct tp as [| q tp]; [| reflexivity]. cbn [List.length Nat.eqb].
  cbn [Engine.getWinners Tictactoe.rules AbstractStrategyGame.rules].
  unfold getWinners.
  cbn [AbstractStrategyGame.getStatus subclass own moves].
  rewrite (getStatus_eq ms b Hone). unfold line_winners.
  destruct (has_line (xBoard b)); [reflexivity |].
  destruct (has_line (yBoard b)); [reflexivity |].
  now destruct (List.length ms =? 9)%nat.
Qed.

Lemma tictactoe_consistent_same (g g' : TictactoeObject) :
  updates g' = updates g -> self g' = self g ->
  tictactoe_consistent g -> tictactoe_consistent g'.
Proof.
  intros Hu Hs. unfold tictactoe_consistent, latest. now rewrite Hu, Hs.
Qed.

Lemma tictactoe_consistent_new (o : unit) (g : TictactoeObject) :
  construct R o = inr g -> tictactoe_consistent g.
Proof.
  intros Hnew. injection Hnew as <-. exists []. cbn.
  split; [reflexivity |]. split; [constructor |]. split; [constructor |].
  split; [lia |].
  split; [| split; [| now split]]; intros k Hk; rewrite Z.bits_0;
    (split; [discriminate |]); intros [[| i] [_ Hi]]; discriminate.
Qed.

Lemma tictactoe_consistent_start (seed : string) (g : TictactoeObject) :
  tictactoe_consistent g -> tictactoe_consistent (fst (start R seed g)).
Proof.
  intros Hg. destruct (started_dec g) as [Hus | Hstarted].
  2: { now rewrite (start_started R seed g Hstarted). }
  rewrite (start_unstarted R seed g Hus).
  destruct Hg as (ms & Hmoves & Hrange & Hnodup & Hnine & Hx & Hy & Hlatest).
  rewrite (latest_empty g Hus) in Hlatest. destruct Hlatest as [-> Hboards].
  exists []. cbn. unfold latest. cbn.
  split; [assumption |]. split; [assumption |]. split; [assumption |].
  split; [assumption |]. split; [assumption |]. split; [assumption |].
  rewrite Hboards. cbn.
  split; [intros _; repeat split; lia | discriminate].
Qed.

Lemma tictactoe_consistent_playMove (g : TictactoeObject) (raw : Js.value)
      (p : Player) :
  strategy_consistent g -> tictactoe_consistent g ->
  tictactoe_consistent (fst (playMove R raw p g)).
Proof.
  intros Hs Hg.
  assert (Hself : self g = mkFields (moves (self g)) (own (self g)))
    by now destruct (self g).
  destruct (strategy_playMove_form subclass g raw p Hs)
    as [(e & t & _ & Hus & _ & Hfields & Hown)
       | (u0 & m & t1 & t2 & Hu0 & Hto & Hp & Hsanitize & Hlegal & Hstep)].
  { apply (tictactoe_consistent_same g); try assumption.
    rewrite Hself.
    destruct Hown as [-> | [-> | [sm [_ ->]]]]; exact Hfields. }
  cbv zeta in Hstep. destruct Hstep as (_ & _ & Hus & Hfields).
  cbn [sanitizeMove assertMoveIsLegal AbstractStrategyGame.processMove
       AbstractStrategyGame.getStatus subclass own moves fst snd]
    in Hsanitize, Hlegal, Hus, Hfields.
  injection Hsanitize as <- Hcell. apply sanitizeMove_cell in Hcell.
  injection Hlegal as <- Hlegal.
  destruct Hg as (ms & Hmoves & Hrange & Hnodup & _ & Hx & Hy & Hlatest).
  rewrite Hu0 in Hlatest. destruct Hlatest as [Hon _].
  destruct Hon as (Hnx & Hny & Hroom); [rewrite Hto; discriminate |].
  assert (Hdistinct : NoDup (taken (ms ++ [m]))).
  { rewrite taken_app. destruct Hcell as [-> | [c [-> Hc]]].
    - cbn. now rewrite app_nil_r.
    - rewrite assertMoveIsLegal_eq in Hlegal by assumption.
      destruct (Z.testbit (xBoard (own (self g))) c || _) eqn:Hfree;
        [discriminate |].
      apply orb_false_iff in Hfree.
      apply (free_cell g ms c) in Hfree; [| lia | assumption | assumption].
      cbn. apply NoDup_app; [assumption | repeat constructor; intros [] |].
      intros a Ha [<- | []]. contradiction. }
  rewrite processMove_eq in Hus, Hfields.
  set (b := mkBoards _ _) in *.
  set (rec := moves (self g) ++ [Some m]) in *.
  assert (Hone : has_line (xBoard b) = false \/ has_line (yBoard b) = false).
  { subst b. cbn [xBoard yBoard]. rewrite <- Nat.negb_even.
    destruct (Nat.even _); cbn [negb]; [now right | now left]. }
  rewrite (getStatus_eq rec b Hone) in Hus, Hfields.
  change (AbstractStrategyGame.rules subclass) with R in Hus, Hfields.
  rewrite (with_winners_tictactoe _ rec b m _ Hone) in Hus, Hfields.
  cbn [fst snd] in Hus, Hfields.
  assert (Hrec : rec = map Some (ms ++ [m]))
    by (subst rec; now rewrite Hmoves, map_app).
  assert (Hin : Forall cell_or_NaN (ms ++ [m]))
    by (apply Forall_app; split; [assumption |];
        constructor; [assumption | constructor]).
  assert (Hlen : List.length rec = List.length (ms ++ [m]))
    by (rewrite Hrec; apply length_map).
  assert (Hlen0 : List.length (moves (self g)) = List.length ms)
    by (rewrite Hmoves; apply length_map).
  assert (Hnine : (List.length (ms ++ [m]) <= 9)%nat)
    by (rewrite length_app; cbn; lia).
  exists (ms ++ [m]). rewrite Hfields. cbn [moves own].
  split; [assumption |]. split; [assumption |]. split; [assumption |].
  split; [assumption |].
  split.
  { subst b. cbn [xBoard]. rewrite Hlen0.
    apply (mark_bits Nat.even); assumption. }
  split.
  { subst b. cbn [yBoard]. rewrite Hlen0.
    apply (mark_bits Nat.odd); assumption. }
  rewrite (latest_snoc _ _ _ Hus).
  destruct (has_line (xBoard b)) eqn:Hlx.
  { cbn [toPlay set_winners winners]. split; [intros Hne; now destruct Hne |].
    intros _. split; [now left |]. split; [assumption | reflexivity]. }
  destruct (has_line (yBoard b)) eqn:Hly.
  { cbn [toPlay set_winners winners]. split; [intros Hne; now destruct Hne |].
    intros _. split; [right; now left |]. split; [now left | reflexivity]. }
  destruct (List.length rec =? 9)%nat eqn:Hfull.
  { cbn [toPlay set_winners winners]. split; [intros Hne; now destruct Hne |].
    intros _. apply Nat.eqb_eq in Hfull.
    split; [right; right; lia |]. split; [now left | reflexivity]. }
  cbn [toPlay]. split; [| discriminate].
  intros _. apply Nat.eqb_neq in Hfull. repeat split; lia.
Qed.

Lemma reachable_tictactoe_consistent (g : TictactoeObject) :
  reachable R g -> tictactoe_consistent g.
Proof.
  intros Hreach.
  induction Hreach as [o g Hnew | seed g _ IH | raw p g Hg IH].
  - now apply (tictactoe_consistent_new o).
  - now apply tictactoe_consistent_start.
  - apply tictactoe_consistent_playMove; [| assumption].
    now apply (reachable_strategy_consistent subclass).
Qed.

(** X19. [sanitizeMove] of tic-tac-toe refuses, with an InvalidMoveError
    that shows the move, a move that is not a number, a number below 0, and
    a number that is 9 or more, the infinities among them. It accepts a
    finite number from 0 (included) to 9 (excluded) and returns its floor, a
    cell from 0 to 8. It also accepts [NaN], which is a number and fails
    both comparisons, and returns it as [NaN]. *)
Theorem tictactoe_sanitizeMove_accepts_the_nine_cells :
  forall move : Js.value,
    ((move = Js.NotNumber \/
      (exists q, move = Js.Number (Js.Finite q) /\
                 ((q < 0)%Q \/ (9 # 1 <= q)%Q)) \/
      (exists negative, move = Js.Number (Js.Infinity negative))) <->
     exists e, sanitizeMove move = inl e) /\
    (forall e, sanitizeMove move = inl e ->
               cls e = InvalidMoveError /\ reports e (AnyRaw move)) /\
    (forall q, move = Js.Number (Js.Finite q) ->
               (0 <= q)%Q -> (q < 9 # 1)%Q ->
               sanitizeMove move = inr (Js.Whole (Qfloor q)) /\
               0 <= Qfloor q <= 8) /\
    (move = Js.Number Js.NaN -> sanitizeMove move = inr Js.NaNWhole) /\
    (forall m, sanitizeMove move = inr m -> cell_or_NaN m).
Proof.
  intros move.
  assert (Hfinite : forall q,
            sanitizeMove (Js.Number (Js.Finite q))
            = if negb (Qle_bool 0 q) || Qle_bool (9 # 1) q
              then inl (new_InvalidMoveError
                          (AnyRaw (Js.Number (Js.Finite q)))
                          (AnyString "Move must be a number from 0 to 8"))
              else inr (Js.Whole (Qfloor q))) by reflexivity.
  assert (Hout : forall q,
            negb (Qle_bool 0 q) || Qle_bool (9 # 1) q = true <->
            (q < 0)%Q \/ (9 # 1 <= q)%Q).
  { intros q. rewrite orb_true_iff, negb_true_iff, Qle_bool_iff. split.
    - intros [Hlow | Hhigh]; [left | now right].
      apply Qnot_le_lt. intros Hle. apply Qle_bool_iff in Hle. congruence.
    - intros [Hlow | Hhigh]; [left | now right].
      apply not_true_is_false. intros Hle. apply Qle_bool_iff in Hle.
      exact (Qlt_not_le _ _ Hlow Hle). }
  split; [| split; [| split; [| split]]].
  - split.
    + intros [-> | [[q [-> Hq]] | [negative ->]]].
      * eexists. reflexivity.
      * rewrite Hfinite. apply Hout in Hq. rewrite Hq. eexists. reflexivity.
      * destruct negative; eexists; reflexivity.
    + intros [e He]. destruct move as [| [q | | negative]].
      * now left.
      * right. left. exists q. split; [reflexivity |]. apply Hout.
        rewrite Hfinite in He.
        destruct (negb (Qle_bool 0 q) || Qle_bool (9 # 1) q);
          [reflexivity | discriminate].
      * discriminate.
      * right. right. now exists negative.
  - intros e He. unfold sanitizeMove in He.
    destruct move as [| n];
      [| destruct (Js.ltb n 0 || Js.geb n (9 # 1)); [| discriminate]];
      injection He as <-; (split; [reflexivity |]);
      unfold reports; simpl; tauto.
  - intros q -> Hlow Hhigh. rewrite Hfinite.
    destruct (negb (Qle_bool 0 q) || Qle_bool (9 # 1) q) eqn:Htest.
    + apply Hout in Htest. exfalso. destruct Htest as [Hneg | Hbig].
      * exact (Qlt_not_le _ _ Hneg Hlow).
      * exact (Qlt_not_le _ _ Hhigh Hbig).
    + split; [reflexivity |]. apply orb_false_iff in Htest.
      destruct Htest as [Hl Hh]. apply negb_false_iff in Hl.
      now apply floor_cell.
  - intros ->. reflexivity.
  - intros m. apply sanitizeMove_cell.
Qed.

(** X20. In every reachable game of tic-tac-toe at most nine moves are
    recorded, each a cell from 0 to 8 or [NaN], and no cell is recorded
    twice; bit [k] of [xBoard] is set exactly when player 0 (who moves at the
    even positions) took cell [k], bit [k] of [yBoard] exactly when player 1
    did; [assertMoveIsLegal] accepts a cell exactly when nobody has taken
    it. [NaN], which [sanitizeMove] lets through, is always accepted: it is
    recorded as a move, any number of times, and takes no cell. *)
Theorem tictactoe_cell_is_taken_at_most_once :
  forall g : TictactoeObject,
    reachable Tictactoe.rules g ->
    exists ms : list Js.whole,
      moves (self g) = map Some ms /\
      Forall cell_or_NaN ms /\
      NoDup (taken ms) /\
      (List.length ms <= 9)%nat /\
      (forall k, 0 <= k ->
         Z.testbit (xBoard (own (self g))) k = true <->
         exists i, Nat.even i = true /\ nth_error ms i = Some (Js.Whole k)) /\
      (forall k, 0 <= k ->
         Z.testbit (yBoard (own (self g))) k = true <->
         exists i, Nat.odd i = true /\ nth_error ms i = Some (Js.Whole k)) /\
      (forall (c : Z) (p : Player), 0 <= c <= 8 ->
         assertMoveIsLegal (Js.Whole c) p (own (self g)) = inr tt <->
         ~ In c (taken ms)) /\
      (forall p : Player,
         assertMoveIsLegal Js.NaNWhole p (own (self g)) = inr tt).
Proof.
  intros g Hreach.
  destruct (reachable_tictactoe_consistent g Hreach)
    as (ms & Hmoves & Hrange & Hnodup & Hnine & Hx & Hy & _).
  exists ms. split; [assumption |]. split; [assumption |].
  split; [assumption |]. split; [assumption |].
  split; [assumption |]. split; [assumption |].
  split; [| intros p; apply assertMoveIsLegal_NaN].
  intros c p Hc. rewrite <- (free_cell g ms c ltac:(lia) Hx Hy).
  rewrite assertMoveIsLegal_eq by assumption.
  destruct (Z.testbit (xBoard (own (self g))) c);
    destruct (Z.testbit (yBoard (own (self g))) c); cbn;
    split; try discriminate; try tauto; intros [? ?]; discriminate.
Qed.

(** X21. A started game of tic-tac-toe is over exactly when a board holds
    a winning pattern or nine moves have been played. The two boards never
    both hold a winning pattern; the latest update of a finished game names
    player 0 when [xBoard] holds one, player 1 when [yBoard] does, and
    nobody otherwise; while the game runs, the player to play is the one
    chosen by the parity of the number of moves. *)
Theorem tictactoe_ends_with_a_line_or_a_full_board :
  forall g : TictactoeObject,
    reachable Tictactoe.rules g ->
    updates g <> [] ->
    let b := own (self g) in
    (has_line (xBoard b) = false \/ has_line (yBoard b) = false) /\
    (players g = [] <->
     has_line (xBoard b) = true \/ has_line (yBoard b) = true \/
     List.length (moves (self g)) = 9%nat) /\
    (players g = [] ->
     exists u, latest g = Some u /\ winners u = Some (line_winners b)) /\
    (players g <> [] ->
     players g = [Z.of_nat (List.length (moves (self g)) mod 2)]).
Proof.
  intros g Hreach Hstarted b.
  destruct (reachable_tictactoe_consistent g Hreach)
    as (ms & Hmoves & _ & _ & _ & _ & _ & Hlatest).
  destruct (reachable_strategy_consistent subclass g Hreach) as [_ Hturn].
  destruct (latest_started g Hstarted) as [u Hu].
  unfold players. rewrite Hu in *. fold b in Hlatest.
  destruct Hlatest as [Hon Hover].
  destruct Hturn as (_ & _ & _ & Hturn).
  assert (Hlen : List.length (moves (self g)) = List.length ms)
    by (rewrite Hmoves; apply length_map).
  rewrite Hlen.
  destruct (toPlay u) as [| q rest] eqn:Hto.
  - destruct (Hover eq_refl) as (Hended & Hone & Hwinners).
    split; [assumption |]. split; [now split |].
    split; [intros _; now exists u | intros Hne; now destruct Hne].
  - destruct Hon as (Hnx & Hny & Hfree); [discriminate |].
    split; [now left |]. split; [| split].
    + split; [discriminate |]. rewrite Hnx, Hny.
      intros [Hl | [Hl | Hl]]; [discriminate | discriminate | lia].
    + discriminate.
    + intros _. destruct Hturn as [[Hp _] | [Hp _]]; [| discriminate].
      rewrite Hp. unfold turn. now rewrite Hlen.
Qed.

End TictactoeFacts.

(** ** The tests of tic-tac-toe, and instances of the theorems above *)
Module TictactoeExamples.
Import AbstractStrategyGame More.

Lemma reachable_playMoves {O Raw M PU PR S : Type} (R : Rules O Raw M PU PR S)
      (ms : list (Raw * Player)) (g : Game O Raw M PU PR S) :
  reachable R g -> reachable R (fst (playMoves R ms g)).
Proof.
  revert g. induction ms as [| [raw p] ms IH]; intros g Hg; [exact Hg |].
  cbn [playMoves].
  pose proof (reachable_playMove R raw p g Hg) as Hstep.
  destruct (playMove R raw p g) as [g1 r]. specialize (IH g1 Hstep).
  now destruct (playMoves R ms g1).
Qed.

Lemma tictactoe_new_reachable : reachable Tictactoe.rules tictactoe_new.
Proof. now apply (reachable_new _ tt). Qed.

Lemma tictactoe_started_reachable :
  reachable Tictactoe.rules tictactoe_started.
Proof. exact (reachable_start _ "" _ tictactoe_new_reachable). Qed.

Lemma tictactoe_played_reachable : reachable Tictactoe.rules tictactoe_played.
Proof. exact (reachable_playMoves _ _ _ tictactoe_started_reachable). Qed.

Lemma tictactoe_with_NaN_reachable :
  reachable Tictactoe.rules tictactoe_with_NaN.
Proof. exact (reachable_playMoves _ _ _ tictactoe_started_reachable). Qed.

(** "should be able to play a full game" *)
Example test_tictactoe_full_game :
  snd (playMoves Tictactoe.rules tictactoe_game tictactoe_started)
  = repeat (inr true) 7 /\
  option_map winners (latest tictactoe_played) = Some (Some [0]) /\
  getPlayersToPlay tictactoe_played = (tictactoe_played, inr JsSet.empty) /\
  map publicInfo (updates tictactoe_played)
  = map (option_map Js.Whole)
        [None; Some 0; Some 1; Some 2; Some 3; Some 4; Some 5; Some 6].
Proof. vm_compute. repeat split. Qed.

(** [NaN] as a move: both players pass it, it is recorded each time and
    takes no cell, and the players still alternate. *)
Example test_tictactoe_NaN :
  snd (playMoves Tictactoe.rules
         [(Js.Number Js.NaN, 0); (Js.Number Js.NaN, 1); (cell 4, 0)]
         tictactoe_started)
  = repeat (inr true) 3 /\
  map publicInfo (updates tictactoe_with_NaN)
  = [None; Some Js.NaNWhole; Some Js.NaNWhole; Some (Js.Whole 4)] /\
  AbstractStrategyGame.own (self tictactoe_with_NaN)
  = Tictactoe.mkBoards 16 0 /\
  players tictactoe_with_NaN = [1].
Proof. vm_compute. repeat split. Qed.

(** "should throw an error if some player plays out of turn", "... if the
    move is invalid", "... if the move is illegal" *)
Example test_tictactoe_errors :
  let two := fst (playMoves Tictactoe.rules [(cell 0, 0); (cell 1, 1)]
                            tictactoe_started) in
  let one := fst (playMove Tictactoe.rules (cell 0) 0 tictactoe_started) in
  (exists e, snd (playMove Tictactoe.rules (cell 2) 1 two) = inl e /\
             cls e = OutOfTurnError) /\
  (exists e, snd (playMove Tictactoe.rules (cell (-1)) 0 tictactoe_started)
             = inl e /\
             cls e = InvalidMoveError) /\
  (exists e, snd (playMove Tictactoe.rules (cell 0) 1 one) = inl e /\
             cls e = IllegalMoveError).
Proof. vm_compute. repeat split; eexists; split; reflexivity. Qed.

End TictactoeExamples.

Section MoreInstances.
Import SimpleGame Examples ExampleFacts More TictactoeExamples.

Local Abbreviation simple := SimpleGame.rules.

Lemma simple_tied_waiting_reachable : reachable simple simple_tied_waiting.
Proof. exact (reachable_playMove _ (call "even") 0 _ simple_tied_reachable). Qed.

(** X2 in the tied turn of the test, player 0 having submitted. *)
Lemma pending_buffer_invariant_witness :
  NoDup (submitted simple_tied_waiting) /\
  (forall p, In p (submitted simple_tied_waiting) ->
             In p (players simple_tied_waiting)) /\
  (forall p, In p (submitted simple_tied_waiting) ->
             exists m, JsMap.get (pendingMoves simple_tied_waiting) p = Some m) /\
  (pendingMoves simple_tied_waiting <> [] ->
   (List.length (submitted simple_tied_waiting)
    < List.length (JsSet.of_array (players simple_tied_waiting)))%nat) /\
  (updates simple_tied_waiting = [] \/ players simple_tied_waiting = [] ->
   pendingMoves simple_tied_waiting = []).
Proof.
  apply (pending_buffer_invariant simple simple_tied_waiting).
  exact simple_tied_waiting_reachable.
Defined.

(** X5 after [start("test_seed")]. *)
Lemma accessors_agree_once_started_witness :
  exists front u,
    getAllUpdates simple_started = (simple_started, inr (front ++ [u])) /\
    getLatestUpdate simple_started = (simple_started, inr u) /\
    getPlayersToPlay simple_started
    = (simple_started, inr (JsSet.of_array (toPlay u))).
Proof.
  apply (accessors_agree_once_started simple_started).
  vm_compute. discriminate.
Defined.

(** X7 for the generator at 100. *)
Lemma dice_rolls_are_bounded_and_periodic_witness :
  0 <= 100 * 8191 < 2 ^ 53 /\
  0 <= fst (getNextDiceRoll 100) < 127 /\
  1 <= snd (getNextDiceRoll 100) <= 6 /\
  spin 14 100 = 100 /\
  getNextDiceRoll 0 = (0, 1).
Proof.
  apply (DiceFacts.dice_rolls_are_bounded_and_periodic 100). lia.
Defined.

(** X8 for the second roll of the three dice of the test. *)
Lemma rollAllDice_finds_the_high_rollers_witness :
  let s := rollAllDice three_players (self simple_started) in
  exists pub priv : list Z,
    publicRolls s = Some pub /\ privateRolls s = Some priv /\
    List.length pub = 3%nat /\ List.length priv = 3%nat /\
    highRollers s <> [] /\
    (forall p, In p (highRollers s) <->
               0 <= p < 3 /\ forall v, In v pub -> v <= nth (Z.to_nat p) pub 0) /\
    0 <= rollGenerator s < 127.
Proof.
  destruct (DiceFacts.rollAllDice_finds_the_high_rollers
              three_players (self simple_started) [6; 1; 4] [5; 2; 2])
    as (pub & priv & Hpub & Hpriv & Hlpub & Hlpriv & _ & _ & Hsome & _
        & Hbest & _ & _ & _ & Hgen).
  - vm_compute. split; [discriminate | reflexivity].
  - reflexivity.
  - reflexivity.
  - vm_compute. lia.
  - vm_compute. lia.
  - vm_compute. lia.
  - exists pub, priv.
    split; [exact Hpub |]. split; [exact Hpriv |]. split; [exact Hlpub |].
    split; [exact Hlpriv |]. split; [exact Hsome |].
    split; [exact Hbest | exact Hgen].
Defined.

(** X10 for the first turn of the test: player 0 guesses "odd", the parity
    of the turn. *)
Lemma processTurn_scores_each_submitted_move_witness :
  let moves := [(0, mkMove odd false)] in
  let s := self simple_started in
  List.length (points (fst (processTurn three_players moves s))) = 3%nat /\
  array_get (points (fst (processTurn three_players moves s))) 0 = Some 1.
Proof.
  destruct (DiceFacts.processTurn_scores_each_submitted_move
              three_players [(0, mkMove odd false)] (self simple_started)
              [6; 1; 4] [5; 2; 2] 0)
    as (Hlength & _ & Hscore).
  - reflexivity.
  - reflexivity.
  - repeat constructor. intros [].
  - constructor; [| constructor].
    vm_compute. split; [discriminate | reflexivity].
  - split; [exact Hlength |].
    apply (Hscore (mkMove odd false) 0); reflexivity.
Defined.

(** X13 for the first turn of the test, where player 0 rolled 6 in public
    and 5 in private. *)
Lemma assertMoveIsLegal_only_checks_gambles_witness :
  let s := self simple_started in
  let m := mkMove odd true in
  (gamble m = false -> assertMoveIsLegal s m 0 = inr tt) /\
  (gamble m = true ->
   (assertMoveIsLegal s m 0 = inr tt <->
    array_get [6; 1; 4] 0 = array_get [5; 2; 2] 0)) /\
  (forall e,
     assertMoveIsLegal s m 0 = inl e ->
     cls e = IllegalMoveError /\
     reports e (AnyMove m) /\ reports e (AnyNumber 0)).
Proof.
  apply (DiceFacts.assertMoveIsLegal_only_checks_gambles
           (self simple_started) (mkMove odd true) 0 [6; 1; 4] [5; 2; 2]);
    reflexivity.
Defined.

(** X14 after [start("test_seed")]. *)
Lemma dice_game_ends_exactly_when_someone_wins_witness :
  exists u (n : nat),
    latest simple_started = Some u /\
    0 <= rollGenerator (self simple_started) < 127 /\
    (1 <= n)%nat /\ numPlayers (options simple_started) = inject_Z (Z.of_nat n) /\
    Forall (fun p => 0 <= p < Z.of_nat n) (toPlay u) /\
    (toPlay u = [] <->
     getWinners (options simple_started) (self simple_started) <> []) /\
    (toPlay u = [] ->
     winners u = Some (getWinners (options simple_started) (self simple_started)) /\
     pu_publicRolls (publicInfo u) = None /\ privateInfo u = None) /\
    (toPlay u <> [] ->
     winners u = None /\
     exists pub priv,
       pu_publicRolls (publicInfo u) = Some pub /\
       privateInfo u = Some priv /\
       List.length pub = n /\ List.length priv = n).
Proof.
  apply (DiceGameFacts.dice_game_ends_exactly_when_someone_wins simple_started).
  - exact simple_started_reachable.
  - vm_compute. discriminate.
  - vm_compute. discriminate.
Defined.

(** X15 after [start("test_seed")]: player 0 guesses "even". *)
Lemma dice_game_accepts_guesses_and_checks_gambles_witness :
  let g := simple_started in
  let raw := call "even" in
  (raw_gamble raw = false ->
   exists g' (b : bool), playMove simple raw 0 g = (g', inr b)) /\
  (raw_gamble raw = true ->
   exists u pub priv,
     latest g = Some u /\
     pu_publicRolls (publicInfo u) = Some pub /\
     privateInfo u = Some priv /\
     (array_get pub 0 = option_map privateRoll (array_get priv 0) ->
      exists g' (b : bool), playMove simple raw 0 g = (g', inr b)) /\
     (array_get pub 0 <> option_map privateRoll (array_get priv 0) ->
      exists g' e, playMove simple raw 0 g = (g', inl e) /\
                   cls e = IllegalMoveError)).
Proof.
  apply (DiceGameFacts.dice_game_accepts_guesses_and_checks_gambles
           simple_started (call "even") 0).
  - exact simple_started_reachable.
  - vm_compute. now left.
  - vm_compute. intros [].
  - now left.
Defined.

(** X22 for the game of the test. *)
Lemma dice_game_starts_with_someone_to_play_witness :
  exists g' u,
    start simple "test_seed" simple_new = (g', inr tt) /\
    updates g' = [u] /\
    toPlay u <> [] /\ winners u = None /\
    pu_calls (publicInfo u) = None /\
    pu_lastPrivateRolls (publicInfo u) = None /\
    points (self g') = repeat 0 (rounds (numPlayers (options simple_new))) /\
    getWinners (options g') (self g') = [].
Proof.
  apply (DiceGameFacts.dice_game_starts_with_someone_to_play
           three_players simple_new "test_seed").
  - vm_compute. discriminate.
  - reflexivity.
Defined.

(** X16 on a new game of three players, with the empty seed. *)
Lemma seed_counts_through_its_character_sum_witness :
  let s := fields three_players in
  (forall a b : string,
      initialize three_players (a ++ b) s = initialize three_players (b ++ a) s) /\
  rollGenerator (fst (initialize three_players "" s)) = 0 /\
  publicRolls (rollAllDice three_players s) = Some [1; 1; 1] /\
  privateRolls (rollAllDice three_players s) = Some [1; 1; 1] /\
  highRollers (rollAllDice three_players s) = [0; 1; 2] /\
  highRollsParity (rollAllDice three_players s) = Some odd.
Proof.
  destruct (DiceGameFacts.seed_counts_through_its_character_sum
              three_players (fields three_players) [] [])
    as (Hswap & Hzero & Hones).
  - reflexivity.
  - reflexivity.
  - split; [exact Hswap |].
    split; [apply (Hzero ""); reflexivity |].
    destruct Hones as (_ & Hpub & Hpriv & Hhigh & Hparity).
    + reflexivity.
    + vm_compute. lia.
    + vm_compute. lia.
    + split; [exact Hpub |]. split; [exact Hpriv |].
      split; [exact Hhigh | exact Hparity].
Defined.

(** X23 for a new game of tic-tac-toe. *)
Lemma strategy_game_starts_with_player_0_witness :
  numberOfPlayers tictactoe_new = 2 # 1 /\
  start Tictactoe.rules "" tictactoe_new
  = (mkGame (pendingMoves tictactoe_new)
            [mkUpdate None [0] None None]
            (options tictactoe_new) (numberOfPlayers tictactoe_new)
            (self tictactoe_new)
            (calls tictactoe_new
             ++ [CallInitialize "" (mkUpdate None [0] None None)]),
     inr tt).
Proof.
  apply (StrategyGameFacts.strategy_game_starts_with_player_0
           Tictactoe.subclass tt tictactoe_new "").
  reflexivity.
Defined.

(** X17 at the end of the game of the test. *)
Lemma strategy_game_history_is_the_record_of_moves_witness :
  pendingMoves tictactoe_played = [] /\
  map publicInfo (updates tictactoe_played)
  = None :: AbstractStrategyGame.moves (self tictactoe_played) /\
  Forall (fun m => m <> None) (AbstractStrategyGame.moves (self tictactoe_played)) /\
  List.length (updates tictactoe_played)
  = Datatypes.S (List.length (AbstractStrategyGame.moves (self tictactoe_played))) /\
  (players tictactoe_played
   = [Z.of_nat (List.length (AbstractStrategyGame.moves (self tictactoe_played))
                mod 2)] \/
   players tictactoe_played = [] /\
   exists u,
     latest tictactoe_played = Some u /\
     (winners u = Some [] \/ winners u = Some [0] \/ winners u = Some [1])).
Proof.
  apply (StrategyGameFacts.strategy_game_history_is_the_record_of_moves
           Tictactoe.subclass tictactoe_played).
  - exact tictactoe_played_reachable.
  - vm_compute. discriminate.
Defined.

(** X18 at the first move of the game of the test. *)
Lemma strategy_game_accepted_move_ends_the_turn_witness :
  let g := tictactoe_started in
  let g' := fst (playMove Tictactoe.rules (cell 0) 0 g) in
  true = true /\
  0 = Z.of_nat (List.length (AbstractStrategyGame.moves (self g)) mod 2) /\
  players g = [0] /\
  exists sm u,
    snd (AbstractStrategyGame.sanitizeMove Tictactoe.subclass (options g)
           (cell 0) (self g)) = inr sm /\
    AbstractStrategyGame.moves (self g')
    = AbstractStrategyGame.moves (self g) ++ [Some sm] /\
    updates g' = updates g ++ [u] /\
    publicInfo u = Some sm /\
    pendingMoves g' = [].
Proof.
  apply (StrategyGameFacts.strategy_game_accepted_move_ends_the_turn
           Tictactoe.subclass tictactoe_started (cell 0) 0).
  - exact tictactoe_started_reachable.
  - vm_compute. reflexivity.
Defined.

(** X20 after two moves of [NaN] and cell 4. *)
Lemma tictactoe_cell_is_taken_at_most_once_witness :
  let g := tictactoe_with_NaN in
  exists ms : list Js.whole,
    AbstractStrategyGame.moves (self g) = map Some ms /\
    Forall cell_or_NaN ms /\
    NoDup (taken ms) /\
    (List.length ms <= 9)%nat /\
    (forall k, 0 <= k ->
       Z.testbit (Tictactoe.xBoard (AbstractStrategyGame.own (self g))) k = true <->
       exists i, Nat.even i = true /\ nth_error ms i = Some (Js.Whole k)) /\
    (forall k, 0 <= k ->
       Z.testbit (Tictactoe.yBoard (AbstractStrategyGame.own (self g))) k = true <->
       exists i, Nat.odd i = true /\ nth_error ms i = Some (Js.Whole k)) /\
    (forall (c : Z) (p : Player), 0 <= c <= 8 ->
       Tictactoe.assertMoveIsLegal (Js.Whole c) p
         (AbstractStrategyGame.own (self g)) = inr tt
       <-> ~ In c (taken ms)) /\
    (forall p : Player,
       Tictactoe.assertMoveIsLegal Js.NaNWhole p
         (AbstractStrategyGame.own (self g)) = inr tt).
Proof.
  apply (TictactoeFacts.tictactoe_cell_is_taken_at_most_once
           tictactoe_with_NaN).
  exact tictactoe_with_NaN_reachable.
Defined.

(** X21 at the end of the game of the test. *)
Lemma tictactoe_ends_with_a_line_or_a_full_board_witness :
  let g := tictactoe_played in
  let b := AbstractStrategyGame.own (self g) in
  (has_line (Tictactoe.xBoard b) = false \/
   has_line (Tictactoe.yBoard b) = false) /\
  (players g = [] <->
   has_line (Tictactoe.xBoard b) = true \/
   has_line (Tictactoe.yBoard b) = true \/
   List.length (AbstractStrategyGame.moves (self g)) = 9%nat) /\
  (players g = [] ->
   exists u, latest g = Some u /\ winners u = Some (line_winners b)) /\
  (players g <> [] ->
   players g
   = [Z.of_nat (List.length (AbstractStrategyGame.moves (self g)) mod 2)]).
Proof.
  apply (TictactoeFacts.tictactoe_ends_with_a_line_or_a_full_board
           tictactoe_played).
  - exact tictactoe_played_reachable.
  - vm_compute. discriminate.
Defined.

End MoreInstances.
